(** * Planets browser: the selection state and the store that publishes it

    A shallow embedding of the state/cache engine of the planets browser
    (an Angular application over a paginated REST collection) and the
    properties of its specification.

    The repository holds two generations of the engine:

    - [Store]: the current one.  [State] carries [memoizedPortions]; the
      [PlanetsStoreService] receives events [search], [newPage],
      [changePageSize] (each with the state the caller holds), funnels them
      through [switchMap] and publishes the outcome on [state$].  The
      [PlanetsService] it talks to does not cache portions.
    - [Legacy]: the first one.  [State] has action methods that return
      observables of new states, the [PlanetsService] caches the portion
      observables per page for the last searched term, and the
      [PlanetsStoreService] only switches between the observables handed to
      [update].

    Numbers are JavaScript numbers holding integers in the safe range, and
    are embedded as [Z]; [null] is [None]; a method that throws returns
    [None].  The transport is the environment: the services are transition
    systems whose inputs are the calls of the components and the replies to
    the requests in flight.

    Around the engine: [Items] is the cache of single planets that both
    generations of [PlanetsService] keep for the details page;
    [ResultsPage] and [SettingsPanel] are the components that subscribe to
    [state$] and call the service; [App] puts the current service and the
    components together, and [Served] puts a server behind them.

    The definitions come first: the JavaScript helpers, the two engines,
    the components, the predicates of the properties and the data of the
    scenarios.  The properties follow; the statements marked C1 to C10 are
    those of the specification, the lemmas named [legacy_] are their
    counterparts for the first generation, and the statements marked X1
    onwards are further properties of the code. *)

From stdpp Require Import gmap strings list list_numbers.

Local Open Scope Z_scope.

(** ** JavaScript arithmetic and arrays used by the engine *)

Module Js.

(** [ToNumber]: [null] is [+0] in arithmetic. *)
Definition num (o : option Z) : Z := default 0 o.

(** [x == 0]: [null == 0] is false. *)
Definition eq0 (o : option Z) : bool :=
  match o with
  | Some 0 => true
  | _ => false
  end.

(** The value of [Math.ceil(a / b)]: division by zero does not raise. *)
Inductive number :=
| Fin (z : Z)
| PosInf
| NegInf
| NaN.

Definition ceil_div (a b : Z) : number :=
  if b =? 0 then
    if 0 <? a then PosInf else if a <? 0 then NegInf else NaN
  else Fin (- ((- a) / b)).

(** [p > n]; every comparison with [NaN] is false. *)
Definition gt (p : Z) (n : number) : bool :=
  match n with
  | Fin z => z <? p
  | PosInf => false
  | NegInf => true
  | NaN => false
  end.

(** [new Array(n)] raises a [RangeError] unless [n] is a 32-bit length. *)
Definition array_length_ok (n : Z) : bool := (0 <=? n) && (n <? 2 ^ 32).

(** [Array.prototype.slice(start, end)]: negative arguments count from the
    end, both are clamped to the array. *)
Definition clamp_index (len i : Z) : Z :=
  if i <? 0 then Z.max (len + i) 0 else Z.min i len.

Definition slice {A} (l : list A) (start fin : Z) : list A :=
  let len := Z.of_nat (length l) in
  let k := clamp_index len start in
  let e := clamp_index len fin in
  take (Z.to_nat (e - k)) (drop (Z.to_nat k) l).

End Js.

(** ** Records served by the API *)

(** Modelled from the spec: [models/Planet] is not among the sources; the
    engine passes planets through untouched and the results page only reads
    the [url] that identifies one. *)
Record Planet := mkPlanet { url : string }.

(** [models/PlanetsPortion]: a server-side page of at most ten planets.  The
    [next] and [previous] links are never read by the engine. *)
Record PlanetsPortion := mkPortion {
  portion_count : Z;
  results : list Planet
}.

(** An HTTP request for a portion: [?page=..&search=..]. *)
Definition Request : Type := Z * option string.

(** ** The current engine *)

Module Store.

(** *** State.ts *)

Record State := mkState {
  pageSize : Z;
  searchTerm : option string;
  page : option Z;
  count : option Z;
  error : bool;
  initial : bool;
  memoizedPortions : gmap Z (list Planet)
}.

Definition set_pageSize (v : Z) (s : State) : State :=
  mkState v (searchTerm s) (page s) (count s) (error s) (initial s)
          (memoizedPortions s).
Definition set_searchTerm (v : option string) (s : State) : State :=
  mkState (pageSize s) v (page s) (count s) (error s) (initial s)
          (memoizedPortions s).
Definition set_page (v : option Z) (s : State) : State :=
  mkState (pageSize s) (searchTerm s) v (count s) (error s) (initial s)
          (memoizedPortions s).
Definition set_count (v : option Z) (s : State) : State :=
  mkState (pageSize s) (searchTerm s) (page s) v (error s) (initial s)
          (memoizedPortions s).
Definition set_error (v : bool) (s : State) : State :=
  mkState (pageSize s) (searchTerm s) (page s) (count s) v (initial s)
          (memoizedPortions s).
Definition set_initial (v : bool) (s : State) : State :=
  mkState (pageSize s) (searchTerm s) (page s) (count s) (error s) v
          (memoizedPortions s).
Definition set_memoizedPortions (v : gmap Z (list Planet)) (s : State) : State :=
  mkState (pageSize s) (searchTerm s) (page s) (count s) (error s)
          (initial s) v.

Definition pagesCount (s : State) : Js.number :=
  Js.ceil_div (Js.num (count s)) (pageSize s).

Definition portionsCount (s : State) : Z :=
  - ((- Js.num (count s)) / 10).

(** The four index accessors throw when [count == 0]: [None]. *)
Definition begIndex (s : State) : option Z :=
  if Js.eq0 (count s) then None
  else Some (pageSize s * (Js.num (page s) - 1)).

Definition endIndex (s : State) : option Z :=
  if Js.eq0 (count s) then None
  else Some (Z.min (pageSize s * Js.num (page s)) (Js.num (count s))).

Definition begPortionIndex (s : State) : option Z :=
  if Js.eq0 (count s) then None
  else b ← begIndex s; Some (b / 10 + 1).

Definition endPortionIndex (s : State) : option Z :=
  if Js.eq0 (count s) then None
  else e ← endIndex s; Some ((e - 1) / 10 + 1).

(** The loop [for (i = beg; i <= end; i++)]. *)
Definition loop_range (b e : Z) : list Z := seqZ b (e - b + 1).

(** The body of the loop of [planetList]: concatenate the portions in
    index order, throwing at the first one that is [undefined]. *)
Fixpoint concat_portions (m : gmap Z (list Planet)) (idxs : list Z)
  : option (list Planet) :=
  match idxs with
  | [] => Some []
  | i :: rest =>
      p ← m !! i;
      l ← concat_portions m rest;
      Some (p ++ l)
  end.

Definition planetList (s : State) : option (list Planet) :=
  if Js.eq0 (count s) then Some []
  else
    b ← begPortionIndex s;
    e ← endPortionIndex s;
    l ← concat_portions (memoizedPortions s) (loop_range b e);
    bi ← begIndex s;
    ei ← endIndex s;
    let shift := 10 * (b - 1) in
    Some (Js.slice l (bi - shift) (ei - shift)).

(** [new Array<Planet[]>(portionsCount() + 1)]: an array of holes. *)
Definition resetMemoizedPortions (s : State) : option State :=
  if Js.array_length_ok (portionsCount s + 1)
  then Some (set_memoizedPortions ∅ s)
  else None.

(** The spread [[...memoizedPortions]] copies the elements of the array,
    that is the entries at array indices; an entry written under any other
    number is a plain property, which the copy lacks. *)
Definition spread (m : gmap Z (list Planet)) : gmap Z (list Planet) :=
  filter (λ kv, 0 ≤ kv.1 < 2 ^ 32 - 1) m.

(** [copyOf]: the constructor runs [resetMemoizedPortions], so it throws
    with it. *)
Definition copyOf (s : State) : option State :=
  newState ← resetMemoizedPortions
               (mkState (pageSize s) (searchTerm s) (page s) (count s)
                        (error s) (initial s) ∅);
  Some (set_memoizedPortions (spread (memoizedPortions s)) newState).

(** *** planets-store.service.ts *)

Definition initialState : State := mkState 25 None None None false true ∅.

(** What an [Observable<State>] built by the service is doing once it is
    subscribed: [of(s)] emits at once; the other two wait for the
    transport. *)
Inductive Obs :=
| Of (s : State)
| AwaitFirst (state : State) (term : string)
| ForkJoin (baseState : State) (portionIndexes : list Z)
           (arrived : gmap Z (list Planet)).

(** [errorStateObservable]: a copy of the initial state with [error] set
    (the initial state can be copied, see [copyOf_initialState]). *)
Definition errState : State :=
  set_error true (default initialState (copyOf initialState)).

Definition errorStateObservable : Obs := Of errState.

(** The [portionIndexes] of [makeNewStateObservable]: the indices of the
    loop whose portion is not memoized. *)
Definition missing (baseState : State) (b e : Z) : list Z :=
  filter (λ i, memoizedPortions baseState !! i = None) (loop_range b e).

(** The indices the loop passes over because their portion is memoized. *)
Definition cached (baseState : State) (b e : Z) : list Z :=
  filter (λ i, memoizedPortions baseState !! i ≠ None) (loop_range b e).

(** [makeNewStateObservable]: the observable, and the requests that
    subscribing to it sends ([getPlanetsPortion] of this generation is a
    bare [http.get]). *)
Definition makeNewStateObservable (baseState : State) : Obs * list Request :=
  if Js.eq0 (count baseState) then (Of baseState, [])
  else
    match begPortionIndex baseState, endPortionIndex baseState with
    | Some b, Some e =>
        let portionIndexes := missing baseState b e in
        match portionIndexes with
        | [] => (Of baseState, [])
        | _ => (ForkJoin baseState portionIndexes ∅,
                (λ i, (i, searchTerm baseState)) <$> portionIndexes)
        end
    | _, _ => (Of baseState, [])
    end.

(** The [map] callback of [forkJoin]: store every fetched portion under
    its index. *)
Definition store_portions (baseState : State) (portionIndexes : list Z)
    (arrived : gmap Z (list Planet)) : State :=
  foldl (λ st index,
           match arrived !! index with
           | Some res =>
               set_memoizedPortions (<[index := res]> (memoizedPortions st)) st
           | None => st
           end) baseState portionIndexes.

Definition all_arrived (portionIndexes : list Z)
    (arrived : gmap Z (list Planet)) : bool :=
  forallb (λ i, bool_decide (is_Some (arrived !! i))) portionIndexes.

(** [__search]: the flags are cleared at once, the rest waits for
    portion 1. *)
Definition __search (state : State) (term : string) : Obs * list Request :=
  (AwaitFirst (set_initial false (set_error false state)) term,
   [(1, Some term)]).

(** The [mergeMap] / [catchError] pair of [__search], run on the reply for
    portion 1 ([None]: the request failed). *)
Definition search_reply (state : State) (term : string)
    (r : option PlanetsPortion) : Obs * list Request :=
  match r with
  | None => (errorStateObservable, [])
  | Some portion =>
      let state := set_count (Some (portion_count portion))
                     (set_page (Some 1)
                        (set_searchTerm (Some term) state)) in
      match resetMemoizedPortions state with
      | None => (errorStateObservable, [])
      | Some state =>
          makeNewStateObservable
            (if 0 <? portion_count portion
             then set_memoizedPortions
                    (<[1 := results portion]> (memoizedPortions state)) state
             else state)
      end
  end.

Definition __newPage (state : State) (page : Z) : Obs * list Request :=
  if error state || initial state then (errorStateObservable, [])
  else
    let page := if Js.gt page (pagesCount state) then 1 else page in
    makeNewStateObservable (set_page (Some page) state).

Definition __changePageSize (state : State) (pageSize : Z)
  : Obs * list Request :=
  if error state || initial state then (errorStateObservable, [])
  else makeNewStateObservable (set_page (Some 1) (set_pageSize pageSize state)).

(** A reply for portion [i] reaching a subscribed observable. *)
Definition respond (o : Obs) (i : Z) (r : option PlanetsPortion)
  : Obs * list Request :=
  match o with
  | Of s => (Of s, [])
  | AwaitFirst state term =>
      if decide (i = 1) then search_reply state term r else (o, [])
  | ForkJoin baseState portionIndexes arrived =>
      if decide (i ∈ portionIndexes ∧ arrived !! i = None) then
        match r with
        | None => (errorStateObservable, [])
        | Some portion =>
            let arrived := <[i := results portion]> arrived in
            if all_arrived portionIndexes arrived
            then (Of (store_portions baseState portionIndexes arrived), [])
            else (ForkJoin baseState portionIndexes arrived, [])
        end
      else (o, [])
  end.

(** The events of [eventListener$], as the three public methods build
    them: the payload and the state held by the caller. *)
Inductive Event :=
| search (searchTerm : string) (state : State)
| newPage (page : Z) (state : State)
| changePageSize (pageSize : Z) (state : State).

Definition event_state (ev : Event) : State :=
  match ev with
  | search _ s | newPage _ s | changePageSize _ s => s
  end.

Definition with_state (ev : Event) (s : State) : Event :=
  match ev with
  | search t _ => search t s
  | newPage p _ => newPage p s
  | changePageSize n _ => changePageSize n s
  end.

(** The [switch] of the projection, on the copy of the event's state. *)
Definition handle (ev : Event) (state : State) : Obs * list Request :=
  match ev with
  | search term _ => __search state term
  | newPage page _ => __newPage state page
  | changePageSize pageSize _ => __changePageSize state pageSize
  end.

(** The function given to [switchMap]; [None] when [copyOf] throws. *)
Definition project (ev : Event) : option (Obs * list Request) :=
  state ← copyOf (event_state ev);
  Some (handle ev state).

(** Who produced a value of [state$]. *)
Inductive Origin :=
| Initial
| Constructor
| FromEvent (k : nat).

(** Which subscription a reply belongs to: the constructor's search, or
    the inner observable [switchMap] built for its [k]-th event. *)
Inductive Subscription :=
| Boot
| Inner (k : nat).

Record PlanetsStoreService := mkService {
  state_log : list (Origin * State);
  boot : option Obs;
  listening : bool;
  index : nat;
  inner : option (nat * Obs);
  http : list Request
}.

(** The constructor: [state$] starts with the initial state, and a search
    for the empty term is in flight; nobody listens to events yet. *)
Definition construct : PlanetsStoreService :=
  let '(o, reqs) :=
    __search (default initialState (copyOf initialState)) "" in
  mkService [(Initial, initialState)] (Some o) false 0 None reqs.

Inductive Input :=
| Dispatch (ev : Event)
| Response (sub : Subscription) (i : Z) (r : option PlanetsPortion).

Definition step (svc : PlanetsStoreService) (x : Input)
  : PlanetsStoreService :=
  match x with
  | Dispatch ev =>
      if listening svc then
        match project ev with
        | None =>
            mkService (state_log svc) (boot svc) false (S (index svc))
                      None (http svc)
        | Some (Of s, reqs) =>
            mkService (state_log svc ++ [(FromEvent (index svc), s)])
                      (boot svc) true (S (index svc)) None
                      (http svc ++ reqs)
        | Some (o, reqs) =>
            mkService (state_log svc) (boot svc) true (S (index svc))
                      (Some (index svc, o)) (http svc ++ reqs)
        end
      else svc
  | Response Boot i r =>
      match boot svc with
      | Some o =>
          match respond o i r with
          | (Of s, reqs) =>
              mkService (state_log svc ++ [(Constructor, s)]) None true
                        (index svc) (inner svc) (http svc ++ reqs)
          | (o', reqs) =>
              mkService (state_log svc) (Some o') (listening svc)
                        (index svc) (inner svc) (http svc ++ reqs)
          end
      | None => svc
      end
  | Response (Inner k) i r =>
      match inner svc with
      | Some (k', o) =>
          if decide (k = k') then
            match respond o i r with
            | (Of s, reqs) =>
                mkService (state_log svc ++ [(FromEvent k, s)]) (boot svc)
                          (listening svc) (index svc) None
                          (http svc ++ reqs)
            | (o', reqs) =>
                mkService (state_log svc) (boot svc) (listening svc)
                          (index svc) (Some (k, o')) (http svc ++ reqs)
            end
          else svc
      | None => svc
      end
  end.

Definition run (svc : PlanetsStoreService) (tr : list Input)
  : PlanetsStoreService :=
  foldl step svc tr.

(** The value [state$] currently holds. *)
Definition current (svc : PlanetsStoreService) : option State :=
  snd <$> last (state_log svc).

(** The same transitions as a relation, one rule per case of [step]. *)
Definition waits (o : Obs) : Prop := ∀ s, o ≠ Of s.

Inductive Step (svc : PlanetsStoreService)
  : Input → PlanetsStoreService → Prop :=
| Dropped ev :
    listening svc = false →
    Step svc (Dispatch ev) svc
| Crashed ev :
    listening svc = true → project ev = None →
    Step svc (Dispatch ev)
         (mkService (state_log svc) (boot svc) false (S (index svc))
                    None (http svc))
| Emitted ev s reqs :
    listening svc = true → project ev = Some (Of s, reqs) →
    Step svc (Dispatch ev)
         (mkService (state_log svc ++ [(FromEvent (index svc), s)])
                    (boot svc) true (S (index svc)) None
                    (http svc ++ reqs))
| Switched ev o reqs :
    listening svc = true → project ev = Some (o, reqs) → waits o →
    Step svc (Dispatch ev)
         (mkService (state_log svc) (boot svc) true (S (index svc))
                    (Some (index svc, o)) (http svc ++ reqs))
| BootIgnored i r :
    boot svc = None →
    Step svc (Response Boot i r) svc
| BootDone o i r s reqs :
    boot svc = Some o → respond o i r = (Of s, reqs) →
    Step svc (Response Boot i r)
         (mkService (state_log svc ++ [(Constructor, s)]) None true
                    (index svc) (inner svc) (http svc ++ reqs))
| BootWaits o i r o' reqs :
    boot svc = Some o → respond o i r = (o', reqs) → waits o' →
    Step svc (Response Boot i r)
         (mkService (state_log svc) (Some o') (listening svc)
                    (index svc) (inner svc) (http svc ++ reqs))
| InnerIgnored k i r :
    (∀ o, inner svc ≠ Some (k, o)) →
    Step svc (Response (Inner k) i r) svc
| InnerDone k o i r s reqs :
    inner svc = Some (k, o) → respond o i r = (Of s, reqs) →
    Step svc (Response (Inner k) i r)
         (mkService (state_log svc ++ [(FromEvent k, s)]) (boot svc)
                    (listening svc) (index svc) None (http svc ++ reqs))
| InnerWaits k o i r o' reqs :
    inner svc = Some (k, o) → respond o i r = (o', reqs) → waits o' →
    Step svc (Response (Inner k) i r)
         (mkService (state_log svc) (boot svc) (listening svc)
                    (index svc) (Some (k, o')) (http svc ++ reqs)).

(** *** Predicates used in the properties *)

(** The bookkeeping of [switchMap]: the inner observable belongs to the
    last event received, and whatever was published for an event was
    published before any observable now in flight was created. *)
Definition switching (svc : PlanetsStoreService) : Prop :=
  (∀ k o, inner svc = Some (k, o) → S k = index svc ∧ listening svc = true) ∧
  (∀ k s, (FromEvent k, s) ∈ state_log svc →
          (k < index svc)%nat ∧
          ∀ k' o, inner svc = Some (k', o) → (k < k')%nat).

(** Event [k] has been superseded without having published. *)
Definition superseded (k : nat) (svc : PlanetsStoreService) : Prop :=
  (S k < index svc)%nat ∧ ∀ s, (FromEvent k, s) ∉ state_log svc.

(** Every portion the page of [s] needs is memoized. *)
Definition complete (s : State) : Prop :=
  ∀ b e i, begPortionIndex s = Some b → endPortionIndex s = Some e →
           b ≤ i ≤ e → is_Some (memoizedPortions s !! i).

(** A [State] object exists only if its constructor returned, that is
    if [new Array(portionsCount() + 1)] did not throw. *)
Definition constructed (s : State) : Prop :=
  Js.array_length_ok (portionsCount s + 1) = true.

(** Invariants of the service are stated over the values of [state$]
    ([P]) and over the observables in flight ([Q]); the inputs may be
    restricted: [okEvent] for the events, [okReply] for the reply an
    observable receives. *)
Definition admissible (okEvent : Event → Prop)
    (okReply : Obs → Z → option PlanetsPortion → Prop)
    (svc : PlanetsStoreService) (x : Input) : Prop :=
  match x with
  | Dispatch ev => okEvent ev
  | Response Boot i r => ∀ o, boot svc = Some o → okReply o i r
  | Response (Inner k) i r => ∀ o, inner svc = Some (k, o) → okReply o i r
  end.

Fixpoint admissible_trace (okEvent : Event → Prop)
    (okReply : Obs → Z → option PlanetsPortion → Prop)
    (svc : PlanetsStoreService) (tr : list Input) : Prop :=
  match tr with
  | [] => True
  | x :: tr' =>
      admissible okEvent okReply svc x ∧
      admissible_trace okEvent okReply (step svc x) tr'
  end.

Definition invariant (P : State → Prop) (Q : Obs → Prop)
    (svc : PlanetsStoreService) : Prop :=
  (∀ o s, (o, s) ∈ state_log svc → P s) ∧
  (∀ o, boot svc = Some o → Q o) ∧
  (∀ k o, inner svc = Some (k, o) → Q o).

(** What may be published: a flagged state, or one whose page is wholly
    memoized. *)
Definition publishable (s : State) : Prop :=
  error s = true ∨ initial s = true ∨ complete s.

(** What may be in flight: a join that asks for every portion its base
    state lacks. *)
Definition resolving (o : Obs) : Prop :=
  match o with
  | Of s => publishable s
  | AwaitFirst _ _ => True
  | ForkJoin base idxs _ =>
      ∀ b e i, begPortionIndex base = Some b → endPortionIndex base = Some e →
               b ≤ i ≤ e → is_Some (memoizedPortions base !! i) ∨ i ∈ idxs
  end.

(** The portions of the first page, at the page size of [s], are
    memoized. *)
Definition first_page_ready (s : State) : Prop :=
  complete (set_page (Some 1) s).

(** What every published state is: an object that could be constructed
    and, unless flagged, one that can show its first page. *)
Definition well_kept (s : State) : Prop :=
  constructed s ∧ (error s = false → initial s = false → first_page_ready s).

Definition keeping (o : Obs) : Prop :=
  match o with
  | Of s => well_kept s
  | AwaitFirst _ _ => True
  | ForkJoin base idxs arrived =>
      constructed base ∧
      (first_page_ready base ∨
       (page base = Some 1 ∧ resolving (ForkJoin base idxs arrived)))
  end.

(** While the constructor's search is in flight nothing listens to the
    events; afterwards the service listens, until a projection throws. *)
Definition booting (svc : PlanetsStoreService) : Prop :=
  match boot svc with
  | Some _ => listening svc = false ∧ inner svc = None
  | None => True
  end.

(** Once the first search is over, the service listens for as long as the
    events carry states that can be copied. *)
Definition settled (svc : PlanetsStoreService) : Prop :=
  boot svc = None → listening svc = true.

(** The events that change the page or its size. *)
Definition pages (ev : Event) : bool :=
  match ev with
  | search _ _ => false
  | newPage _ _ | changePageSize _ _ => true
  end.

(** The observable after a sequence of replies. *)
Definition replies (o : Obs) (rs : list (Z * option PlanetsPortion)) : Obs :=
  foldl (λ o ir, (respond o ir.1 ir.2).1) o rs.

(** The observable can only end in an error state or on page [pg]. *)
Definition aims_at_page (pg : Z) (o : Obs) : Prop :=
  match o with
  | Of s => error s = true ∨ page s = Some pg
  | AwaitFirst _ _ => False
  | ForkJoin base _ _ => page base = Some pg
  end.

(** Whatever the service publishes for event [k] is an error state or on
    page [pg]. *)
Definition aiming (pg : Z) (k : nat) (svc : PlanetsStoreService) : Prop :=
  (∀ s, (FromEvent k, s) ∈ state_log svc → error s = true ∨ page s = Some pg) ∧
  (∀ o, inner svc = Some (k, o) → aims_at_page pg o) ∧
  (k < index svc)%nat.

(** The outcome of a step: the states it publishes, the observable it
    leaves in flight, and the requests it sends. *)
Definition news (svc svc' : PlanetsStoreService)
  : list State * option Obs * list Request :=
  (snd <$> drop (length (state_log svc)) (state_log svc'),
   snd <$> inner svc',
   drop (length (http svc)) (http svc')).

(** Every memoized portion of a state is the portion the server has for
    the term of that state. *)
Definition coherent (server : option string → Z → list Planet) (s : State)
  : Prop :=
  ∀ i l, memoizedPortions s !! i = Some l → l = server (searchTerm s) i.

Definition coherent_obs (server : option string → Z → list Planet) (o : Obs)
  : Prop :=
  match o with
  | Of s => coherent server s
  | AwaitFirst _ _ => True
  | ForkJoin base _ arrived =>
      coherent server base ∧
      ∀ i l, arrived !! i = Some l → l = server (searchTerm base) i
  end.

(** The transport answers a request with the portion of the term that
    the request names. *)
Definition honest_reply (server : option string → Z → list Planet)
    (o : Obs) (i : Z) (r : option PlanetsPortion) : Prop :=
  ∀ portion, r = Some portion →
    match o with
    | Of _ => True
    | AwaitFirst _ term => results portion = server (Some term) i
    | ForkJoin base _ _ => results portion = server (searchTerm base) i
    end.

End Store.

(** ** The first engine *)

Module Legacy.

(** *** State.ts (first generation) *)

Record State := mkState {
  pageSize : Z;
  searchTerm : option string;
  page : option Z;
  displayList : option (list Planet);
  count : option Z;
  error : bool;
  initial : bool
}.

(** [new State(planetsService)]: the field initialisers. *)
Definition newState : State := mkState 25 None None None None false true.

(** [copyOf] copies every field into a new object. *)
Definition copyOf (s : State) : State :=
  mkState (pageSize s) (searchTerm s) (page s) (displayList s) (count s)
          (error s) (initial s).

Definition errorState : State :=
  mkState (pageSize newState) (searchTerm newState) (page newState)
          (displayList newState) (count newState) true false.

Definition pagesCount (s : State) : Js.number :=
  Js.ceil_div (Js.num (count s)) (pageSize s).

Definition portionsCount (s : State) : Z :=
  - ((- Js.num (count s)) / 10).

Definition begIndex (s : State) : option Z :=
  if Js.eq0 (count s) then None
  else Some (pageSize s * (Js.num (page s) - 1)).

Definition endIndex (s : State) : option Z :=
  if Js.eq0 (count s) then None
  else Some (Z.min (pageSize s * Js.num (page s)) (Js.num (count s))).

Definition begPortionIndex (s : State) : option Z :=
  if Js.eq0 (count s) then None
  else b ← begIndex s; Some (b / 10 + 1).

Definition endPortionIndex (s : State) : option Z :=
  if Js.eq0 (count s) then None
  else e ← endIndex s; Some ((e - 1) / 10 + 1).

(** *** planets.service.ts (first generation) *)

(** The observable [http.get(url).pipe(shareReplay(1), catchError(..))]
    that the service keeps per page: the request it stands for, and the
    rank of its creation, which tells two observables for one url apart. *)
Record PortionObservable := mkObservable {
  rank : nat;
  url_page : Z;
  url_search : option string
}.

Record PlanetsService := mkPlanetsService {
  lastSearched : option string;
  planetsPortionsCache : gmap Z PortionObservable;
  created : list Request
}.

Definition newPlanetsService : PlanetsService :=
  mkPlanetsService (Some "") ∅ [].

Definition getPlanetsPortion (page : Z) (search : option string)
    (svc : PlanetsService) : PortionObservable * PlanetsService :=
  let svc :=
    if decide (search = lastSearched svc) then svc
    else mkPlanetsService search ∅ (created svc) in
  match planetsPortionsCache svc !! page with
  | Some obs => (obs, svc)
  | None =>
      let obs := mkObservable (length (created svc)) page search in
      (obs,
       mkPlanetsService (lastSearched svc)
                        (<[page := obs]> (planetsPortionsCache svc))
                        (created svc ++ [(page, search)]))
  end.

(** The [catchError] of a cached observable: the entry of its page goes. *)
Definition requestFailed (obs : PortionObservable) (svc : PlanetsService)
  : PlanetsService :=
  mkPlanetsService (lastSearched svc)
                   (delete (url_page obs) (planetsPortionsCache svc))
                   (created svc).

(** The calls of the loop [for (i = beg; i <= end; i++)], in order. *)
Fixpoint getPlanetsPortions (idxs : list Z) (search : option string)
    (svc : PlanetsService) : list PortionObservable * PlanetsService :=
  match idxs with
  | [] => ([], svc)
  | i :: rest =>
      let '(obs, svc) := getPlanetsPortion i search svc in
      let '(more, svc) := getPlanetsPortions rest search svc in
      (obs :: more, svc)
  end.

(** *** The action methods of State *)

(** The observables of new states: [of(s)]; the pipe of [searchAction]
    waiting for portion 1; the [forkJoin] of the portions of a page;
    and [forkJoin] of nothing, which completes without a value. *)
Inductive Obs :=
| Of (s : State)
| AwaitFirst (newState : State) (first : PortionObservable)
| ForkJoin (this : State) (portionObservables : list PortionObservable)
| Empty.

Definition makeCompleteNewStateObservable (this : State)
    (svc : PlanetsService) : Obs * PlanetsService :=
  let this := mkState (pageSize this) (searchTerm this) (page this)
                      (Some []) (count this) (error this) (initial this) in
  if Js.eq0 (count this) then (Of this, svc)
  else
    match begPortionIndex this, endPortionIndex this with
    | Some b, Some e =>
        let '(portionObservables, svc) :=
          getPlanetsPortions (seqZ b (e - b + 1)) (searchTerm this) svc in
        match portionObservables with
        | [] => (Empty, svc)
        | _ => (ForkJoin this portionObservables, svc)
        end
    | _, _ => (Of this, svc)
    end.

(** The [map] callback of the join: concatenate and slice. *)
Definition joined (this : State) (portions : list PlanetsPortion) : Obs :=
  match begPortionIndex this, begIndex this, endIndex this with
  | Some b, Some bi, Some ei =>
      let shift := 10 * (b - 1) in
      Of (mkState (pageSize this) (searchTerm this) (page this)
                  (Some (Js.slice (concat (results <$> portions))
                                  (bi - shift) (ei - shift)))
                  (count this) (error this) (initial this))
  | _, _, _ => Of errorState
  end.

Definition searchAction (this : State) (term : string)
    (svc : PlanetsService) : Obs * PlanetsService :=
  let newState := mkState (pageSize this) (Some term) (Some 1)
                          (displayList this) (count this) false false in
  let '(first, svc) := getPlanetsPortion 1 (Some term) svc in
  (AwaitFirst newState first, svc).

(** The [mergeMap] / [catchError] pair of [searchAction]. *)
Definition searchReply (newState : State) (r : option PlanetsPortion)
    (svc : PlanetsService) : Obs * PlanetsService :=
  match r with
  | None => (Of errorState, svc)
  | Some portion =>
      makeCompleteNewStateObservable
        (mkState (pageSize newState) (searchTerm newState) (page newState)
                 (displayList newState) (Some (portion_count portion))
                 (error newState) (initial newState))
        svc
  end.

Definition newPageAction (this : State) (page : Z) (svc : PlanetsService)
  : Obs * PlanetsService :=
  if error this || initial this then (Of errorState, svc)
  else
    let page := if Js.gt page (pagesCount this) then 1 else page in
    makeCompleteNewStateObservable
      (mkState (pageSize this) (searchTerm this) (Some page)
               (displayList this) (count this) (error this) (initial this))
      svc.

Definition changePageSizeAction (this : State) (pageSize : Z)
    (svc : PlanetsService) : Obs * PlanetsService :=
  if error this || initial this then (Of errorState, svc)
  else
    makeCompleteNewStateObservable
      (mkState pageSize (searchTerm this) (Some 1)
               (displayList this) (count this) (error this) (initial this))
      svc.

(** *** planets-store.service.ts (first generation) *)

(** The store only relays: the observables handed to [update] are opaque
    to it, so what they emit is an input.  [switchMap] numbers them. *)
Inductive Source :=
| Constructor
| Updated (k : nat).

Inductive Origin :=
| Initial
| From (src : Source).

Record PlanetsStoreService := mkStore {
  state_log : list (Origin * State);
  booting : bool;
  listening : bool;
  index : nat;
  inner : option nat
}.

Definition construct : PlanetsStoreService :=
  mkStore [(Initial, newState)] true false 0 None.

Inductive Input :=
| Update
| Emits (src : Source) (s : State)
| Completes (src : Source).

Definition step (st : PlanetsStoreService) (x : Input)
  : PlanetsStoreService :=
  match x with
  | Update =>
      if listening st
      then mkStore (state_log st) (booting st) true (S (index st))
                   (Some (index st))
      else st
  | Emits Constructor s =>
      if booting st
      then mkStore (state_log st ++ [(From Constructor, s)]) false true
                   (index st) (inner st)
      else st
  | Emits (Updated k) s =>
      if decide (inner st = Some k)
      then mkStore (state_log st ++ [(From (Updated k), s)]) (booting st)
                   (listening st) (index st) (inner st)
      else st
  | Completes Constructor =>
      mkStore (state_log st) false (listening st) (index st) (inner st)
  | Completes (Updated k) =>
      if decide (inner st = Some k)
      then mkStore (state_log st) (booting st) (listening st) (index st) None
      else st
  end.

Definition run (st : PlanetsStoreService) (tr : list Input)
  : PlanetsStoreService :=
  foldl step st tr.

(** *** Predicates used in the properties *)

(** Every cached observable asks for its own page of the last term. *)
Definition cache_of_last_term (svc : PlanetsService) : Prop :=
  ∀ pg obs, planetsPortionsCache svc !! pg = Some obs →
            url_page obs = pg ∧ url_search obs = lastSearched svc.

(** The bookkeeping of [switchMap]: the observable subscribed to is the
    last one handed to [update]. *)
Definition switching (st : PlanetsStoreService) : Prop :=
  (∀ k, inner st = Some k → S k = index st ∧ listening st = true) ∧
  (booting st = true → listening st = false).

(** The [k]-th observable has been superseded without having emitted. *)
Definition superseded (k : nat) (st : PlanetsStoreService) : Prop :=
  (S k < index st)%nat ∧ ∀ s, (From (Updated k), s) ∉ state_log st.

End Legacy.

(** ** Scenarios *)

Module Scenario.
Import Store.

Definition planets (n : nat) (name : string) : list Planet :=
  replicate n (mkPlanet name).

Definition reply (c : Z) (n : nat) : option PlanetsPortion :=
  Some (mkPortion c (planets n "p")).

(** Twenty-three planets, ten per page, on page 2, with only portion 1
    memoized. *)
Definition page2_of_23 : State :=
  mkState 10 (Some "") (Some 2) (Some 23) false false
          {[ 1 := replicate 10 (mkPlanet "p") ]}.

(** A search without results. *)
Definition nothing_found : State :=
  mkState 25 (Some "zz") (Some 1) (Some 0) false false ∅.

(** Sixty planets for the empty term: the first page of 25 needs the
    portions 1, 2 and 3. *)
Definition boot60 : list Input :=
  [Response Boot 1 (reply 60 10);
   Response Boot 2 (reply 60 10);
   Response Boot 3 (reply 60 10)].

Definition first60 : State :=
  mkState 25 (Some "") (Some 1) (Some 60) false false
          (<[3 := planets 10 "p"]>
             (<[2 := planets 10 "p"]> {[ 1 := planets 10 "p" ]})).

(** What page 2 would have looked like, had it been resolved. *)
Definition second60 : State :=
  mkState 25 (Some "") (Some 2) (Some 60) false false
          (<[5 := planets 10 "p"]>
             (<[4 := planets 10 "p"]> (memoizedPortions first60))).

(** [GoToPage(2)] then [GoToPage(3)] before the first resolves; the
    replies for page 2 arrive late. *)
Definition goto2 : list Input := boot60 ++ [Dispatch (newPage 2 first60)].

Definition goto3_and_replies : list Input :=
  [Response (Inner 0) 4 (reply 60 10);
   Response (Inner 1) 6 (reply 60 10);
   Response (Inner 0) 5 (reply 60 10)].

(** The first search failed: the service listens and holds the error
    state. *)
Definition failed_boot : PlanetsStoreService :=
  run construct [Response Boot 1 None].

(** Five planets, shown ten per page. *)
Definition five_by_ten : State :=
  mkState 10 (Some "") (Some 1) (Some 5) false false
          {[ 1 := planets 5 "p" ]}.

Definition resized : list Input :=
  [Response Boot 1 (reply 5 5);
   Dispatch (changePageSize 10
               (mkState 25 (Some "") (Some 1) (Some 5) false false
                        {[ 1 := planets 5 "p" ]}))].

(** A search for "x" has replaced the results of the empty term, and a
    caller still holds the state of the empty term. *)
Definition three_for_x : State :=
  mkState 25 (Some "x") (Some 1) (Some 3) false false
          {[ 1 := planets 3 "p" ]}.

Definition searched_x : list Input :=
  boot60 ++ [Dispatch (search "x" first60); Response (Inner 0) 1 (reply 3 3)].

(** A server with one planet per term, named after the term. *)
Definition named (term : option string) (i : Z) : list Planet :=
  [mkPlanet (default "null" term)].

Definition one_unnamed : State :=
  mkState 25 (Some "") (Some 1) (Some 1) false false {[ 1 := [mkPlanet ""] ]}.

Definition one_named_a : State :=
  mkState 25 (Some "a") (Some 1) (Some 1) false false {[ 1 := [mkPlanet "a"] ]}.

Definition search_a : list Input :=
  [Response Boot 1 (Some (mkPortion 1 [mkPlanet ""]));
   Dispatch (search "a" one_unnamed);
   Response (Inner 0) 1 (Some (mkPortion 1 [mkPlanet "a"]))].

End Scenario.

(** ** Further notions: the results behind the portions *)

Module Results.
Import Store.

(** The [i]-th server-side page of the full list of results of a term: ten
    results, fewer at the end, none beyond. *)
Definition portion_of (all : list Planet) (i : Z) : list Planet :=
  take 10 (drop (Z.to_nat (10 * (i - 1))) all).

(** The results from index [bi] up to, not including, index [ei]. *)
Definition segment (all : list Planet) (bi ei : Z) : list Planet :=
  take (Z.to_nat (ei - bi)) (drop (Z.to_nat bi) all).

End Results.

(** ** Further notions: what an action leaves as it was *)

Module Browsing.
Import Store.

(** Successful replies, each for a portion index. *)
Definition successes (rs : list (Z * PlanetsPortion))
  : list (Z * option PlanetsPortion) :=
  (λ ir, (ir.1, Some ir.2)) <$> rs.

(** The results they bring, by portion index. *)
Definition brought (rs : list (Z * PlanetsPortion)) : gmap Z (list Planet) :=
  list_to_map ((λ ir, (ir.1, results ir.2)) <$> rs).

(** [s'] has the fields of [s] and all its memoized portions. *)
Definition extends (s s' : State) : Prop :=
  pageSize s' = pageSize s ∧ searchTerm s' = searchTerm s ∧
  page s' = page s ∧ count s' = count s ∧
  error s' = error s ∧ initial s' = initial s ∧
  ∀ i l, memoizedPortions s !! i = Some l → memoizedPortions s' !! i = Some l.

(** The observable is resolving [s]: it can only emit the error state or
    a state that extends [s]. *)
Definition framed (s : State) (o : Obs) : Prop :=
  match o with
  | Of s' => s' = errState ∨ extends s s'
  | AwaitFirst _ _ => False
  | ForkJoin base idxs _ =>
      extends s base ∧ ∀ i, i ∈ idxs → memoizedPortions base !! i = None
  end.

(** The callers dispatch only states that the service has published. *)
Fixpoint echoing (svc : PlanetsStoreService) (tr : list Input) : Prop :=
  match tr with
  | [] => True
  | x :: tr' =>
      match x with
      | Dispatch ev => event_state ev ∈ (state_log svc).*2
      | Response _ _ _ => True
      end ∧ echoing (step svc x) tr'
  end.

End Browsing.

(** ** Further notions: the use of the first-generation service *)

Module Calls.
Import Legacy.

(** What happens to the portion cache of the service: a call of
    [getPlanetsPortion], or the failure of an observable it returned. *)
Inductive Call :=
| Get (page : Z) (search : option string)
| Fails (obs : PortionObservable).

Definition serve (svc : PlanetsService) (c : Call) : PlanetsService :=
  match c with
  | Get page search => (getPlanetsPortion page search svc).2
  | Fails obs => requestFailed obs svc
  end.

Definition served (calls : list Call) : PlanetsService :=
  foldl serve newPlanetsService calls.

(** Every cached observable was created before now. *)
Definition ranked (svc : PlanetsService) : Prop :=
  ∀ pg obs, planetsPortionsCache svc !! pg = Some obs →
            (rank obs < length (created svc))%nat.

End Calls.

(** ** JavaScript strings used by the components *)

(** A string is the sequence of its code units. *)
Module JsString.
Import Stdlib.Strings.Ascii.

Definition slash : Ascii.ascii := "/"%char.

Definition units (s : string) : list Ascii.ascii :=
  String.list_ascii_of_string s.

(** [s.substring(start, end)]: both arguments are clamped to the string
    and swapped when out of order. *)
Definition substring (s : string) (start fin : Z) : string :=
  let len := Z.of_nat (length (units s)) in
  let a := Z.max 0 (Z.min start len) in
  let b := Z.max 0 (Z.min fin len) in
  String.string_of_list_ascii
    (take (Z.to_nat (Z.max a b - Z.min a b))
          (drop (Z.to_nat (Z.min a b)) (units s))).

(** [s.substring(start)]. *)
Definition substring_from (s : string) (start : Z) : string :=
  substring s start (Z.of_nat (length (units s))).

(** [s.lastIndexOf(c)] for a needle of one unit: [-1] when absent. *)
Fixpoint last_index (c : Ascii.ascii) (l : list Ascii.ascii) : Z :=
  match l with
  | [] => -1
  | a :: rest =>
      let r := last_index c rest in
      if 0 <=? r then r + 1 else if bool_decide (a = c) then 0 else -1
  end.

Definition lastIndexOf (s : string) (c : Ascii.ascii) : Z :=
  last_index c (units s).

End JsString.

(** ** The planets of the details page *)

(** [getPlanet] is the same in both generations of [PlanetsService]. *)
Module Items.

Definition baseUrl : string := "http://0.0.0.0:8080/api/planets/".

(** The observable [http.get(url).pipe(shareReplay(1), catchError(..))]:
    its url, the id its [catchError] deletes, and the rank of its
    creation. *)
Record PlanetObservable := mkPlanetObservable {
  planet_rank : nat;
  planet_id : string;
  planet_url : string
}.

(** [planetsCache] is an object literal: besides its own entries it has
    the properties of [Object.prototype], each a function or an object,
    hence truthy. *)
Definition Object_prototype : list string :=
  ["constructor"; "hasOwnProperty"; "isPrototypeOf"; "propertyIsEnumerable";
   "toLocaleString"; "toString"; "valueOf"; "__proto__";
   "__defineGetter__"; "__defineSetter__";
   "__lookupGetter__"; "__lookupSetter__"].

Record PlanetsService := mkPlanetsService {
  planetsCache : gmap string PlanetObservable;
  created : list string
}.

Definition newPlanetsService : PlanetsService := mkPlanetsService ∅ [].

(** What [getPlanet] returns: an observable of the cache, or the value
    of an inherited property. *)
Inductive Found :=
| Observable (o : PlanetObservable)
| Inherited (name : string).

Definition getPlanet (id : string) (svc : PlanetsService)
  : Found * PlanetsService :=
  let url := baseUrl +:+ id in
  match planetsCache svc !! id with
  | Some o => (Observable o, svc)
  | None =>
      if bool_decide (id ∈ Object_prototype) then (Inherited id, svc)
      else
        let o := mkPlanetObservable (length (created svc)) id url in
        (Observable o,
         mkPlanetsService (<[id := o]> (planetsCache svc))
                          (created svc ++ [url]))
  end.

(** The [catchError] of a cached observable. *)
Definition requestFailed (o : PlanetObservable) (svc : PlanetsService)
  : PlanetsService :=
  mkPlanetsService (delete (planet_id o) (planetsCache svc)) (created svc).

Inductive Call :=
| Get (id : string)
| Fails (o : PlanetObservable).

Definition serve (svc : PlanetsService) (c : Call) : PlanetsService :=
  match c with
  | Get id => (getPlanet id svc).2
  | Fails o => requestFailed o svc
  end.

Definition served (calls : list Call) : PlanetsService :=
  foldl serve newPlanetsService calls.

(** Every entry of the cache is an observable created for its key, and
    no key is the name of an inherited property. *)
Definition own (svc : PlanetsService) : Prop :=
  ∀ id o, planetsCache svc !! id = Some o →
          planet_id o = id ∧ planet_url o = baseUrl +:+ id ∧
          (planet_rank o < length (created svc))%nat ∧
          id ∉ Object_prototype.

End Items.

(** ** The components *)

(** *** results.component.ts *)

Module ResultsPage.
Import Store.

(** The fields of the component; all but [componentState] are
    [undefined] until the subscriber assigns them. *)
Record ResultsComponent := mkResults {
  componentState : string;
  state : option State;
  planetList : option (list Planet);
  pagesCount : option Js.number;
  pagesInterval : option (list Z);
  title : option string
}.

Definition created : ResultsComponent :=
  mkResults "initialLoading" None None None None None.

(** [updateTitle]; a [null] term is spelled out by the concatenation. *)
Definition updateTitle (this : ResultsComponent) : option ResultsComponent :=
  s ← state this;
  let term := default "null" (searchTerm s) in
  let t :=
    if bool_decide (searchTerm s = Some "") then "All results"
    else if 0 <? Js.num (count s) then "Results for: " +:+ term
    else "No results for: " +:+ term in
  Some (mkResults (componentState this) (state this) (planetList this)
                  (pagesCount this) (pagesInterval this) (Some t)).

(** [Math.min(a, n)]. *)
Definition min_number (a : Z) (n : Js.number) : Js.number :=
  match n with
  | Js.Fin z => Js.Fin (Z.min a z)
  | Js.PosInf => Js.Fin a
  | Js.NegInf => Js.NegInf
  | Js.NaN => Js.NaN
  end.

(** [updatePagesInterval]: [new Array(pagesIntervalSize)] throws unless
    the size is an array length, and so for a size that is not finite. *)
Definition updatePagesInterval (this : ResultsComponent)
  : option ResultsComponent :=
  s ← state this;
  n ← pagesCount this;
  let pagesIntervalBeg := Z.max (Js.num (page s) - 3) 1 in
  match min_number (Js.num (page s) + 3) n with
  | Js.Fin pagesIntervalEnd =>
      let pagesIntervalSize := pagesIntervalEnd - pagesIntervalBeg + 1 in
      if Js.array_length_ok pagesIntervalSize then
        Some (mkResults (componentState this) (state this) (planetList this)
                (pagesCount this)
                (Some ((λ i, i + pagesIntervalBeg) <$> seqZ 0 pagesIntervalSize))
                (title this))
      else None
  | _ => None
  end.

(** The subscriber of [ngOnInit], run on a value of [state$]; [None] when
    it throws. *)
Definition next (s : State) (this : ResultsComponent)
  : option ResultsComponent :=
  if error s then
    Some (mkResults "error" (Some s) (planetList this) (pagesCount this)
                    (pagesInterval this) (title this))
  else if initial s then
    Some (mkResults (componentState this) (Some s) (planetList this)
                    (pagesCount this) (pagesInterval this) (title this))
  else
    l ← Store.planetList s;
    this ← updateTitle
             (mkResults "ready" (Some s) (Some l) (Some (Store.pagesCount s))
                        (pagesInterval this) (title this));
    updatePagesInterval this.

(** [search] and [newPage]: the event handed to the service carries the
    state the component holds ([None]: it holds none yet). *)
Definition search (value : string) (this : ResultsComponent) : option Event :=
  s ← state this; Some (Store.search value s).

Definition newPage (page : Z) (this : ResultsComponent) : option Event :=
  s ← state this; Some (Store.newPage page s).

(** [goToDetailsPage]: the id handed to the router. *)
Definition goToDetailsPage (planet : Planet) : string :=
  let cut :=
    JsString.substring (url planet) 0
      (Z.of_nat (length (JsString.units (url planet))) - 1) in
  let index := JsString.lastIndexOf cut JsString.slash in
  JsString.substring_from cut (index + 1).

End ResultsPage.

(** *** settings.component.ts *)

Module SettingsPanel.
Import Store.

Record SettingsComponent := mkSettings { state : option State }.

Definition created : SettingsComponent := mkSettings None.

Definition availablePageSizes : list Z := [5; 10; 25; 100].

Definition next (s : State) (this : SettingsComponent) : SettingsComponent :=
  mkSettings (Some s).

Definition changePageSize (pageSize : Z) (this : SettingsComponent)
  : option Event :=
  s ← state this; Some (Store.changePageSize pageSize s).

(** [save]: [newPageSize] is the number that the value of the select
    element spells; the outer [None] is the [TypeError] of reading
    [pageSize] of no state, the inner one no call of the service. *)
Definition save (newPageSize : Z) (this : SettingsComponent)
  : option (option Event) :=
  s ← state this;
  if bool_decide (newPageSize ≠ pageSize s)
  then Some (changePageSize newPageSize this)
  else Some None.

End SettingsPanel.

(** *** The service and the components that subscribe to it *)

Module App.
Import Store.

Record App := mkApp {
  store : PlanetsStoreService;
  resultsComponent : option ResultsPage.ResultsComponent;
  settingsComponent : option SettingsPanel.SettingsComponent
}.

(** The components come and go with the views; the user acts through the
    components on screen; the transport answers the service. *)
Inductive Input :=
| ShowResults
| HideResults
| ShowSettings
| HideSettings
| Searches (value : string)
| Turns (page : Z)
| Saves (newPageSize : Z)
| Transport (sub : Subscription) (i : Z) (r : option PlanetsPortion).

(** [state$.next(s)] reaching the subscribers. *)
Definition deliver (s : State) (app : App) : option App :=
  r ← match resultsComponent app with
      | Some c => Some <$> ResultsPage.next s c
      | None => Some None
      end;
  Some (mkApp (store app) r (SettingsPanel.next s <$> settingsComponent app)).

(** The service has moved from [store app] to [svc']: the states it
    published on the way reach the subscribers, in order. *)
Definition settle (app : App) (svc' : PlanetsStoreService) : option App :=
  foldl (λ a s, a ≫= deliver s)
        (Some (mkApp svc' (resultsComponent app) (settingsComponent app)))
        (snd <$> drop (length (state_log (store app))) (state_log svc')).

Definition emit (app : App) (ev : option Event) : option App :=
  match ev with
  | Some ev => settle app (Store.step (store app) (Dispatch ev))
  | None => Some app
  end.

(** [None]: a callback has thrown.  A component subscribes in [ngOnInit]
    and [state$], a [BehaviorSubject], hands it the current state at
    once. *)
Definition step (app : App) (x : Input) : option App :=
  match x with
  | ShowResults =>
      s ← current (store app);
      c ← ResultsPage.next s ResultsPage.created;
      Some (mkApp (store app) (Some c) (settingsComponent app))
  | HideResults => Some (mkApp (store app) None (settingsComponent app))
  | ShowSettings =>
      s ← current (store app);
      Some (mkApp (store app) (resultsComponent app)
                  (Some (SettingsPanel.next s SettingsPanel.created)))
  | HideSettings => Some (mkApp (store app) (resultsComponent app) None)
  | Searches value =>
      match resultsComponent app with
      | Some c => ev ← ResultsPage.search value c; emit app (Some ev)
      | None => Some app
      end
  | Turns page =>
      match resultsComponent app with
      | Some c => ev ← ResultsPage.newPage page c; emit app (Some ev)
      | None => Some app
      end
  | Saves newPageSize =>
      match settingsComponent app with
      | Some c => ev ← SettingsPanel.save newPageSize c; emit app ev
      | None => Some app
      end
  | Transport sub i r =>
      settle app (Store.step (store app) (Response sub i r))
  end.

Definition start : App := mkApp construct None None.

Definition run (tr : list Input) : option App :=
  foldl (λ a x, a ≫= λ app, step app x) (Some start) tr.

(** The inputs the transport and the templates are trusted with: a page
    from 1 on, a positive page size, a count that is not negative. *)
Definition polite (x : Input) : Prop :=
  match x with
  | Turns page => 1 ≤ page
  | Saves newPageSize => 0 < newPageSize
  | Transport _ _ (Some portion) => 0 ≤ portion_count portion
  | _ => True
  end.

(** What the numbers of a state are when it is neither flagged nor out
    of range. *)
Definition paged (s : State) : Prop :=
  0 < pageSize s ∧
  (error s = false → initial s = false →
   ∃ pg c, page s = Some pg ∧ count s = Some c ∧ 0 ≤ c ∧ 1 ≤ pg ∧
           (Js.gt pg (Store.pagesCount s) = false ∨ pg = 1)).

Definition paging (o : Obs) : Prop :=
  match o with
  | Of s => paged s
  | AwaitFirst st _ => 0 < pageSize st
  | ForkJoin base _ _ => paged base
  end.

(** The payloads [polite] inputs give to the events. *)
Definition mannered (ev : Event) : Prop :=
  match ev with
  | Store.search _ _ => True
  | Store.newPage page _ => 1 ≤ page
  | Store.changePageSize pageSize _ => 0 < pageSize
  end.

Definition counted (r : option PlanetsPortion) : Prop :=
  ∀ portion, r = Some portion → 0 ≤ portion_count portion.

(** What the service keeps of its states and of its observables while
    the inputs are polite. *)
Definition kept (s : State) : Prop :=
  well_kept s ∧ publishable s ∧ paged s.

Definition keeps (o : Obs) : Prop :=
  keeping o ∧ resolving o ∧ paging o.

(** What the results page shows of the state [s]. *)
Definition shows (c : ResultsPage.ResultsComponent) (s : State) : Prop :=
  ResultsPage.state c = Some s ∧
  (error s = true → ResultsPage.componentState c = "error") ∧
  (error s = false → initial s = false →
   ResultsPage.componentState c = "ready" ∧
   ResultsPage.pagesCount c = Some (Store.pagesCount s) ∧
   (∃ l, Store.planetList s = Some l ∧ ResultsPage.planetList c = Some l ∧
         Z.of_nat (length l) ≤ pageSize s) ∧
   (∃ iv, ResultsPage.pagesInterval c = Some iv ∧
          (length iv ≤ 7)%nat ∧
          (∀ p, p ∈ iv → 1 ≤ p ∧ Js.gt p (Store.pagesCount s) = false) ∧
          (∀ pg, page s = Some pg → Js.gt pg (Store.pagesCount s) = false →
                 pg ∈ iv))).

Definition sound (app : App) : Prop :=
  invariant kept keeps (store app) ∧
  settled (store app) ∧
  is_Some (current (store app)) ∧
  (∀ c, resultsComponent app = Some c →
        ∃ s, current (store app) = Some s ∧ shows c s) ∧
  (∀ c, settingsComponent app = Some c →
        SettingsPanel.state c = current (store app)).

End App.

(** *** The application over a server *)

Module Served.
Import Store Results App.

(** The server pages the results [all term] of each term by ten. *)
Definition server_of (all : option string → list Planet)
  : option string → Z → list Planet :=
  λ term i, portion_of (all term) i.

(** A reply that succeeds carries the portion asked for and, where the
    service reads it, the number of results of the term. *)
Definition truthful (all : option string → list Planet)
    (o : Obs) (i : Z) (r : option PlanetsPortion) : Prop :=
  ∀ portion, r = Some portion →
    match o with
    | Of _ => True
    | AwaitFirst _ term =>
        portion_count portion = Z.of_nat (length (all (Some term))) ∧
        results portion = portion_of (all (Some term)) i
    | ForkJoin base _ _ =>
        results portion = portion_of (all (searchTerm base)) i
    end.

(** The count of a state that is not flagged is the number of results of
    its term. *)
Definition numbered (all : option string → list Planet) (s : State) : Prop :=
  error s = false → initial s = false →
  count s = Some (Z.of_nat (length (all (searchTerm s)))).

Definition faithful (all : option string → list Planet) (s : State) : Prop :=
  coherent (server_of all) s ∧ numbered all s.

Definition numbered_obs (all : option string → list Planet) (o : Obs)
  : Prop :=
  match o with
  | Of s => numbered all s
  | AwaitFirst _ _ => True
  | ForkJoin base _ _ => numbered all base
  end.

Definition faithful_obs (all : option string → list Planet) (o : Obs)
  : Prop :=
  coherent_obs (server_of all) o ∧ numbered_obs all o.

Definition answered (all : option string → list Planet) (app : App)
    (x : App.Input) : Prop :=
  polite x ∧
  match x with
  | Transport sub i r =>
      admissible (λ _, True) (truthful all) (store app) (Response sub i r)
  | _ => True
  end.

(** A run in which every input is polite and every reply truthful. *)
Fixpoint served_by (all : option string → list Planet) (app : App)
    (tr : list App.Input) : Prop :=
  match tr with
  | [] => True
  | x :: tr' =>
      answered all app x ∧
      match App.step app x with
      | Some app' => served_by all app' tr'
      | None => True
      end
  end.

End Served.

(** ** Properties of the current engine *)

(** *** The transition function and its rules *)

Section StepRules.
Import Store.

Lemma step_Step (svc : PlanetsStoreService) (x : Input) :
  Step svc x (step svc x).
Proof.
  destruct x as [ev | [|k] i r]; simpl.
  - destruct (listening svc) eqn:Hl; [|by constructor].
    destruct (project ev) as [[o reqs]|] eqn:Hp; [|by constructor].
    destruct o; by constructor.
  - destruct (boot svc) as [o|] eqn:Hb; [|by constructor].
    destruct (respond o i r) as [o' reqs] eqn:Hr.
    destruct o'; by econstructor.
  - destruct (inner svc) as [[k' o]|] eqn:Hi.
    + destruct (decide (k = k')) as [->|Hne].
      * destruct (respond o i r) as [o' reqs] eqn:Hr.
        destruct o'; by econstructor.
      * constructor. rewrite Hi. congruence.
    + constructor. by rewrite Hi.
Qed.

Lemma step_inner_done (svc : PlanetsStoreService) (k : nat) (o : Obs)
    (i : Z) (r : option PlanetsPortion) (s : State) (reqs : list Request) :
  inner svc = Some (k, o) → respond o i r = (Of s, reqs) →
  step svc (Response (Inner k) i r) =
    mkService (state_log svc ++ [(FromEvent k, s)]) (boot svc)
              (listening svc) (index svc) None (http svc ++ reqs).
Proof. intros Hi Hr. unfold step. by rewrite Hi, decide_True, Hr. Qed.

Lemma step_inner_waits (svc : PlanetsStoreService) (k : nat) (o o' : Obs)
    (i : Z) (r : option PlanetsPortion) (reqs : list Request) :
  inner svc = Some (k, o) → respond o i r = (o', reqs) → waits o' →
  step svc (Response (Inner k) i r) =
    mkService (state_log svc) (boot svc) (listening svc) (index svc)
              (Some (k, o')) (http svc ++ reqs).
Proof.
  intros Hi Hr Hw. unfold step. rewrite Hi, decide_True, Hr by done.
  destruct o'; [by destruct (Hw s)|done..].
Qed.

Lemma run_app (svc : PlanetsStoreService) (tr1 tr2 : list Input) :
  run svc (tr1 ++ tr2) = run (run svc tr1) tr2.
Proof. apply foldl_app. Qed.

Lemma run_cons (svc : PlanetsStoreService) (x : Input) (tr : list Input) :
  run svc (x :: tr) = run (step svc x) tr.
Proof. reflexivity. Qed.

Lemma run_snoc (svc : PlanetsStoreService) (tr : list Input) (x : Input) :
  run svc (tr ++ [x]) = step (run svc tr) x.
Proof. by rewrite run_app. Qed.

End StepRules.

(** *** Invariants of the service, in general *)

Section Invariant.
Import Store.

Variables (P : State → Prop) (Q : Obs → Prop).
Variables (okEvent : Event → Prop)
          (okReply : Obs → Z → option PlanetsPortion → Prop).

Hypothesis emitted_ok : ∀ s, Q (Of s) → P s.
Hypothesis project_ok :
  ∀ ev o reqs, okEvent ev → project ev = Some (o, reqs) → Q o.
Hypothesis respond_ok :
  ∀ o i r, okReply o i r → Q o → Q (respond o i r).1.

Local Ltac invariant_cases :=
  split_and!; simpl;
  [ intros ? ?; rewrite ?elem_of_app, ?list_elem_of_singleton;
    intros; destruct_or?; simplify_eq; eauto
  | intros; simplify_eq; eauto
  | intros; simplify_eq; eauto ].

Lemma invariant_step (svc : PlanetsStoreService) (x : Input) :
  invariant P Q svc → admissible okEvent okReply svc x →
  invariant P Q (step svc x).
Proof.
  intros Hinv Hx. pose proof Hinv as (Hlog & Hboot & Hinner).
  destruct x as [ev | [|k] i r]; simpl in *.
  - destruct (listening svc); [|done].
    destruct (project ev) as [[o reqs]|] eqn:Hp; [|by split_and!; simpl; eauto].
    pose proof (project_ok _ _ _ Hx Hp) as HQ.
    destruct o; invariant_cases.
  - destruct (boot svc) as [o|] eqn:Hb; [|done].
    pose proof (respond_ok o i r (Hx _ eq_refl) (Hboot _ eq_refl)) as HQ.
    destruct (respond o i r) as [o' reqs]. simpl in HQ.
    destruct o'; invariant_cases.
  - destruct (inner svc) as [[k' o]|] eqn:Hi; [|done].
    destruct (decide (k = k')) as [->|]; [|done].
    pose proof (respond_ok o i r (Hx _ eq_refl) (Hinner _ _ eq_refl)) as HQ.
    destruct (respond o i r) as [o' reqs]. simpl in HQ.
    destruct o'; invariant_cases.
Qed.

Lemma invariant_run (tr : list Input) (svc : PlanetsStoreService) :
  invariant P Q svc → admissible_trace okEvent okReply svc tr →
  invariant P Q (run svc tr).
Proof.
  revert svc. induction tr as [|x tr IH]; intros svc Hinv Htr; [done|].
  destruct Htr as [Hx Htr]. simpl. apply IH; [|done].
  by apply invariant_step.
Qed.

End Invariant.

Section PortionMapping.
Import Store Scenario.

Lemma elem_of_loop_range (b e i : Z) : i ∈ loop_range b e ↔ b ≤ i ≤ e.
Proof. unfold loop_range. rewrite elem_of_seqZ. lia. Qed.

Lemma elem_of_missing (s : State) (b e i : Z) :
  i ∈ missing s b e ↔ b ≤ i ≤ e ∧ memoizedPortions s !! i = None.
Proof.
  unfold missing. rewrite list_elem_of_filter, elem_of_loop_range. tauto.
Qed.

Lemma elem_of_cached (s : State) (b e i : Z) :
  i ∈ cached s b e ↔ b ≤ i ≤ e ∧ is_Some (memoizedPortions s !! i).
Proof.
  unfold cached. rewrite list_elem_of_filter, elem_of_loop_range.
  rewrite not_eq_None_Some. tauto.
Qed.

Lemma makeNewStateObservable_requests (s : State) (b e : Z) :
  begPortionIndex s = Some b → endPortionIndex s = Some e →
  snd (makeNewStateObservable s) = (λ i, (i, searchTerm s)) <$> missing s b e.
Proof.
  intros Hb He. unfold makeNewStateObservable.
  destruct (Js.eq0 (count s)) eqn:E0.
  - unfold begPortionIndex in Hb. rewrite E0 in Hb. discriminate.
  - rewrite Hb, He. simpl. destruct (missing s b e); reflexivity.
Qed.

(** A page within [1 .. pagesCount()] starts before the end of the
    results. *)
Lemma page_starts_inside (c ps pg : Z) :
  0 < c → 0 < ps → 1 ≤ pg →
  Js.gt pg (Js.ceil_div c ps) = false → ps * (pg - 1) < c.
Proof.
  intros Hc Hps Hpg. unfold Js.ceil_div.
  destruct (Z.eqb_spec ps 0) as [->|_]; [lia|]. simpl.
  intros Hgt%Z.ltb_ge.
  pose proof (Z.div_mod (- c) ps ltac:(lia)) as Hdm.
  pose proof (Z.mod_pos_bound (- c) ps Hps) as Hr.
  nia.
Qed.

(** C2 (portion-mapping correctness).  For a state with [count > 0],
    [pageSize > 0] and a page within [1 .. pagesCount()], the accessors
    compute [begIndex = pageSize*(page-1)] and
    [endIndex = min(pageSize*page, count)]; the portion indices the
    engine resolves, those it takes from [memoizedPortions] together with
    those it requests, are exactly the integers of
    [[floor(begIndex/10)+1, floor((endIndex-1)/10)+1]]; the requests sent
    are the missing ones, for the state's term; and that interval is not
    empty and lies within [1 .. portionsCount()]. *)
Theorem portion_mapping (s : State) (c pg : Z) :
  count s = Some c → page s = Some pg →
  0 < c → 0 < pageSize s →
  1 ≤ pg → Js.gt pg (pagesCount s) = false →
  let lo := pageSize s * (pg - 1) / 10 + 1 in
  let hi := (Z.min (pageSize s * pg) c - 1) / 10 + 1 in
  begIndex s = Some (pageSize s * (pg - 1)) ∧
  endIndex s = Some (Z.min (pageSize s * pg) c) ∧
  begPortionIndex s = Some lo ∧
  endPortionIndex s = Some hi ∧
  (∀ i, i ∈ cached s lo hi ++ missing s lo hi ↔ lo ≤ i ≤ hi) ∧
  snd (makeNewStateObservable s) = (λ i, (i, searchTerm s)) <$> missing s lo hi ∧
  1 ≤ lo ≤ hi ∧ hi ≤ portionsCount s.
Proof.
  intros Hc Hp Hc0 Hps Hpg Hle lo hi.
  assert (E0 : Js.eq0 (count s) = false).
  { rewrite Hc. destruct c; done. }
  assert (Hbi : begIndex s = Some (pageSize s * (pg - 1))).
  { unfold begIndex. by rewrite E0, Hp. }
  assert (Hei : endIndex s = Some (Z.min (pageSize s * pg) c)).
  { unfold endIndex. by rewrite E0, Hp, Hc. }
  assert (Hb : begPortionIndex s = Some lo).
  { unfold begPortionIndex. by rewrite E0, Hbi. }
  assert (He : endPortionIndex s = Some hi).
  { unfold endPortionIndex. by rewrite E0, Hei. }
  split_and!; try done.
  - intros i. rewrite elem_of_app, elem_of_cached, elem_of_missing.
    destruct (memoizedPortions s !! i) eqn:E.
    + split; [intros [[? _]|[? _]]; done | intros ?; left; eauto].
    + split; [intros [[? _]|[? _]]; done | intros ?; right; eauto].
  - by apply makeNewStateObservable_requests.
  - pose proof (Z.div_pos (pageSize s * (pg - 1)) 10). subst lo. nia.
  - unfold pagesCount in Hle. rewrite Hc in Hle. simpl in Hle.
    pose proof (page_starts_inside c (pageSize s) pg Hc0 Hps Hpg Hle).
    subst lo hi. apply Z.add_le_mono_r, Z.div_le_mono; lia.
  - subst hi. unfold portionsCount. rewrite Hc. simpl.
    pose proof (Z.div_le_mono (Z.min (pageSize s * pg) c - 1) (c - 1) 10).
    pose proof (Z.div_mod (c - 1) 10).
    pose proof (Z.div_mod (- c) 10).
    pose proof (Z.mod_pos_bound (c - 1) 10).
    pose proof (Z.mod_pos_bound (- c) 10).
    lia.
Qed.

Lemma portion_mapping_witness :
  begPortionIndex page2_of_23 = Some 2 ∧
  endPortionIndex page2_of_23 = Some 2 ∧
  snd (makeNewStateObservable page2_of_23) = [(2, Some "")].
Proof.
  pose proof (portion_mapping page2_of_23 23 2 eq_refl eq_refl
                ltac:(lia) ltac:(simpl; lia) ltac:(lia) eq_refl) as H.
  simpl in H. destruct H as (_ & _ & Hb & He & _ & Hr & _).
  split_and!; [exact Hb | exact He | exact Hr].
Defined.

End PortionMapping.

(** *** Resolve before publish *)

Section ResolveBeforePublish.
Import Store.

Lemma eq0_false_indices (s : State) :
  Js.eq0 (count s) = false →
  ∃ b e bi ei, begPortionIndex s = Some b ∧ endPortionIndex s = Some e ∧
               begIndex s = Some bi ∧ endIndex s = Some ei.
Proof.
  intros E0. unfold begPortionIndex, endPortionIndex, begIndex, endIndex.
  rewrite E0. simpl. eauto 10.
Qed.

Lemma eq0_true_indices (s : State) :
  Js.eq0 (count s) = true → begPortionIndex s = None.
Proof. intros E0. unfold begPortionIndex. by rewrite E0. Qed.

(** The index accessors read [pageSize], [page] and [count] only. *)
Lemma portion_indices_ext (s s' : State) :
  pageSize s' = pageSize s → page s' = page s → count s' = count s →
  begPortionIndex s' = begPortionIndex s ∧
  endPortionIndex s' = endPortionIndex s.
Proof.
  intros Hps Hp Hc.
  unfold begPortionIndex, endPortionIndex, begIndex, endIndex.
  by rewrite Hps, Hp, Hc.
Qed.

Lemma store_portions_fields (idxs : list Z) (arrived : gmap Z (list Planet))
    (base : State) :
  let s := store_portions base idxs arrived in
  pageSize s = pageSize base ∧ searchTerm s = searchTerm base ∧
  page s = page base ∧ count s = count base ∧
  error s = error base ∧ initial s = initial base.
Proof.
  revert base. induction idxs as [|i idxs IH]; intros base; [done|].
  simpl. unfold store_portions in *. simpl.
  destruct (arrived !! i); [|apply IH].
  destruct (IH (set_memoizedPortions
                  (<[i:=l]> (memoizedPortions base)) base))
    as (? & ? & ? & ? & ? & ?).
  by split_and!.
Qed.

Lemma store_portions_keeps (idxs : list Z) (arrived : gmap Z (list Planet))
    (base : State) (i : Z) :
  is_Some (memoizedPortions base !! i) →
  is_Some (memoizedPortions (store_portions base idxs arrived) !! i).
Proof.
  revert base. induction idxs as [|j idxs IH]; intros base Hi; [done|].
  unfold store_portions in *. simpl.
  destruct (arrived !! j); [|by apply IH].
  apply IH. simpl. rewrite lookup_insert. by case_decide.
Qed.

Lemma store_portions_adds (idxs : list Z) (arrived : gmap Z (list Planet))
    (base : State) (i : Z) :
  i ∈ idxs → is_Some (arrived !! i) →
  is_Some (memoizedPortions (store_portions base idxs arrived) !! i).
Proof.
  revert base. induction idxs as [|j idxs IH]; intros base Hi Harr.
  - by apply elem_of_nil in Hi.
  - apply elem_of_cons in Hi as [->|Hi].
    + unfold store_portions. simpl. destruct Harr as [l ->].
      apply (store_portions_keeps idxs arrived). simpl.
      by rewrite lookup_insert_eq.
    + unfold store_portions in *. simpl.
      destruct (arrived !! j); by apply IH.
Qed.

Lemma all_arrived_spec (idxs : list Z) (arrived : gmap Z (list Planet)) :
  all_arrived idxs arrived = true ↔ ∀ i, i ∈ idxs → is_Some (arrived !! i).
Proof.
  unfold all_arrived. rewrite forallb_forall.
  setoid_rewrite bool_decide_eq_true. setoid_rewrite list_elem_of_In. done.
Qed.

Lemma errState_flagged : error errState = true.
Proof. reflexivity. Qed.

Lemma makeNewStateObservable_resolving (base : State) :
  resolving (makeNewStateObservable base).1.
Proof.
  unfold makeNewStateObservable.
  destruct (Js.eq0 (count base)) eqn:E0; simpl.
  { right; right. intros b e i Hb. by rewrite eq0_true_indices in Hb. }
  destruct (eq0_false_indices base E0) as (b & e & _ & _ & Hb & He & _).
  rewrite Hb, He.
  destruct (missing base b e) as [|j idxs] eqn:Hm; simpl.
  - right; right. intros b' e' i Hb' He' Hi.
    assert (b' = b) as -> by congruence.
    assert (e' = e) as -> by congruence.
    destruct (memoizedPortions base !! i) eqn:E; [eauto|].
    assert (i ∈ missing base b e) as Hin by by apply elem_of_missing.
    rewrite Hm in Hin. by apply elem_of_nil in Hin.
  - intros b' e' i Hb' He' Hi.
    assert (b' = b) as -> by congruence.
    assert (e' = e) as -> by congruence.
    destruct (memoizedPortions base !! i) eqn:E; [eauto|].
    right. rewrite <- Hm. by apply elem_of_missing.
Qed.

Lemma respond_resolving (o : Obs) (i : Z) (r : option PlanetsPortion) :
  resolving o → resolving (respond o i r).1.
Proof.
  destruct o as [s | state term | base idxs arrived]; simpl; [done| |].
  - intros _. case_decide; [|done]. unfold search_reply.
    destruct r as [portion|]; [|by left].
    destruct (resetMemoizedPortions _); [|by left].
    apply makeNewStateObservable_resolving.
  - intros Hres. case_decide; [|done].
    destruct r as [portion|]; [|by left].
    destruct (all_arrived _ _) eqn:Hall; [|done]. simpl.
    right; right. intros b e j Hb He Hj.
    destruct (store_portions_fields idxs (<[i:=results portion]> arrived) base)
      as (Hps & _ & Hp & Hc & _).
    destruct (portion_indices_ext _ _ Hps Hp Hc) as [Eb Ee].
    rewrite Eb in Hb. rewrite Ee in He.
    destruct (Hres b e j Hb He Hj) as [Hold|Hnew].
    + by apply store_portions_keeps.
    + apply store_portions_adds; [done|].
      by apply all_arrived_spec with (i := j) in Hall.
Qed.

Lemma project_resolving (ev : Event) (o : Obs) (reqs : list Request) :
  project ev = Some (o, reqs) → resolving o.
Proof.
  unfold project. destruct (copyOf (event_state ev)) as [st|]; [|done].
  simpl. intros [= Hh]. 
  assert (o = (handle ev st).1) as -> by by rewrite Hh.
  destruct ev as [term s | pg s | n s]; simpl; [done| |].
  - unfold __newPage. destruct (error st || initial st); [by left|].
    apply makeNewStateObservable_resolving.
  - unfold __changePageSize. destruct (error st || initial st); [by left|].
    apply makeNewStateObservable_resolving.
Qed.

Lemma construct_resolving :
  invariant (λ s, publishable s) resolving construct.
Proof.
  split_and!; simpl.
  - intros o s Hin. apply list_elem_of_singleton in Hin. simplify_eq.
    by right; left.
  - by intros o [= <-].
  - done.
Qed.

Lemma concat_portions_total (m : gmap Z (list Planet)) (idxs : list Z) :
  (∀ i, i ∈ idxs → is_Some (m !! i)) → is_Some (concat_portions m idxs).
Proof.
  induction idxs as [|i idxs IH]; intros Hall; simpl; [eauto|].
  destruct (Hall i) as [p ->]; [left|]. simpl.
  destruct IH as [l ->]; [|simpl; eauto].
  intros j Hj. apply Hall. by right.
Qed.

Lemma planetList_complete (s : State) :
  complete s → is_Some (planetList s).
Proof.
  intros Hc. unfold planetList.
  destruct (Js.eq0 (count s)) eqn:E0; [eauto|].
  destruct (eq0_false_indices s E0) as (b & e & bi & ei & Hb & He & Hbi & Hei).
  rewrite Hb, He. simpl.
  destruct (concat_portions_total (memoizedPortions s) (loop_range b e))
    as [l ->].
  { intros i Hi%elem_of_loop_range. by apply (Hc b e). }
  simpl. rewrite Hbi, Hei. simpl. eauto.
Qed.

(** C4 (resolve before publish).  Whatever the callers dispatch and the
    transport replies, every value of [state$] with [error] and [initial]
    both false has each portion index of
    [[begPortionIndex(), endPortionIndex()]] in [memoizedPortions], and
    [planetList()] returns on it instead of throwing. *)
Theorem published_state_complete (tr : list Input) (o : Origin) (s : State) :
  (o, s) ∈ state_log (run construct tr) →
  error s = false → initial s = false →
  complete s ∧ is_Some (planetList s).
Proof.
  intros Hin He Hi.
  assert (Hinv : invariant (λ s, publishable s) resolving (run construct tr)).
  { apply invariant_run with (okEvent := λ _, True) (okReply := λ _ _ _, True).
    - done.
    - intros ????. apply project_resolving.
    - intros ????. apply respond_resolving.
    - apply construct_resolving.
    - clear. generalize construct. induction tr; simpl; intros; [done|].
      split; [|done]. by destruct a as [|[]]. }
  destruct Hinv as (Hlog & _).
  destruct (Hlog o s Hin) as [?|[?|Hc]]; [congruence..|].
  split; [done|]. by apply planetList_complete.
Qed.

End ResolveBeforePublish.

(** *** Switch-latest *)

Section SwitchLatest.
Import Store.

Lemma switching_construct : switching construct.
Proof.
  split; simpl; [done|].
  intros k s Hin. apply list_elem_of_singleton in Hin. done.
Qed.

(** Case analysis on where an entry of the extended log comes from, and
    what the invariant knows about the entries and the observable that
    were there before. *)
Local Ltac log_cases :=
  repeat match goal with
    | H : _ ∈ _ ++ _ |- _ => apply elem_of_app in H as [H|H]
    | H : _ ∈ [_] |- _ => apply list_elem_of_singleton in H
    end.

Local Ltac use_switching Hin Hlog :=
  repeat match goal with
    | H : inner _ = Some (_, _) |- _ =>
        lazymatch goal with
        | _ : _ ∧ listening _ = true |- _ => fail
        | _ => pose proof (Hin _ _ H)
        end
    | H : (FromEvent _, _) ∈ state_log _ |- _ =>
        pose proof (Hlog _ _ H); clear H
    end.

Lemma switching_step (svc : PlanetsStoreService) (x : Input) :
  switching svc → switching (step svc x).
Proof.
  intros Hsw. pose proof Hsw as [Hin Hlog].
  destruct (step_Step svc x); try done; split; simpl;
    intros; log_cases; simplify_eq; use_switching Hin Hlog;
    destruct_and?; try split; intros; simplify_eq; eauto with lia.
Qed.

Lemma switching_run (tr : list Input) (svc : PlanetsStoreService) :
  switching svc → switching (run svc tr).
Proof.
  revert svc. induction tr as [|x tr IH]; intros svc Hsw; [done|].
  simpl. by apply IH, switching_step.
Qed.






End SwitchLatest.

(** *** Events before the first search has completed *)

Section FirstSearch.
Import Store.

Lemma copyOf_constructed (s : State) :
  constructed s →
  copyOf s = Some (set_memoizedPortions (spread (memoizedPortions s)) s).
Proof.
  unfold constructed, copyOf, resetMemoizedPortions, portionsCount. simpl.
  intros ->. by destruct s.
Qed.

Lemma copyOf_Some (s st : State) : copyOf s = Some st → constructed s.
Proof.
  unfold constructed, copyOf, resetMemoizedPortions, portionsCount. simpl.
  by destruct (Js.array_length_ok _).
Qed.

Lemma booting_step (svc : PlanetsStoreService) (x : Input) :
  booting svc → booting (step svc x).
Proof.
  unfold booting. intros Hb.
  destruct (step_Step svc x); simpl; try done;
    repeat match goal with H : boot svc = _ |- _ => rewrite H in * end;
    destruct (boot svc); destruct_and?; try done; congruence.
Qed.

Lemma booting_run (tr : list Input) (svc : PlanetsStoreService) :
  booting svc → booting (run svc tr).
Proof.
  revert svc. induction tr as [|x tr IH]; intros svc Hb; [done|].
  rewrite run_cons. by apply IH, booting_step.
Qed.

Lemma booting_construct : booting construct.
Proof. done. Qed.

Lemma pending_search_not_listening (tr : list Input) :
  is_Some (boot (run construct tr)) → listening (run construct tr) = false.
Proof.
  intros [o Ho]. pose proof (booting_run tr _ booting_construct) as Hb.
  unfold booting in Hb. rewrite Ho in Hb. tauto.
Qed.

Lemma settled_step (svc : PlanetsStoreService) (x : Input) :
  (∀ ev, x = Dispatch ev → constructed (event_state ev)) →
  settled svc → settled (step svc x).
Proof.
  unfold settled. intros Hx Hs.
  destruct (step_Step svc x); simpl; try done; eauto.
  - specialize (Hx _ eq_refl). apply copyOf_constructed in Hx.
    unfold project in *. rewrite Hx in *. done.
Qed.

Lemma settled_run (tr : list Input) (svc : PlanetsStoreService) :
  (∀ ev, Dispatch ev ∈ tr → constructed (event_state ev)) →
  settled svc → settled (run svc tr).
Proof.
  revert svc. induction tr as [|x tr IH]; intros svc Htr Hs; [done|].
  rewrite run_cons. apply IH.
  - intros ev Hev. apply Htr. by right.
  - apply settled_step; [|done]. intros ev ->. apply Htr. by left.
Qed.

Lemma dispatch_listening (svc : PlanetsStoreService) (ev : Event)
    (o : Obs) (reqs : list Request) :
  listening svc = true → project ev = Some (o, reqs) →
  let svc' := step svc (Dispatch ev) in
  index svc' = S (index svc) ∧
  http svc' = http svc ++ reqs ∧
  (∀ s, o = Of s →
        state_log svc' = state_log svc ++ [(FromEvent (index svc), s)] ∧
        inner svc' = None) ∧
  (waits o →
   state_log svc' = state_log svc ∧ inner svc' = Some (index svc, o)).
Proof.
  intros Hl Hp. simpl. rewrite Hl, Hp.
  destruct o; simpl; (split_and!; [done|done| |]);
    try (intros ? [= <-]; done); try done;
    intros Hw; by destruct (Hw s).
Qed.

(** C10 (events before the first search completes).  While the search of
    the constructor is in flight, a dispatched event leaves the service
    exactly as it was: nothing is published or requested for it, then or
    later, since the run continues as if it had not been dispatched.
    When the reply completes that search the service starts listening;
    from then on, as long as the events carry states that can be copied,
    an event is projected and switched to: it takes the next index, its
    requests are sent, and its state is published at once or its
    observable becomes the one in flight. *)
Theorem dropped_before_first_search (tr : list Input) (ev : Event) :
  is_Some (boot (run construct tr)) →
  step (run construct tr) (Dispatch ev) = run construct tr ∧
  (∀ tr', run construct (tr ++ Dispatch ev :: tr') =
          run construct (tr ++ tr')) ∧
  (∀ o i r s reqs,
     boot (run construct tr) = Some o → respond o i r = (Of s, reqs) →
     let svc := step (run construct tr) (Response Boot i r) in
     boot svc = None ∧ listening svc = true ∧
     state_log svc = state_log (run construct tr) ++ [(Constructor, s)]) ∧
  (∀ tr' ev' o reqs,
     (∀ e, Dispatch e ∈ tr' → constructed (event_state e)) →
     boot (run construct tr') = None →
     project ev' = Some (o, reqs) →
     let svc := run construct tr' in
     let svc' := step svc (Dispatch ev') in
     index svc' = S (index svc) ∧
     http svc' = http svc ++ reqs ∧
     (∀ s, o = Of s →
           state_log svc' = state_log svc ++ [(FromEvent (index svc), s)] ∧
           inner svc' = None) ∧
     (waits o →
      state_log svc' = state_log svc ∧ inner svc' = Some (index svc, o))).
Proof.
  intros Hboot.
  assert (Hdrop : step (run construct tr) (Dispatch ev) = run construct tr).
  { simpl. by rewrite pending_search_not_listening. }
  split_and!.
  - done.
  - intros tr'. by rewrite !run_app, run_cons, Hdrop.
  - intros o i r s reqs Ho Hr. simpl. by rewrite Ho, Hr.
  - intros tr' ev' o reqs Htr' Hb Hp.
    apply dispatch_listening; [|done].
    by apply (settled_run tr' construct).
Qed.

End FirstSearch.

(** *** The handlers of page and page-size changes *)

Section Paging.
Import Store.

Lemma spread_lookup (m : gmap Z (list Planet)) (i : Z) :
  0 ≤ i < 2 ^ 32 - 1 → spread m !! i = m !! i.
Proof.
  intros Hi. unfold spread. rewrite map_lookup_filter.
  destruct (m !! i); simpl; [|done]. by rewrite option_guard_True.
Qed.

Lemma spread_lookup_Some (m : gmap Z (list Planet)) (i : Z) (l : list Planet) :
  spread m !! i = Some l → m !! i = Some l.
Proof. unfold spread. rewrite map_lookup_filter_Some. tauto. Qed.

Lemma project_constructed (ev : Event) :
  constructed (event_state ev) →
  project ev =
    Some (handle ev (set_memoizedPortions
                       (spread (memoizedPortions (event_state ev)))
                       (event_state ev))).
Proof. intros Hc. unfold project. by rewrite copyOf_constructed. Qed.

Lemma rejected (ev : Event) :
  pages ev = true → constructed (event_state ev) →
  error (event_state ev) || initial (event_state ev) = true →
  project ev = Some (Of errState, []).
Proof.
  intros Hev Hc Hflag. rewrite project_constructed by done.
  destruct ev as [| pg s | n s]; [done| |]; simpl in *;
    unfold __newPage, __changePageSize; simpl; by rewrite Hflag.
Qed.

(** C6, as the code has it (precondition reject).  A page or page-size
    event carrying a state with [error] or [initial] set never sends a
    request.  A service that listens publishes the error state for it at
    once; a service whose first search is still in flight, the only one
    whose current state is initial without being an error, drops the
    event and publishes nothing. *)
Theorem precondition_reject (svc : PlanetsStoreService) (ev : Event) :
  pages ev = true → constructed (event_state ev) →
  error (event_state ev) || initial (event_state ev) = true →
  let svc' := step svc (Dispatch ev) in
  http svc' = http svc ∧
  (listening svc = true →
   state_log svc' = state_log svc ++ [(FromEvent (index svc), errState)] ∧
   inner svc' = None ∧ error errState = true) ∧
  (listening svc = false → svc' = svc).
Proof.
  intros Hev Hc Hflag. pose proof (rejected ev Hev Hc Hflag) as Hp.
  simpl. rewrite Hp. destruct (listening svc); simpl.
  - rewrite app_nil_r. by split_and!.
  - by split_and!.
Qed.

Lemma makeNewStateObservable_aims (base : State) (pg : Z) :
  page base = Some pg → aims_at_page pg (makeNewStateObservable base).1.
Proof.
  intros Hp. unfold makeNewStateObservable.
  destruct (Js.eq0 (count base)); [by right|].
  destruct (begPortionIndex base), (endPortionIndex base);
    try by right.
  destruct (missing base _ _); simpl; [by right | done].
Qed.

Lemma respond_aims (pg : Z) (o : Obs) (i : Z) (r : option PlanetsPortion) :
  aims_at_page pg o → aims_at_page pg (respond o i r).1.
Proof.
  destruct o as [s | state term | base idxs arrived]; simpl; [done..|].
  intros Hp. case_decide; [|done].
  destruct r as [portion|]; [|by left].
  destruct (all_arrived _ _); [|done]. simpl. right.
  by destruct (store_portions_fields idxs (<[i:=results portion]> arrived) base)
    as (_ & _ & -> & _).
Qed.

Lemma replies_aims (pg : Z) (rs : list (Z * option PlanetsPortion)) (o : Obs) :
  aims_at_page pg o → aims_at_page pg (replies o rs).
Proof.
  revert o. induction rs as [|[i r] rs IH]; intros o Ho; [done|].
  simpl. apply IH. by apply respond_aims.
Qed.

Lemma missing_nil (s : State) (b e : Z) :
  (∀ i, b ≤ i ≤ e → is_Some (memoizedPortions s !! i)) → missing s b e = [].
Proof.
  intros Hall. destruct (missing s b e) as [|i l] eqn:Hm; [done|].
  assert (i ∈ missing s b e) as [Hi Hn]%elem_of_missing
    by (rewrite Hm; left).
  destruct (Hall i Hi) as [? ?]. congruence.
Qed.

Lemma aiming_step (pg : Z) (k : nat) (svc : PlanetsStoreService) (x : Input) :
  aiming pg k svc → aiming pg k (step svc x).
Proof.
  intros (Hlog & Hin & Hk).
  destruct (step_Step svc x); try done; split_and!; simpl; try lia;
    intros;
    repeat match goal with
      | H : _ ∈ _ ++ _ |- _ => apply elem_of_app in H as [H|H]
      | H : _ ∈ [_] |- _ => apply list_elem_of_singleton in H
      end;
    simplify_eq; eauto; try lia;
    match goal with
    | H : inner _ = Some (_, ?o), Hr : respond ?o ?i ?r = _ |- _ =>
        let Ha := fresh in
        pose proof (respond_aims pg o i r (Hin _ H)) as Ha;
        rewrite Hr in Ha; exact Ha
    end.
Qed.

Lemma aiming_run (pg : Z) (k : nat) (tr : list Input)
    (svc : PlanetsStoreService) :
  aiming pg k svc → aiming pg k (run svc tr).
Proof.
  revert svc. induction tr as [|x tr IH]; intros svc Ha; [done|].
  rewrite run_cons. by apply IH, aiming_step.
Qed.

Lemma dispatch_aims (pg : Z) (svc : PlanetsStoreService) (ev : Event)
    (o : Obs) (reqs : list Request) :
  switching svc → listening svc = true →
  project ev = Some (o, reqs) → aims_at_page pg o →
  aiming pg (index svc) (step svc (Dispatch ev)).
Proof.
  intros [_ Hlog] Hl Hp Ha. simpl. rewrite Hl, Hp.
  destruct o as [s0| |]; split_and!; simpl; try lia; try done.
  - intros s [Hs|Hs%list_elem_of_singleton]%elem_of_app.
    + destruct (Hlog _ _ Hs). lia.
    + by simplify_eq.
  - intros s Hs. destruct (Hlog _ _ Hs). lia.
  - by intros o [= <-].
Qed.

(** The first page stays memoized: a closed-system invariant, for callers
    that dispatch the states they were given. *)
Lemma complete_ext (s s' : State) :
  pageSize s' = pageSize s → page s' = page s → count s' = count s →
  (∀ i, is_Some (memoizedPortions s !! i) →
        is_Some (memoizedPortions s' !! i)) →
  complete s → complete s'.
Proof.
  intros Hps Hp Hc Hm Hcomp b e i Hb He Hi.
  destruct (portion_indices_ext s s' Hps Hp Hc) as [Eb Ee].
  apply Hm, (Hcomp b e); [by rewrite <- Eb | by rewrite <- Ee | done].
Qed.

Lemma first_page_of_page1 (s : State) :
  page s = Some 1 → complete s → first_page_ready s.
Proof. intros Hp. by apply complete_ext. Qed.

Lemma constructed_ext (s s' : State) :
  count s' = count s → constructed s → constructed s'.
Proof. unfold constructed, portionsCount. by intros ->. Qed.

Lemma end_portion_bound (s : State) (e : Z) :
  constructed s → endPortionIndex s = Some e → e < 2 ^ 32 - 1.
Proof.
  intros Hc He. unfold endPortionIndex, endIndex in He.
  destruct (Js.eq0 (count s)); [done|]. simpl in He. injection He as <-.
  unfold constructed, Js.array_length_ok, portionsCount in Hc.
  apply andb_true_iff in Hc as [_ Hc%Z.ltb_lt].
  set (c := Js.num (count s)) in *.
  pose proof (Z.div_le_mono (Z.min (pageSize s * Js.num (page s)) c - 1)
                (c - 1) 10).
  pose proof (Z.div_mod (c - 1) 10).
  pose proof (Z.div_mod (- c) 10).
  pose proof (Z.mod_pos_bound (c - 1) 10).
  pose proof (Z.mod_pos_bound (- c) 10).
  lia.
Qed.

Lemma first_page_copied (s : State) :
  constructed s → first_page_ready s →
  first_page_ready (set_memoizedPortions (spread (memoizedPortions s)) s).
Proof.
  intros Hc Hr b e i Hb He Hi. simpl.
  assert (b = 1) as ->.
  { unfold begPortionIndex, begIndex in Hb. simpl in Hb.
    destruct (Js.eq0 (count s)); [done|]. simpl in Hb.
    injection Hb as <-. by rewrite Z.mul_0_r. }
  pose proof (end_portion_bound (set_page (Some 1) s) e Hc He).
  rewrite spread_lookup by lia. by apply (Hr 1 e).
Qed.

Lemma makeNewStateObservable_keeping (base : State) :
  constructed base → first_page_ready base ∨ page base = Some 1 →
  keeping (makeNewStateObservable base).1.
Proof.
  intros Hc Hr. pose proof (makeNewStateObservable_resolving base) as Hres.
  destruct (makeNewStateObservable base) as [[s| |b idxs arr] reqs] eqn:E;
    simpl in *; [|done|].
  - assert (s = base) as ->.
    { unfold makeNewStateObservable in E. repeat case_match; by simplify_eq. }
    split; [done|]. intros He Hi. destruct Hr as [?|Hp]; [done|].
    destruct Hres as [?|[?|?]]; [congruence..|]. by apply first_page_of_page1.
  - assert (b = base) as ->.
    { unfold makeNewStateObservable in E. repeat case_match; by simplify_eq. }
    split; [done|]. destruct Hr; [by left | by right].
Qed.

Lemma errState_well_kept : well_kept errState.
Proof. split; [reflexivity | done]. Qed.

Lemma respond_keeping (o : Obs) (i : Z) (r : option PlanetsPortion) :
  keeping o → keeping (respond o i r).1.
Proof.
  destruct o as [s | state term | base idxs arrived]; simpl; [done| |].
  - intros _. case_decide; [|done]. unfold search_reply.
    destruct r as [portion|]; [|apply errState_well_kept].
    destruct (resetMemoizedPortions _) as [st|] eqn:Hreset;
      [|apply errState_well_kept].
    assert (constructed st ∧ page st = Some 1 ∧
            count st = Some (portion_count portion)) as (Hc & Hp & Hcount).
    { unfold resetMemoizedPortions in Hreset.
      destruct (Js.array_length_ok _) eqn:Hok; [|done].
      injection Hreset as <-. by split_and!. }
    apply makeNewStateObservable_keeping.
    + by destruct (0 <? portion_count portion).
    + right. by destruct (0 <? portion_count portion).
  - intros [Hc Hr]. case_decide; [|done].
    destruct r as [portion|]; [|apply errState_well_kept].
    destruct (all_arrived _ _) eqn:Hall; simpl.
    + set (arrived' := <[i:=results portion]> arrived) in *.
      destruct (store_portions_fields idxs arrived' base)
        as (Hps & _ & Hp & Hcount & _).
      split; [by apply (constructed_ext base)|]. intros _ _.
      destruct Hr as [Hr|[Hp1 Hres]].
      * apply (complete_ext (set_page (Some 1) base)); try done.
        intros j. simpl. apply store_portions_keeps.
      * apply first_page_of_page1; [congruence|].
        intros b e j Hb He Hj.
        destruct (portion_indices_ext _ _ Hps Hp Hcount) as [Eb Ee].
        rewrite Eb in Hb. rewrite Ee in He.
        destruct (Hres b e j Hb He Hj) as [Hold|Hnew].
        -- by apply store_portions_keeps.
        -- apply store_portions_adds; [done|].
           by apply all_arrived_spec with (i := j) in Hall.
    + split; [done|]. destruct Hr as [?|[? ?]]; [by left | by right].
Qed.

Lemma project_keeping (ev : Event) (o : Obs) (reqs : list Request) :
  well_kept (event_state ev) → project ev = Some (o, reqs) → keeping o.
Proof.
  intros [Hc Hr] Hp. rewrite project_constructed in Hp by done.
  injection Hp as Hp. replace o with (o, reqs).1 by done. rewrite <- Hp.
  clear Hp. set (st := set_memoizedPortions _ _).
  destruct ev as [term s | pg s | n s]; simpl in *; [done| |].
  - unfold __newPage. destruct (error st || initial st) eqn:Hflag;
      [apply errState_well_kept|].
    apply orb_false_iff in Hflag as [He Hi].
    apply makeNewStateObservable_keeping; [done|]. left.
    by apply (first_page_copied s), Hr.
  - unfold __changePageSize. destruct (error st || initial st);
      [apply errState_well_kept|].
    apply makeNewStateObservable_keeping; [done | by right].
Qed.

Lemma construct_keeping : invariant well_kept keeping construct.
Proof.
  split_and!; simpl.
  - intros o s Hin. apply list_elem_of_singleton in Hin. simplify_eq.
    split; [reflexivity | done].
  - by intros o [= <-].
  - done.
Qed.

(** When the callers dispatch published states, or any other that can show
    its first page, so can every published state. *)
Lemma published_well_kept (tr : list Input) (o : Origin) (s : State) :
  admissible_trace (λ ev, well_kept (event_state ev)) (λ _ _ _, True)
                   construct tr →
  (o, s) ∈ state_log (run construct tr) → well_kept s.
Proof.
  intros Htr Hin.
  destruct (invariant_run well_kept keeping
              (λ ev, well_kept (event_state ev)) (λ _ _ _, True))
    with (tr := tr) (svc := construct) as (Hlog & _); eauto.
  - intros ev o' reqs. apply project_keeping.
  - intros o' i r _. apply respond_keeping.
  - apply construct_keeping.
Qed.

(** A page whose portions are memoized is resolved at once, from the
    copy of the state, without a request. *)
Lemma resolved_at_once (s : State) (pg : Z) :
  constructed s → complete (set_page (Some pg) s) →
  (∀ b, begPortionIndex (set_page (Some pg) s) = Some b → 0 ≤ b) →
  let s' := set_page (Some pg)
              (set_memoizedPortions (spread (memoizedPortions s)) s) in
  makeNewStateObservable s' = (Of s', []).
Proof.
  intros Hc Hcomp Hpos s'. unfold makeNewStateObservable.
  destruct (Js.eq0 (count s')) eqn:E0; [done|].
  destruct (eq0_false_indices s' E0) as (b & e & bi & ei & Hb & He & _).
  rewrite Hb, He. rewrite missing_nil; [done|].
  intros i Hi. simpl.
  pose proof (Hpos b Hb).
  pose proof (end_portion_bound (set_page (Some pg) s) e Hc He).
  rewrite spread_lookup by lia. by apply (Hcomp b e).
Qed.

(** C7 (clamp quirk).  For a page event on a state that is neither an
    error nor initial, with [page > pagesCount()], the handler works on
    page 1: the state it emits at once, or the base state of the join it
    waits for, has [page = 1], and so has every state that is not an
    error state which the observable emits after any replies; a service
    that listens therefore publishes for the event nothing but states on
    page 1 (or the error state, when a request fails).  When the first
    page of the state is memoized, as it is in every published state
    ([published_well_kept]), no request is needed: the copy of the state
    on page 1 is emitted at once.  (When [pagesCount()] is 1 the two pages
    of the claim coincide.) *)
Theorem clamp_to_first_page (s : State) (pg : Z) :
  error s = false → initial s = false → constructed s →
  Js.gt pg (pagesCount s) = true →
  (∃ o reqs,
     project (newPage pg s) = Some (o, reqs) ∧
     aims_at_page 1 o ∧
     ∀ rs s', replies o rs = Of s' → error s' = false → page s' = Some 1) ∧
  (∀ tr0 tr s',
     let svc := run construct tr0 in
     listening svc = true →
     (FromEvent (index svc), s') ∈
       state_log (run (step svc (Dispatch (newPage pg s))) tr) →
     error s' = false → page s' = Some 1) ∧
  (first_page_ready s →
   project (newPage pg s) =
     Some (Of (set_page (Some 1)
                 (set_memoizedPortions (spread (memoizedPortions s)) s)), [])).
Proof.
  intros He Hi Hc Hgt.
  pose proof (project_constructed (newPage pg s) Hc) as Hp. simpl in Hp.
  unfold __newPage in Hp. simpl in Hp. rewrite He, Hi in Hp. simpl in Hp.
  unfold pagesCount in *. simpl in Hp. rewrite Hgt in Hp.
  destruct (makeNewStateObservable _) as [o reqs] eqn:Ho.
  assert (Haim : aims_at_page 1 o).
  { replace o with (o, reqs).1 by done. rewrite <- Ho.
    by apply makeNewStateObservable_aims. }
  split_and!.
  - exists o, reqs. split_and!; [done..|].
    intros rs s' Hrs Hs'. pose proof (replies_aims 1 rs o Haim) as H.
    rewrite Hrs in H. destruct H; congruence.
  - intros tr0 tr s' Hl Hin Hs'. set (svc := run construct tr0) in *.
    assert (Ha : aiming 1 (index svc) (step svc (Dispatch (newPage pg s)))).
    { apply (dispatch_aims 1 svc _ o reqs); try done.
      apply switching_run, switching_construct. }
    destruct (aiming_run 1 _ tr _ Ha) as (Hlog & _).
    destruct (Hlog _ Hin); congruence.
  - intros Hr. rewrite Hp. f_equal. rewrite <- Ho.
    apply (resolved_at_once s 1); [done..|].
    intros b Hb. unfold begPortionIndex, begIndex in Hb. simpl in Hb.
    destruct (Js.eq0 (count s)); [done|]. simpl in Hb.
    injection Hb as <-. by rewrite Z.mul_0_r.
Qed.

(** C9 (idempotent cache hit).  For a valid state with a positive page
    size and a page of [1 .. pagesCount()] whose portions are all in
    [memoizedPortions], a page event for that page sends no request; a
    service that listens publishes at once the copy of the state with that
    page, and the memoized portions of the copy are those of the state. *)
Theorem cache_hit_no_fetch (svc : PlanetsStoreService) (s : State) (pg : Z) :
  constructed s →
  error s = false → initial s = false →
  0 < pageSize s → 1 ≤ pg → Js.gt pg (pagesCount s) = false →
  complete (set_page (Some pg) s) →
  let s' := set_page (Some pg)
              (set_memoizedPortions (spread (memoizedPortions s)) s) in
  let svc' := step svc (Dispatch (newPage pg s)) in
  http svc' = http svc ∧
  (listening svc = true →
   state_log svc' = state_log svc ++ [(FromEvent (index svc), s')] ∧
   inner svc' = None) ∧
  ∀ i l, memoizedPortions s' !! i = Some l → memoizedPortions s !! i = Some l.
Proof.
  intros Hc He Hi Hps Hpg Hle Hcomp s' svc'.
  assert (Hp : project (newPage pg s) = Some (Of s', [])).
  { rewrite project_constructed by done. simpl.
    unfold __newPage. simpl. rewrite He, Hi. simpl.
    unfold pagesCount in *. simpl. rewrite Hle. f_equal.
    apply (resolved_at_once s pg); [done..|].
    intros b Hb. unfold begPortionIndex, begIndex in Hb. simpl in Hb.
    destruct (Js.eq0 (count s)); [done|]. simpl in Hb. injection Hb as <-.
    pose proof (Z.div_pos (pageSize s * (pg - 1)) 10). nia. }
  split_and!.
  - unfold svc'. simpl. rewrite Hp.
    destruct (listening svc); simpl; [by rewrite app_nil_r | done].
  - intros Hl.
    destruct (dispatch_listening svc _ _ _ Hl Hp) as (_ & _ & Hof & _).
    by destruct (Hof _ eq_refl).
  - intros i l. apply spread_lookup_Some.
Qed.

End Paging.

(** *** Failures and provenance *)

Section Searching.
Import Store.

Lemma copyOf_initialState : copyOf initialState = Some initialState.
Proof. reflexivity. Qed.

Lemma errState_eq : errState = set_error true initialState.
Proof. reflexivity. Qed.

(** A failed reply is ignored by an observable that does not wait for
    it, and ends any other in the error state. *)
Lemma respond_failure (o : Obs) (i : Z) :
  respond o i None = (o, []) ∨ respond o i None = (Of errState, []).
Proof.
  destruct o as [s | state term | base idxs arrived]; simpl;
    [by left | |]; case_decide; by eauto.
Qed.

(** C5, as the code has it (failure of a search).  A search event on a
    state that can be copied waits for portion 1 of its term; when that
    request fails, and likewise when a later request of the search fails,
    the service publishes the error state, which is the initial state
    with [error] set: its [pageSize] is the default 25 whatever the page
    size of the state the search was applied to. *)
Theorem search_failure_publishes_errState (svc : PlanetsStoreService)
    (term : string) (s : State) :
  listening svc = true → constructed s →
  let svc1 := step svc (Dispatch (search term s)) in
  let k := index svc in
  let st := set_initial false
              (set_error false
                 (set_memoizedPortions (spread (memoizedPortions s)) s)) in
  inner svc1 = Some (k, AwaitFirst st term) ∧
  pageSize st = pageSize s ∧
  state_log svc1 = state_log svc ∧
  state_log (step svc1 (Response (Inner k) 1 None)) =
    state_log svc ++ [(FromEvent k, errState)] ∧
  (∀ portion base idxs arrived reqs i,
     search_reply st term (Some portion) =
       (ForkJoin base idxs arrived, reqs) →
     i ∈ idxs → arrived !! i = None →
     state_log (run svc1 [Response (Inner k) 1 (Some portion);
                          Response (Inner k) i None]) =
       state_log svc ++ [(FromEvent k, errState)]) ∧
  error errState = true ∧ pageSize errState = 25 ∧
  errState = set_error true initialState.
Proof.
  intros Hl Hc svc1 k st.
  pose proof (project_constructed (search term s) Hc) as Hp. simpl in Hp.
  unfold __search in Hp. fold st in Hp.
  assert (Hsvc1 : svc1 =
    mkService (state_log svc) (boot svc) true (S k)
      (Some (k, AwaitFirst st term)) (http svc ++ [(1, Some term)])).
  { unfold svc1. simpl. by rewrite Hl, Hp. }
  split_and!; try done.
  - by rewrite Hsvc1.
  - by rewrite Hsvc1.
  - rewrite Hsvc1.
    by rewrite (step_inner_done _ k (AwaitFirst st term) 1 None errState []).
  - intros portion base idxs arrived reqs i Hreply Hi Harr.
    rewrite Hsvc1, !run_cons.
    rewrite (step_inner_waits _ k (AwaitFirst st term)
               (ForkJoin base idxs arrived) 1 (Some portion) reqs);
      [|done|done|done].
    rewrite (step_inner_done _ k (ForkJoin base idxs arrived)
               i None errState []); [done|done|].
    simpl. by rewrite decide_True.
Qed.

(** C3, as the code has it (which state an action is applied to).  The
    outcome of dispatching an event to a listening service is a function
    of the event alone, namely of the handler run on a copy of the state
    that the caller put into the event; what [state$] holds plays no
    part. *)
Theorem outcome_from_event_state (svc : PlanetsStoreService) (ev : Event) :
  listening svc = true →
  news svc (step svc (Dispatch ev)) =
    match copyOf (event_state ev) with
    | None => ([], None, [])
    | Some state =>
        match handle ev state with
        | (Of s, reqs) => ([s], None, reqs)
        | (o, reqs) => ([], Some o, reqs)
        end
    end.
Proof.
  intros Hl. unfold news, project. simpl. rewrite Hl. unfold project.
  destruct (copyOf (event_state ev)) as [state|]; simpl.
  - destruct (handle ev state) as [[s | st term | base idxs arrived] reqs];
      simpl; by rewrite ?drop_app_length, ?drop_all.
  - by rewrite !drop_all.
Qed.

Section Coherence.
Variable server : option string → Z → list Planet.

Lemma coherent_empty (s : State) :
  memoizedPortions s = ∅ → coherent server s.
Proof. intros Hm i l. by rewrite Hm, lookup_empty. Qed.

Lemma makeNewStateObservable_coherent (base : State) :
  coherent server base → coherent_obs server (makeNewStateObservable base).1.
Proof.
  intros Hc. unfold makeNewStateObservable.
  destruct (Js.eq0 (count base)); [done|].
  destruct (begPortionIndex base), (endPortionIndex base); try done.
  destruct (missing base _ _); simpl; [done|].
  split; [done|]. intros i' l'. by rewrite lookup_empty.
Qed.

Lemma store_portions_coherent (idxs : list Z)
    (arrived : gmap Z (list Planet)) (base : State) :
  coherent server base →
  (∀ i l, arrived !! i = Some l → l = server (searchTerm base) i) →
  coherent server (store_portions base idxs arrived).
Proof.
  revert base. induction idxs as [|j idxs IH]; intros base Hc Ha; [done|].
  unfold store_portions in *. simpl.
  destruct (arrived !! j) as [res|] eqn:Hj; [|by apply IH].
  apply IH; [|done]. intros i l. simpl. rewrite lookup_insert.
  case_decide; [|by apply Hc]. intros [= <-]. subst. by apply Ha.
Qed.

Lemma respond_coherent (o : Obs) (i : Z) (r : option PlanetsPortion) :
  honest_reply server o i r → coherent_obs server o →
  coherent_obs server (respond o i r).1.
Proof.
  destruct o as [s | state term | base idxs arrived]; simpl; [done| |].
  - intros Hr _. case_decide; [|done]. subst i. unfold search_reply.
    destruct r as [portion|]; [|by apply coherent_empty].
    specialize (Hr _ eq_refl). simpl in Hr.
    unfold resetMemoizedPortions.
    destruct (Js.array_length_ok _); [|by apply coherent_empty].
    apply makeNewStateObservable_coherent.
    destruct (0 <? portion_count portion).
    + intros i l. simpl. rewrite lookup_insert.
      case_decide; [|by rewrite lookup_empty]. intros [= <-]. by subst.
    + by apply coherent_empty.
  - intros Hr [Hc Ha]. case_decide; [|done].
    destruct r as [portion|]; [|by apply coherent_empty].
    specialize (Hr _ eq_refl). simpl in Hr.
    assert (Ha' : ∀ j l, <[i:=results portion]> arrived !! j = Some l →
                         l = server (searchTerm base) j).
    { intros j l. rewrite lookup_insert.
      case_decide; [|by apply Ha]. intros [= <-]. by subst. }
    destruct (all_arrived _ _); simpl; [|done].
    by apply store_portions_coherent.
Qed.

Lemma project_coherent (ev : Event) (o : Obs) (reqs : list Request) :
  coherent server (event_state ev) → project ev = Some (o, reqs) →
  coherent_obs server o.
Proof.
  intros Hc Hp. pose proof Hp as Hcon. unfold project in Hcon.
  destruct (copyOf (event_state ev)) as [st|] eqn:Hcopy; [|done].
  apply copyOf_Some in Hcopy.
  rewrite project_constructed in Hp by done. injection Hp as Hp.
  replace o with (o, reqs).1 by done. rewrite <- Hp. clear Hp Hcon.
  set (st' := set_memoizedPortions _ _).
  assert (Hst : coherent server st').
  { intros i l Hl. apply spread_lookup_Some in Hl. by apply Hc. }
  destruct ev as [term s | pg s | n s]; simpl; [done| |].
  - unfold __newPage. destruct (error st' || initial st');
      [by apply coherent_empty|].
    by apply makeNewStateObservable_coherent.
  - unfold __changePageSize. destruct (error st' || initial st');
      [by apply coherent_empty|].
    by apply makeNewStateObservable_coherent.
Qed.

Lemma construct_coherent :
  invariant (coherent server) (coherent_obs server) construct.
Proof.
  split_and!; simpl.
  - intros o s Hin. apply list_elem_of_singleton in Hin. simplify_eq.
    by apply coherent_empty.
  - by intros o [= <-].
  - done.
Qed.

End Coherence.

Lemma search_reply_forgets (st : State) (m : gmap Z (list Planet))
    (term : string) (r : option PlanetsPortion) :
  search_reply (set_memoizedPortions m st) term r = search_reply st term r.
Proof. reflexivity. Qed.

(** C8 (cache invalidation on a new term).  The reply to a search wipes
    the memoized portions: the outcome of the search is the same whatever
    was memoized before.  Hence, when the transport answers every request
    with the portions of the term the request names, and the callers
    dispatch states that hold portions of their own term only (as every
    published state does), each memoized portion of each published state
    is a portion of the term of that state: after a search for a second
    term no portion of the first is kept or used for it. *)
Theorem cache_invalidated_on_search
    (server : option string → Z → list Planet) (tr : list Input) :
  admissible_trace (λ ev, coherent server (event_state ev))
                   (honest_reply server) construct tr →
  (∀ o s, (o, s) ∈ state_log (run construct tr) → coherent server s) ∧
  (∀ st m term r,
     search_reply (set_memoizedPortions m st) term r = search_reply st term r).
Proof.
  intros Htr. split; [|done].
  eapply (invariant_run (coherent server) (coherent_obs server)); [..|done].
  - done.
  - intros ev o reqs. apply project_coherent.
  - apply respond_coherent.
  - apply construct_coherent.
Qed.

End Searching.

(** ** Properties of the first engine

    The first generation decides the same questions in other places: the
    portions are cached by the service, per page, for the last searched
    term; the states are derived by the caller, through the action
    methods; the store switches between the observables it is handed. *)

Section FirstGeneration.
Import Legacy.

(** A page of the last searched term that is cached is served from the
    cache: no observable is created, the service is unchanged. *)
Lemma legacy_cache_hit (svc : PlanetsService) (pg : Z)
    (search : option string) (obs : PortionObservable) :
  planetsPortionsCache svc !! pg = Some obs → lastSearched svc = search →
  getPlanetsPortion pg search svc = (obs, svc).
Proof.
  intros Hc Hs. unfold getPlanetsPortion.
  rewrite decide_True by done. by rewrite Hc.
Qed.

Lemma legacy_cache_hits (idxs : list Z) (search : option string)
    (svc : PlanetsService) :
  lastSearched svc = search →
  (∀ i, i ∈ idxs → is_Some (planetsPortionsCache svc !! i)) →
  (getPlanetsPortions idxs search svc).2 = svc.
Proof.
  intros Hs. induction idxs as [|i idxs IH]; intros Hall; [done|].
  destruct (Hall i) as [obs Hobs]; [left|]. simpl.
  rewrite (legacy_cache_hit svc i search obs) by done.
  assert (IH' : (getPlanetsPortions idxs search svc).2 = svc).
  { apply IH. intros j Hj. apply Hall. by right. }
  by destruct (getPlanetsPortions idxs search svc) as [more svc'].
Qed.

(** A request for another term empties the cache before anything is
    looked up in it. *)
Lemma legacy_term_change (svc : PlanetsService) (pg : Z)
    (search : option string) :
  search ≠ lastSearched svc →
  let obs := mkObservable (length (created svc)) pg search in
  getPlanetsPortion pg search svc =
    (obs, mkPlanetsService search {[ pg := obs ]} (created svc ++ [(pg, search)])).
Proof.
  intros Hne. unfold getPlanetsPortion.
  rewrite decide_False by done. simpl. by rewrite lookup_empty.
Qed.

Lemma legacy_cache_new : cache_of_last_term newPlanetsService.
Proof. intros pg obs. simpl. by rewrite lookup_empty. Qed.

(** Whatever was requested before, the observable returned for a request
    is one for the page and the term of that request. *)
Lemma legacy_getPlanetsPortion_url (svc : PlanetsService) (pg : Z)
    (search : option string) :
  cache_of_last_term svc →
  let r := getPlanetsPortion pg search svc in
  url_page r.1 = pg ∧ url_search r.1 = search ∧
  lastSearched r.2 = search ∧ cache_of_last_term r.2.
Proof.
  intros Hinv. unfold getPlanetsPortion.
  destruct (decide (search = lastSearched svc)) as [->|Hne].
  - destruct (planetsPortionsCache svc !! pg) as [obs|] eqn:Hc; simpl.
    + destruct (Hinv _ _ Hc). by split_and!.
    + split_and!; try done. intros pg' obs'. simpl. rewrite lookup_insert.
      case_decide; [intros [= <-]; by subst | apply Hinv].
  - simpl. rewrite lookup_empty. simpl. split_and!; try done.
    intros pg' obs'. simpl. rewrite lookup_insert.
    case_decide; [intros [= <-]; by subst | by rewrite lookup_empty].
Qed.

Lemma legacy_requestFailed_cache (svc : PlanetsService)
    (obs : PortionObservable) :
  cache_of_last_term svc → cache_of_last_term (requestFailed obs svc).
Proof.
  intros Hinv pg obs'. simpl. rewrite lookup_delete.
  case_decide; [done | apply Hinv].
Qed.

(** The loop of [makeCompleteNewStateObservable] asks the service for the
    pages of the interval, each once, in order. *)
Lemma legacy_asks_interval (idxs : list Z) (search : option string)
    (svc : PlanetsService) :
  cache_of_last_term svc →
  url_page <$> (getPlanetsPortions idxs search svc).1 = idxs ∧
  cache_of_last_term (getPlanetsPortions idxs search svc).2.
Proof.
  revert svc. induction idxs as [|i idxs IH]; intros svc Hinv; [done|].
  simpl. destruct (legacy_getPlanetsPortion_url svc i search Hinv)
    as (Hpg & _ & _ & Hinv').
  destruct (getPlanetsPortion i search svc) as [obs svc1]. simpl in *.
  destruct (IH svc1 Hinv') as [Hpgs Hinv''].
  destruct (getPlanetsPortions idxs search svc1) as [more svc2]. simpl in *.
  split; [|done]. f_equal; [exact Hpg | exact Hpgs].
Qed.

(** The error state is a new state with the flags set: page size 25. *)
Lemma legacy_errorState :
  error errorState = true ∧ initial errorState = false ∧
  pageSize errorState = 25.
Proof. done. Qed.

(** A search keeps the page size while it waits for portion 1 and ends in
    the error state when that request fails. *)
Lemma legacy_search_failure (this : State) (term : string)
    (svc : PlanetsService) :
  ∃ newState first svc',
    searchAction this term svc = (AwaitFirst newState first, svc') ∧
    pageSize newState = pageSize this ∧
    searchReply newState None svc' = (Of errorState, svc').
Proof.
  unfold searchAction.
  destruct (getPlanetsPortion 1 (Some term) svc) as [first svc'].
  by eexists _, first, svc'.
Qed.

Lemma legacy_rejects (this : State) (n : Z) (svc : PlanetsService) :
  error this || initial this = true →
  newPageAction this n svc = (Of errorState, svc) ∧
  changePageSizeAction this n svc = (Of errorState, svc).
Proof.
  intros Hflag. unfold newPageAction, changePageSizeAction.
  by rewrite Hflag.
Qed.

Lemma legacy_clamp (this : State) (pg : Z) (svc : PlanetsService) :
  error this = false → initial this = false →
  Js.gt pg (pagesCount this) = true →
  match (newPageAction this pg svc).1 with
  | Of s | ForkJoin s _ => page s = Some 1
  | AwaitFirst _ _ => False
  | Empty => True
  end.
Proof.
  intros He Hi Hgt. unfold newPageAction. rewrite He, Hi, Hgt. simpl.
  unfold makeCompleteNewStateObservable. simpl.
  repeat case_match; simpl in *; simplify_eq; done.
Qed.

(** The store: an observable handed over before the first search has
    emitted is not subscribed to. *)
Lemma legacy_switching_step (st : PlanetsStoreService) (x : Input) :
  switching st → switching (step st x).
Proof.
  intros [Hin Hboot].
  destruct x as [| [|k] s | [|k]]; simpl;
    repeat case_match; split; simpl; intros; simplify_eq; eauto.
  all: match goal with
       | H : inner _ = Some _ |- _ => destruct (Hin _ H); split; congruence
       end.
Qed.

Lemma legacy_switching_run (tr : list Input) (st : PlanetsStoreService) :
  switching st → switching (run st tr).
Proof.
  revert st. induction tr as [|x tr IH]; intros st Hsw; [done|].
  simpl. by apply IH, legacy_switching_step.
Qed.

Lemma legacy_switching_construct : switching construct.
Proof. done. Qed.

Lemma legacy_update_dropped (tr : list Input) :
  booting (run construct tr) = true →
  step (run construct tr) Update = run construct tr.
Proof.
  intros Hb.
  destruct (legacy_switching_run tr _ legacy_switching_construct) as [_ Hl].
  simpl. by rewrite (Hl Hb).
Qed.

Lemma legacy_superseded_step (k : nat) (st : PlanetsStoreService) (x : Input) :
  switching st → superseded k st → superseded k (step st x).
Proof.
  intros [Hin Hboot] [Hidx Hfresh].
  destruct x as [| [|k'] s | [|k']]; simpl;
    repeat case_match; split; simpl; try done; try lia;
    intros s' [Hs|Hs%list_elem_of_singleton]%elem_of_app;
    try (by apply (Hfresh s')); simplify_eq.
  match goal with H : inner _ = Some _ |- _ => destruct (Hin _ H) end. lia.
Qed.

(** The store: once another observable is handed over, the one that was
    subscribed to and had not emitted never gets a state published. *)
Lemma legacy_switch_latest (tr1 tr2 : list Input) (k : nat) :
  inner (run construct tr1) = Some k →
  (∀ s, (From (Updated k), s) ∉ state_log (run construct tr1)) →
  ∀ s, (From (Updated k), s) ∉ state_log (run construct (tr1 ++ Update :: tr2)).
Proof.
  intros Hk Hfresh.
  pose proof (legacy_switching_run tr1 _ legacy_switching_construct) as Hsw.
  unfold run. rewrite foldl_app. fold (run construct tr1).
  change (foldl step (run construct tr1) (Update :: tr2))
    with (run (step (run construct tr1) Update) tr2).
  assert (Hsup : superseded k (step (run construct tr1) Update)).
  { destruct Hsw as [Hin _]. destruct (Hin _ Hk) as [Hidx Hl].
    simpl. rewrite Hl. split; simpl; [lia|done]. }
  assert (Hsw' : switching (step (run construct tr1) Update))
    by by apply legacy_switching_step.
  clear Hk Hfresh Hsw. revert Hsup Hsw'.
  generalize (step (run construct tr1) Update).
  induction tr2 as [|x tr2 IH]; intros st Hsup Hsw'.
  - by destruct Hsup.
  - simpl. apply IH; [by apply legacy_superseded_step
                     | by apply legacy_switching_step].
Qed.

End FirstGeneration.

(** *** The scenarios *)

Section Scenarios.
Import Store Scenario.

(** Twenty-three planets, ten per page: three pages; page 2 shows the
    indices 10 to 19, all of portion 2, cut at the offsets 0 and 10. *)
Lemma second_page_of_23 :
  let s := set_memoizedPortions (<[2 := planets 10 "q"]> (memoizedPortions page2_of_23))
             page2_of_23 in
  pagesCount s = Js.Fin 3 ∧
  begIndex s = Some 10 ∧ endIndex s = Some 20 ∧
  begPortionIndex s = Some 2 ∧ endPortionIndex s = Some 2 ∧
  planetList s = Some (planets 10 "q").
Proof. by split_and!; vm_compute. Qed.

(** No result: no page, an empty list, no request; a missing portion
    makes [planetList] throw. *)
Lemma nothing_to_show :
  pagesCount nothing_found = Js.Fin 0 ∧
  planetList nothing_found = Some [] ∧
  makeNewStateObservable nothing_found = (Of nothing_found, []) ∧
  planetList page2_of_23 = None.
Proof. by split_and!; vm_compute. Qed.

Lemma boot60_publishes_first60 :
  state_log (run construct boot60) =
    [(Initial, initialState); (Constructor, first60)].
Proof. vm_compute. reflexivity. Qed.

Lemma goto2_goto3 :
  (λ e, page e.2) <$>
    state_log (run construct
                 (goto2 ++ Dispatch (newPage 3 first60) :: goto3_and_replies))
  = [None; Some 1; Some 3].
Proof. vm_compute. reflexivity. Qed.


Lemma published_state_complete_witness :
  complete first60 ∧ is_Some (planetList first60).
Proof.
  apply (published_state_complete boot60 Constructor first60);
    [|reflexivity..].
  rewrite boot60_publishes_first60. right. left.
Defined.

Lemma dropped_before_first_search_witness :
  step (run construct []) (Dispatch (newPage 2 initialState)) =
    run construct [].
Proof.
  refine (proj1 (dropped_before_first_search [] (newPage 2 initialState) _)).
  eexists. reflexivity.
Defined.

Lemma precondition_reject_witness :
  http (step failed_boot (Dispatch (changePageSize 10 errState))) =
    http failed_boot ∧
  state_log (step failed_boot (Dispatch (changePageSize 10 errState))) =
    state_log failed_boot ++ [(FromEvent 0, errState)].
Proof.
  destruct (precondition_reject failed_boot (changePageSize 10 errState))
    as (Hh & Hl & _); [reflexivity..|].
  destruct (Hl eq_refl) as (Hlog & _). split; [exact Hh | exact Hlog].
Defined.

(** The claim of C6 fails while the first search is in flight: [state$]
    holds the initial state, a page event is dispatched with it, and no
    error state is published, neither then nor when the search
    completes. *)
Lemma precondition_reject_counterexample :
  current construct = Some initialState ∧
  initial initialState = true ∧
  step construct (Dispatch (newPage 2 initialState)) = construct ∧
  (λ e, error e.2) <$>
    state_log (run construct [Dispatch (newPage 2 initialState);
                              Response Boot 1 (reply 5 5)])
  = [false; false].
Proof. split_and!; vm_compute; reflexivity. Qed.

Lemma clamp_to_first_page_witness :
  ∃ o reqs,
    project (newPage 7 first60) = Some (o, reqs) ∧
    aims_at_page 1 o ∧
    ∀ rs s', replies o rs = Of s' → error s' = false → page s' = Some 1.
Proof.
  apply (clamp_to_first_page first60 7); reflexivity.
Defined.

Lemma page7_of_3_shows_page1 :
  page <$> current (run construct (boot60 ++ [Dispatch (newPage 7 first60)]))
  = Some (Some 1).
Proof. vm_compute. reflexivity. Qed.

Lemma first60_complete : complete (set_page (Some 1) first60).
Proof.
  intros b e i Hb He Hi.
  vm_compute in Hb, He. injection Hb as <-. injection He as <-.
  assert (i = 1 ∨ i = 2 ∨ i = 3) as [-> | [-> | ->]] by lia;
    vm_compute; eauto.
Defined.

Lemma cache_hit_no_fetch_witness :
  http (step (run construct boot60) (Dispatch (newPage 1 first60))) =
    http (run construct boot60).
Proof.
  refine (proj1 (cache_hit_no_fetch (run construct boot60) first60 1
                   _ _ _ _ _ _ first60_complete));
    try reflexivity; lia.
Defined.

Lemma resized_publishes_five_by_ten :
  current (run construct resized) = Some five_by_ten.
Proof. vm_compute. reflexivity. Qed.

Lemma search_failure_publishes_errState_witness :
  state_log (step (step (run construct resized)
                        (Dispatch (search "x" five_by_ten)))
                  (Response (Inner 1) 1 None)) =
    state_log (run construct resized) ++ [(FromEvent 1, errState)].
Proof.
  destruct (search_failure_publishes_errState (run construct resized)
              "x" five_by_ten) as (_ & _ & _ & H & _);
    [reflexivity..|exact H].
Defined.

(** The claim of C5 fails: a search applied to the published state
    [five_by_ten], whose page size is 10, fails, and the state published
    for it has page size 25. *)
Lemma search_failure_pageSize_counterexample :
  current (run construct resized) = Some five_by_ten ∧
  pageSize five_by_ten = 10 ∧
  current (run construct (resized ++ [Dispatch (search "x" five_by_ten);
                                      Response (Inner 1) 1 None])) =
    Some errState ∧
  error errState = true ∧
  pageSize errState ≠ pageSize five_by_ten.
Proof. split_and!; try (vm_compute; reflexivity). discriminate. Qed.

Lemma searched_x_publishes_three_for_x :
  current (run construct searched_x) = Some three_for_x.
Proof. vm_compute. reflexivity. Qed.

Lemma outcome_from_event_state_witness :
  news (run construct searched_x)
       (step (run construct searched_x) (Dispatch (newPage 1 first60))) =
    ([first60], None, []).
Proof.
  rewrite (outcome_from_event_state (run construct searched_x)
             (newPage 1 first60)); [|reflexivity].
  vm_compute. reflexivity.
Defined.

(** The claim of C3 fails: [state$] holds the state of term "x", the
    event carries the older state of the empty term, and the state
    published is derived from the latter, not from the former. *)
Lemma stale_state_counterexample :
  let svc := run construct searched_x in
  current svc = Some three_for_x ∧
  searchTerm <$> current (step svc (Dispatch (newPage 1 first60))) =
    Some (Some "") ∧
  searchTerm <$> current (step svc (Dispatch (newPage 1 three_for_x))) =
    Some (Some "x") ∧
  step svc (Dispatch (newPage 1 first60)) ≠
    step svc (Dispatch (with_state (newPage 1 first60) three_for_x)).
Proof.
  split_and!; try (vm_compute; reflexivity).
  intros Heq. apply (f_equal (λ svc, searchTerm <$> current svc)) in Heq.
  vm_compute in Heq. discriminate.
Qed.

Lemma search_a_admissible :
  admissible_trace (λ ev, coherent named (event_state ev))
                   (honest_reply named) construct search_a.
Proof.
  split; [|split; [|split; [|exact I]]].
  - intros o [= <-] portion [= <-]. reflexivity.
  - intros i l Hl. simpl in Hl.
    apply lookup_singleton_Some in Hl as [<- <-]. reflexivity.
  - intros o Ho. vm_compute in Ho. injection Ho as <-.
    intros portion [= <-]. reflexivity.
Defined.

Lemma cache_invalidated_on_search_witness :
  coherent named one_named_a.
Proof.
  refine (proj1 (cache_invalidated_on_search named search_a
                   search_a_admissible) (FromEvent 0) one_named_a _).
  apply (list_elem_of_lookup_2 _ 2%nat). vm_compute. reflexivity.
Defined.

End Scenarios.

(** ** Further properties of the current engine *)

(** *** The display list *)

Section DisplayList.
Import Store Results.

Lemma concat_portions_Some (m : gmap Z (list Planet)) (idxs : list Z)
    (l : list Planet) :
  concat_portions m idxs = Some l → ∀ i, i ∈ idxs → is_Some (m !! i).
Proof.
  revert l. induction idxs as [|j idxs IH]; intros l Hc i Hi.
  - by apply elem_of_nil in Hi.
  - simpl in Hc. destruct (m !! j) as [q|] eqn:Hj; [|done]. simpl in Hc.
    destruct (concat_portions m idxs) as [l'|] eqn:Hl; [|done].
    apply elem_of_cons in Hi as [->|Hi]; [by rewrite Hj | by apply (IH l')].
Qed.

(** The portions [b], [b+1], ... of a list of results, [k] of them, put
    one after the other, are the next [10 * k] results from the start of
    portion [b]. *)
Lemma concat_portions_of (all : list Planet) (m : gmap Z (list Planet))
    (k : nat) (b : Z) :
  1 ≤ b →
  (∀ i, b ≤ i < b + Z.of_nat k → m !! i = Some (portion_of all i)) →
  concat_portions m (seqZ b (Z.of_nat k)) =
    Some (take (k * 10) (drop (Z.to_nat (10 * (b - 1))) all)).
Proof.
  revert b. induction k as [|k IH]; intros b Hb Hm.
  - by rewrite seqZ_nil.
  - rewrite seqZ_cons by lia. cbn [concat_portions].
    rewrite Hm by lia.
    replace (Z.pred (Z.of_nat (S k))) with (Z.of_nat k) by lia.
    assert (IH' := IH (Z.succ b)). rewrite IH'.
    2: lia. 2: { intros i Hi. apply Hm. lia. }
    cbn [mbind option_bind]. f_equal. unfold portion_of.
    replace (Z.to_nat (10 * (Z.succ b - 1)))
      with (Z.to_nat (10 * (b - 1)) + 10)%nat by lia.
    rewrite <- drop_drop.
    replace (S k * 10)%nat with (10 + k * 10)%nat by lia.
    by rewrite take_take_drop.
Qed.

Lemma slice_inside {A} (l : list A) (a b : Z) :
  0 ≤ a ≤ b → b ≤ Z.of_nat (length l) →
  Js.slice l a b = take (Z.to_nat (b - a)) (drop (Z.to_nat a) l).
Proof.
  intros Ha Hb. unfold Js.slice, Js.clamp_index.
  destruct (Z.ltb_spec a 0), (Z.ltb_spec b 0); try lia.
  by rewrite !Z.min_l by lia.
Qed.

Lemma take_drop_window {A} (l : list A) (d a m n : nat) :
  (a + n ≤ m)%nat →
  take n (drop a (take m (drop d l))) = take n (drop (d + a) l).
Proof.
  intros Hle. rewrite skipn_firstn_comm, take_take, drop_drop.
  f_equal. lia.
Qed.

(** The accessors of a state on a page of [1 .. pagesCount()]. *)
Lemma indices_of_page (s : State) (c pg : Z) :
  count s = Some c → page s = Some pg →
  0 < c → 0 < pageSize s → 1 ≤ pg → Js.gt pg (pagesCount s) = false →
  let bi := pageSize s * (pg - 1) in
  let ei := Z.min (pageSize s * pg) c in
  Js.eq0 (count s) = false ∧
  begIndex s = Some bi ∧ endIndex s = Some ei ∧
  begPortionIndex s = Some (bi / 10 + 1) ∧
  endPortionIndex s = Some ((ei - 1) / 10 + 1) ∧
  0 ≤ bi < ei ∧ ei ≤ c.
Proof.
  intros Hc Hp Hc0 Hps Hpg Hle bi ei.
  assert (E0 : Js.eq0 (count s) = false).
  { rewrite Hc. destruct c; done. }
  assert (Hin : bi < c).
  { unfold pagesCount in Hle. rewrite Hc in Hle.
    by apply page_starts_inside. }
  unfold begPortionIndex, endPortionIndex, begIndex, endIndex.
  rewrite E0, Hp, Hc. simpl. split_and!; try done; subst bi ei; nia.
Qed.

Lemma planetList_segment (s : State) (all : list Planet) (pg : Z) :
  count s = Some (Z.of_nat (length all)) → page s = Some pg →
  all ≠ [] → 0 < pageSize s → 1 ≤ pg → Js.gt pg (pagesCount s) = false →
  (∀ b e i, begPortionIndex s = Some b → endPortionIndex s = Some e →
            b ≤ i ≤ e → memoizedPortions s !! i = Some (portion_of all i)) →
  planetList s =
    Some (segment all (pageSize s * (pg - 1))
                  (Z.min (pageSize s * pg) (Z.of_nat (length all)))).
Proof.
  intros Hc Hp Hall Hps Hpg Hle Hm.
  set (bi := pageSize s * (pg - 1)).
  set (ei := Z.min (pageSize s * pg) (Z.of_nat (length all))).
  assert (Hn : 0 < Z.of_nat (length all)) by (destruct all; [done|simpl; lia]).
  destruct (indices_of_page s _ pg Hc Hp Hn Hps Hpg Hle)
    as (E0 & Hbi & Hei & Hb & He & Hlt & Hen).
  fold bi ei in Hbi, Hei, Hb, He, Hlt, Hen.
  set (lo := bi / 10 + 1) in *. set (hi := (ei - 1) / 10 + 1) in *.
  pose proof (Z.div_mod bi 10 ltac:(lia)) as Hd1.
  pose proof (Z.mod_pos_bound bi 10 ltac:(lia)) as Hr1.
  pose proof (Z.div_mod (ei - 1) 10 ltac:(lia)) as Hd2.
  pose proof (Z.mod_pos_bound (ei - 1) 10 ltac:(lia)) as Hr2.
  assert (Hlohi : lo ≤ hi).
  { subst lo hi. apply Z.add_le_mono_r, Z.div_le_mono; lia. }
  unfold planetList. rewrite E0, Hb, He. cbn [mbind option_bind].
  unfold loop_range.
  replace (hi - lo + 1) with (Z.of_nat (Z.to_nat (hi - lo + 1))) by lia.
  rewrite (concat_portions_of all); [|subst lo; lia|].
  2: { intros i Hi. apply (Hm lo hi); [done..|lia]. }
  cbn [mbind option_bind]. rewrite Hbi, Hei. cbn [mbind option_bind].
  f_equal. rewrite slice_inside.
  2: subst lo; lia.
  2: { rewrite length_take, length_drop. subst lo hi. lia. }
  unfold segment.
  replace (Z.to_nat (ei - 10 * (lo - 1) - (bi - 10 * (lo - 1))))
    with (Z.to_nat (ei - bi)) by lia.
  replace (Z.to_nat bi)
    with (Z.to_nat (10 * (lo - 1)) + Z.to_nat (bi - 10 * (lo - 1)))%nat
    by (subst lo; lia).
  apply take_drop_window. subst lo hi. lia.
Qed.

(** X1 (the display list is the page).  Let the memoized portions that a
    page of [1 .. pagesCount()] needs be the server-side pages of the full
    list of results, [count] being its length.  Then [planetList()] is the
    run of results from [begIndex()] up to [endIndex()]: it is not empty,
    and it has [pageSize] results, or what is left of the list on the
    last page. *)
Theorem planetList_is_segment (s : State) (all : list Planet) (pg : Z) :
  count s = Some (Z.of_nat (length all)) → page s = Some pg →
  all ≠ [] → 0 < pageSize s → 1 ≤ pg → Js.gt pg (pagesCount s) = false →
  (∀ b e i, begPortionIndex s = Some b → endPortionIndex s = Some e →
            b ≤ i ≤ e → memoizedPortions s !! i = Some (portion_of all i)) →
  let bi := pageSize s * (pg - 1) in
  let ei := Z.min (pageSize s * pg) (Z.of_nat (length all)) in
  planetList s = Some (segment all bi ei) ∧
  Z.of_nat (length (segment all bi ei)) = ei - bi ∧
  0 < ei - bi ≤ pageSize s.
Proof.
  intros Hc Hp Hall Hps Hpg Hle Hm bi ei.
  assert (Hn : 0 < Z.of_nat (length all)) by (destruct all; [done|simpl; lia]).
  destruct (indices_of_page s _ pg Hc Hp Hn Hps Hpg Hle)
    as (_ & _ & _ & _ & _ & Hlt & Hen).
  fold bi ei in Hlt, Hen.
  split_and!.
  - by apply planetList_segment.
  - unfold segment. rewrite length_take, length_drop. lia.
  - lia.
  - subst bi ei. nia.
Qed.

(** X2 ([planetList] throws exactly on a missing portion).
    [planetList()] returns if and only if every portion index of
    [[begPortionIndex(), endPortionIndex()]] is memoized; when [count] is 0
    nothing is needed and it returns the empty list. *)
Theorem planetList_returns_iff_complete (s : State) :
  (is_Some (planetList s) ↔ complete s) ∧
  (Js.eq0 (count s) = true → planetList s = Some []).
Proof.
  split; [split|].
  - intros [l Hl] b e i Hb He Hi. unfold planetList in Hl.
    destruct (Js.eq0 (count s)) eqn:E0.
    { by rewrite eq0_true_indices in Hb. }
    rewrite Hb, He in Hl. cbn [mbind option_bind] in Hl.
    destruct (concat_portions _ _) as [l'|] eqn:Hc; [|done].
    apply (concat_portions_Some _ _ _ Hc). by apply elem_of_loop_range.
  - apply planetList_complete.
  - intros E0. unfold planetList. by rewrite E0.
Qed.

(** X3 (the pages tile the results).  With [count > 0] and
    [pageSize > 0] there are [pagesCount() ≥ 1] pages; the first starts at
    index 0, each one ends where the next starts, the last ends at
    [count], and none is empty: every result is on exactly one page. *)
Theorem pages_tile_the_results (s : State) (c : Z) :
  count s = Some c → 0 < c → 0 < pageSize s →
  ∃ pc, pagesCount s = Js.Fin pc ∧ 1 ≤ pc ∧
    begIndex (set_page (Some 1) s) = Some 0 ∧
    endIndex (set_page (Some pc) s) = Some c ∧
    (∀ pg, 1 ≤ pg < pc →
       endIndex (set_page (Some pg) s) =
         begIndex (set_page (Some (pg + 1)) s)) ∧
    (∀ pg bi ei, 1 ≤ pg ≤ pc →
       begIndex (set_page (Some pg) s) = Some bi →
       endIndex (set_page (Some pg) s) = Some ei → bi < ei).
Proof.
  intros Hc Hc0 Hps. exists (- (- c / pageSize s)).
  pose proof (Z.div_mod (- c) (pageSize s) ltac:(lia)) as Hd.
  pose proof (Z.mod_pos_bound (- c) (pageSize s) Hps) as Hr.
  set (q := - c / pageSize s) in *.
  assert (E0 : Js.eq0 (Some c) = false) by (destruct c; done).
  unfold pagesCount, Js.ceil_div, begIndex, endIndex. simpl.
  rewrite Hc, E0. simpl.
  destruct (Z.eqb_spec (pageSize s) 0); [lia|].
  split_and!; try done.
  - nia.
  - f_equal. lia.
  - f_equal. nia.
  - intros pg Hpg. f_equal. nia.
  - intros pg bi ei Hpg [= <-] [= <-]. nia.
Qed.


End DisplayList.

(** *** Joins and frames *)

Section Joins.
Import Store Browsing.

Lemma store_portions_other (idxs : list Z) (arrived : gmap Z (list Planet))
    (base : State) (i : Z) :
  i ∉ idxs →
  memoizedPortions (store_portions base idxs arrived) !! i =
    memoizedPortions base !! i.
Proof.
  revert base. induction idxs as [|j idxs IH]; intros base Hi; [done|].
  apply not_elem_of_cons in Hi as [Hne Hi].
  unfold store_portions in *. simpl.
  destruct (arrived !! j); rewrite IH by done; [|done].
  simpl. by rewrite lookup_insert_ne.
Qed.

Lemma store_portions_new (idxs : list Z) (arrived : gmap Z (list Planet))
    (base : State) (i : Z) (l : list Planet) :
  i ∈ idxs → arrived !! i = Some l →
  memoizedPortions (store_portions base idxs arrived) !! i = Some l.
Proof.
  revert base. induction idxs as [|j idxs IH]; intros base Hi Ha.
  - by apply elem_of_nil in Hi.
  - unfold store_portions in *. simpl.
    destruct (decide (i ∈ idxs)) as [Hin|Hout].
    + destruct (arrived !! j); by apply IH.
    + apply elem_of_cons in Hi as [->|Hi]; [|done]. rewrite Ha.
      fold (store_portions
              (set_memoizedPortions (<[j:=l]> (memoizedPortions base)) base)
              idxs arrived).
      rewrite store_portions_other by done. simpl.
      by rewrite lookup_insert_eq.
Qed.

Lemma replies_cons (o : Obs) (i : Z) (r : option PlanetsPortion)
    (rs : list (Z * option PlanetsPortion)) :
  replies o ((i, r) :: rs) = replies (respond o i r).1 rs.
Proof. reflexivity. Qed.

Lemma replies_Of (s : State) (rs : list (Z * option PlanetsPortion)) :
  replies (Of s) rs = Of s.
Proof. by induction rs. Qed.

(** A join that waits for exactly the indices of [rs], each once, ends
    when the last of them has arrived, whatever their order. *)
Lemma replies_join (base : State) (idxs : list Z)
    (rs : list (Z * PlanetsPortion)) (arrived : gmap Z (list Planet)) :
  NoDup rs.*1 → rs ≠ [] →
  (∀ i, i ∈ rs.*1 ↔ i ∈ idxs ∧ arrived !! i = None) →
  replies (ForkJoin base idxs arrived) (successes rs) =
    Of (store_portions base idxs (brought rs ∪ arrived)).
Proof.
  revert arrived. induction rs as [|[i q] rs IH]; intros arrived Hnd Hne Hin;
    [done|].
  apply NoDup_cons in Hnd as [Hi Hnd].
  assert (Hawait : i ∈ idxs ∧ arrived !! i = None) by (apply Hin; left).
  unfold replies, successes. simpl. rewrite decide_True by done.
  fold (replies) (successes rs).
  assert (Hb : brought ((i, q) :: rs) ∪ arrived =
               brought rs ∪ <[i:=results q]> arrived).
  { unfold brought. simpl. rewrite <- insert_union_l.
    rewrite insert_union_r; [done|].
    apply not_elem_of_list_to_map_1. by rewrite <- list_fmap_compose. }
  destruct rs as [|jq rs'].
  - assert (Hall : all_arrived idxs (<[i:=results q]> arrived) = true).
    { apply all_arrived_spec. intros j Hj. rewrite lookup_insert.
      case_decide; [done|].
      destruct (arrived !! j) eqn:E; [done|].
      assert (j ∈ [(i, q)].*1) as Hj' by by apply Hin.
      apply list_elem_of_singleton in Hj'. done. }
    rewrite Hall, Hb. unfold brought. simpl.
    by rewrite (left_id_L ∅ (∪)).
  - assert (Hall : all_arrived idxs (<[i:=results q]> arrived) = false).
    { apply not_true_iff_false. rewrite all_arrived_spec. intros Hall.
      assert (jq.1 ∈ idxs ∧ arrived !! jq.1 = None) as [Hj1 Hj2]
        by (apply Hin; right; left).
      destruct (Hall _ Hj1) as [l Hl]. rewrite lookup_insert in Hl.
      case_decide; [|congruence]. subst. apply Hi. left. }
    rewrite Hall. rewrite Hb. apply (IH _ Hnd); [done|].
    intros j. rewrite lookup_insert. split.
    + intros Hj. assert (j ∈ ((i, q) :: jq :: rs').*1) as Hj' by by right.
      apply Hin in Hj' as [? ?]. split; [done|].
      case_decide; [|done]. subst. done.
    + intros [Hj1 Hj2]. case_decide; [done|].
      assert (j ∈ ((i, q) :: jq :: rs').*1) as Hj' by by apply Hin.
      apply elem_of_cons in Hj' as [?|?]; [done|done].
Qed.

Lemma makeNewStateObservable_cases (base : State) :
  makeNewStateObservable base = (Of base, []) ∨
  ∃ b e, begPortionIndex base = Some b ∧ endPortionIndex base = Some e ∧
         missing base b e ≠ [] ∧
         makeNewStateObservable base =
           (ForkJoin base (missing base b e) ∅,
            (λ i, (i, searchTerm base)) <$> missing base b e).
Proof.
  unfold makeNewStateObservable.
  destruct (Js.eq0 (count base)) eqn:E0; [by left|].
  destruct (eq0_false_indices base E0) as (b & e & _ & _ & Hb & He & _).
  rewrite Hb, He. destruct (missing base b e) eqn:Hm; [by left|].
  right. exists b, e. rewrite Hm. by split_and!.
Qed.

Lemma extends_refl (s : State) : extends s s.
Proof. by split_and!. Qed.

Lemma extends_store_portions (s base : State) (idxs : list Z)
    (arrived : gmap Z (list Planet)) :
  extends s base → (∀ i, i ∈ idxs → memoizedPortions base !! i = None) →
  extends s (store_portions base idxs arrived).
Proof.
  intros (Hps & Ht & Hp & Hc & He & Hi & Hm) Hnone.
  destruct (store_portions_fields idxs arrived base)
    as (Hps' & Ht' & Hp' & Hc' & He' & Hi').
  split_and!; try congruence.
  intros i l Hl. rewrite store_portions_other; [by apply Hm|].
  intros Hin. apply Hm in Hl. rewrite (Hnone _ Hin) in Hl. done.
Qed.

(** X5 (a join does not depend on the order of the replies).  When
    [makeNewStateObservable] has sent requests and each is answered once,
    successfully, the state emitted is the same for every order of
    arrival: it extends the base state by exactly the results brought,
    each under its index, and every portion of its page is memoized. *)
Theorem join_ignores_arrival_order (base : State)
    (rs1 rs2 : list (Z * PlanetsPortion)) :
  (makeNewStateObservable base).2 ≠ [] →
  rs1 ≡ₚ rs2 → rs1.*1 ≡ₚ (makeNewStateObservable base).2.*1 →
  let o := (makeNewStateObservable base).1 in
  replies o (successes rs1) = replies o (successes rs2) ∧
  ∃ s, replies o (successes rs1) = Of s ∧
       extends base s ∧
       (∀ i q, (i, q) ∈ rs1 → memoizedPortions s !! i = Some (results q)) ∧
       (∀ i, i ∉ rs1.*1 → memoizedPortions s !! i = memoizedPortions base !! i) ∧
       complete s.
Proof.
  destruct (makeNewStateObservable_cases base)
    as [->|(b & e & Hb & He & Hne & ->)]; [done|].
  simpl. intros _ Hperm Hidx.
  set (idxs := missing base b e) in *.
  rewrite <- list_fmap_compose in Hidx.
  assert (Hid : (fst ∘ (λ i : Z, (i, searchTerm base))) <$> idxs = idxs).
  { apply list_fmap_id. }
  rewrite Hid in Hidx. clear Hid.
  assert (Hnd : NoDup idxs) by apply NoDup_filter, NoDup_seqZ.
  assert (Hnd1 : NoDup rs1.*1) by by rewrite Hidx.
  assert (Hnd2 : NoDup rs2.*1) by by rewrite <- Hperm.
  assert (Hne1 : rs1 ≠ []).
  { intros ->. apply Permutation_nil_l in Hidx. done. }
  assert (Hne2 : rs2 ≠ []).
  { intros ->. by apply Permutation_nil_r in Hperm. }
  assert (Hb12 : brought rs1 = brought rs2).
  { unfold brought. apply list_to_map_proper.
    - by rewrite <- list_fmap_compose.
    - by rewrite Hperm. }
  rewrite (replies_join base idxs rs1 ∅), (replies_join base idxs rs2 ∅);
    try done.
  2: { intros i. rewrite <- Hperm, Hidx, lookup_empty. tauto. }
  2: { intros i. rewrite Hidx, lookup_empty. tauto. }
  rewrite Hb12. split; [done|]. eexists. split; [done|].
  rewrite <- Hb12. rewrite (right_id_L ∅ (∪)).
  assert (Hnone : ∀ i, i ∈ idxs → memoizedPortions base !! i = None).
  { intros i Hi. by apply elem_of_missing in Hi as [_ ?]. }
  assert (Hnew : ∀ i q, (i, q) ∈ rs1 →
            memoizedPortions (store_portions base idxs (brought rs1)) !! i =
              Some (results q)).
  { intros i q Hiq. apply store_portions_new.
    - rewrite <- Hidx. apply list_elem_of_fmap. by exists (i, q).
    - unfold brought. apply elem_of_list_to_map_1.
      + by rewrite <- list_fmap_compose.
      + apply list_elem_of_fmap. by exists (i, q). }
  split_and!.
  - apply extends_store_portions; [apply extends_refl | done].
  - done.
  - intros i Hi. apply store_portions_other. by rewrite <- Hidx.
  - intros b' e' i Hb' He' Hi.
    destruct (store_portions_fields idxs (brought rs1) base)
      as (Hps & _ & Hp & Hc & _).
    destruct (portion_indices_ext _ _ Hps Hp Hc) as [Eb Ee].
    rewrite Eb, Hb in Hb'. rewrite Ee, He in He'.
    injection Hb' as <-. injection He' as <-.
    destruct (memoizedPortions base !! i) as [l|] eqn:Hl.
    + by apply store_portions_keeps.
    + assert (i ∈ rs1.*1) as Hin.
      { rewrite Hidx. by apply elem_of_missing. }
      apply list_elem_of_fmap in Hin as [[i' q] [Heq Hq]].
      simpl in Heq. subst i'. rewrite (Hnew _ _ Hq). eauto.
Qed.

Lemma makeNewStateObservable_framed (base : State) :
  framed base (makeNewStateObservable base).1.
Proof.
  destruct (makeNewStateObservable_cases base)
    as [->|(b & e & Hb & He & Hne & ->)]; simpl.
  - right. apply extends_refl.
  - split; [apply extends_refl|].
    intros i Hi. by apply elem_of_missing in Hi as [_ ?].
Qed.

Lemma respond_framed (s : State) (o : Obs) (i : Z)
    (r : option PlanetsPortion) :
  framed s o → framed s (respond o i r).1.
Proof.
  destruct o as [s' | state term | base idxs arrived]; simpl; [done..|].
  intros [Hext Hnone]. case_decide; [|done].
  destruct r as [portion|]; [|by left].
  destruct (all_arrived _ _); simpl; [|done].
  right. by apply extends_store_portions.
Qed.

Lemma replies_framed (s : State) (rs : list (Z * option PlanetsPortion))
    (o : Obs) :
  framed s o → framed s (replies o rs).
Proof.
  revert o. induction rs as [|[i r] rs IH]; intros o Ho; [done|].
  simpl. apply IH. by apply respond_framed.
Qed.

Lemma framed_emits (s s' : State) (rs : list (Z * option PlanetsPortion))
    (o : Obs) :
  framed s o → replies o rs = Of s' → error s' = false → extends s s'.
Proof.
  intros Ho Hrs He. pose proof (replies_framed s rs o Ho) as H.
  rewrite Hrs in H. destruct H as [->|?]; done.
Qed.

(** X6 (changing the page or its size keeps the search).  For a state
    that is neither an error nor initial, every state that is not the
    error state which the observable of a page-size event emits has the
    new page size, page 1, and the search term and count of the state; for
    a page event it has the page asked for (1 when that is above
    [pagesCount()]) and the page size of the state.  In both cases every
    portion memoized in the state, at an array index, is still memoized,
    unchanged. *)
Theorem paging_keeps_the_search (s : State) (n : Z) :
  error s = false → initial s = false → constructed s →
  (∃ o reqs,
     project (changePageSize n s) = Some (o, reqs) ∧
     ∀ rs s', replies o rs = Of s' → error s' = false →
       pageSize s' = n ∧ page s' = Some 1 ∧
       searchTerm s' = searchTerm s ∧ count s' = count s ∧
       initial s' = false ∧
       ∀ i l, 0 ≤ i < 2 ^ 32 - 1 → memoizedPortions s !! i = Some l →
              memoizedPortions s' !! i = Some l) ∧
  (∃ o reqs,
     project (newPage n s) = Some (o, reqs) ∧
     ∀ rs s', replies o rs = Of s' → error s' = false →
       pageSize s' = pageSize s ∧
       page s' = Some (if Js.gt n (pagesCount s) then 1 else n) ∧
       searchTerm s' = searchTerm s ∧ count s' = count s ∧
       initial s' = false ∧
       ∀ i l, 0 ≤ i < 2 ^ 32 - 1 → memoizedPortions s !! i = Some l →
              memoizedPortions s' !! i = Some l).
Proof.
  intros He Hi Hc. split.
  - rewrite (project_constructed (changePageSize n s)) by done. simpl.
    unfold __changePageSize. simpl. rewrite He, Hi. simpl.
    set (base := set_page _ _).
    destruct (makeNewStateObservable base) as [o reqs] eqn:Ho.
    exists o, reqs. split; [done|]. intros rs s' Hrs Hs'.
    assert (Hf : framed base o).
    { replace o with (makeNewStateObservable base).1 by by rewrite Ho.
      apply makeNewStateObservable_framed. }
    destruct (framed_emits base s' rs o Hf Hrs Hs')
      as (? & ? & ? & ? & ? & Hin & Hm).
    split_and!; try done.
    + by rewrite Hin.
    + intros i l Hil Hl. apply Hm. simpl. by rewrite spread_lookup.
  - rewrite (project_constructed (newPage n s)) by done. simpl.
    unfold __newPage. simpl. rewrite He, Hi. simpl.
    set (base := set_page _ _).
    destruct (makeNewStateObservable base) as [o reqs] eqn:Ho.
    exists o, reqs. split; [done|]. intros rs s' Hrs Hs'.
    assert (Hf : framed base o).
    { replace o with (makeNewStateObservable base).1 by by rewrite Ho.
      apply makeNewStateObservable_framed. }
    destruct (framed_emits base s' rs o Hf Hrs Hs')
      as (? & ? & ? & ? & ? & Hin & Hm).
    split_and!; try done.
    + by rewrite Hin.
    + intros i l Hil Hl. apply Hm. simpl. by rewrite spread_lookup.
Qed.

(** X7 (what a search yields).  A search is accepted on every state that
    can be copied, flagged or not: it waits for portion 1 of its term.
    Every state that is not the error state which it emits after the
    reply for portion 1 has [error] and [initial] false, the term
    searched, page 1, the count of that reply and the page size of the
    state the search was dispatched with; portion 1 of the reply is
    memoized when the count is positive. *)
Theorem search_yields (s : State) (term : string) :
  constructed s →
  ∃ st,
    project (search term s) = Some (AwaitFirst st term, [(1, Some term)]) ∧
    ∀ portion rs s',
      replies (AwaitFirst st term) ((1, Some portion) :: rs) = Of s' →
      error s' = false →
      initial s' = false ∧
      searchTerm s' = Some term ∧ page s' = Some 1 ∧
      count s' = Some (portion_count portion) ∧
      pageSize s' = pageSize s ∧
      (0 < portion_count portion →
       memoizedPortions s' !! 1 = Some (results portion)).
Proof.
  intros Hc. eexists. split.
  { rewrite (project_constructed (search term s)) by done. reflexivity. }
  intros portion rs s' Hrs Hs'. rewrite replies_cons in Hrs.
  match type of Hrs with
  | replies (respond (AwaitFirst ?st _) _ _).1 _ = _ =>
      change (respond (AwaitFirst st term) 1 (Some portion))
        with (search_reply st term (Some portion)) in Hrs
  end.
  unfold search_reply in Hrs.
  destruct (resetMemoizedPortions _) as [st|] eqn:Hreset.
  2: { unfold errorStateObservable in Hrs. simpl in Hrs.
       rewrite replies_Of in Hrs. by injection Hrs as <-. }
  unfold resetMemoizedPortions in Hreset.
  destruct (Js.array_length_ok _); [|done]. injection Hreset as <-.
  match type of Hrs with
  | replies (makeNewStateObservable ?b).1 _ = _ => set (base := b) in *
  end.
  destruct (framed_emits base s' rs _ (makeNewStateObservable_framed base)
              Hrs Hs') as (Hps & Ht & Hp & Hcount & He & Hi & Hm).
  subst base. destruct (0 <? portion_count portion) eqn:Hpos; simpl in *.
  - split_and!; try done. intros _. apply Hm. by rewrite lookup_insert_eq.
  - split_and!; try done. intros ?%Z.ltb_lt. congruence.
Qed.

(** X8 (edges of a search reply).  A reply with count 0 ends the search
    at once: no further request, nothing memoized, an empty display list.
    A reply whose count does not fit an array length (a [RangeError] in
    [resetMemoizedPortions]) ends it in the error state, like a failed
    request. *)
Theorem search_reply_edges (state : State) (term : string)
    (portion : PlanetsPortion) :
  (portion_count portion = 0 →
   ∃ s', search_reply state term (Some portion) = (Of s', []) ∧
         memoizedPortions s' = ∅ ∧ count s' = Some 0 ∧
         planetList s' = Some []) ∧
  (Js.array_length_ok (- (- portion_count portion / 10) + 1) = false →
   search_reply state term (Some portion) = (Of errState, [])) ∧
  search_reply state term None = (Of errState, []).
Proof.
  split_and!; [| |done].
  - intros H0. unfold search_reply, resetMemoizedPortions, portionsCount.
    simpl. rewrite H0. simpl. eexists. by split_and!.
  - intros Hbad. unfold search_reply, resetMemoizedPortions, portionsCount.
    simpl. by rewrite Hbad.
Qed.

Lemma complete_emits (base : State) :
  complete base → makeNewStateObservable base = (Of base, []).
Proof.
  intros Hc. destruct (makeNewStateObservable_cases base)
    as [->|(b & e & Hb & He & Hne & _)]; [done|].
  destruct Hne. apply missing_nil. intros i Hi. by apply (Hc b e).
Qed.

(** X9 (a smaller page size needs no request).  For a state that is
    neither an error nor initial and whose first page is memoized, as in
    every published state, a page-size event for a positive size not
    above the current one is resolved from the copy of the state: no
    request is sent, and a service that listens publishes the state with
    the new size on page 1 at once. *)
Theorem smaller_page_size_needs_no_fetch (svc : PlanetsStoreService)
    (s : State) (n : Z) :
  error s = false → initial s = false → constructed s →
  first_page_ready s → 0 < n ≤ pageSize s →
  let s' := set_page (Some 1)
              (set_pageSize n
                 (set_memoizedPortions (spread (memoizedPortions s)) s)) in
  let svc' := step svc (Dispatch (changePageSize n s)) in
  project (changePageSize n s) = Some (Of s', []) ∧
  http svc' = http svc ∧
  (listening svc = true →
   state_log svc' = state_log svc ++ [(FromEvent (index svc), s')]).
Proof.
  intros He Hi Hc Hr Hn s' svc'.
  assert (Hp : project (changePageSize n s) = Some (Of s', [])).
  { rewrite (project_constructed (changePageSize n s)) by done. simpl.
    unfold __changePageSize. simpl. rewrite He, Hi. simpl. f_equal.
    apply complete_emits. intros b e i Hb He' Hi'.
    unfold begPortionIndex, endPortionIndex, begIndex, endIndex in Hb, He'.
    simpl in Hb, He'.
    destruct (Js.eq0 (count s)) eqn:E0; [done|]. simpl in Hb, He'.
    injection Hb as <-. injection He' as <-. rewrite Z.mul_0_r in Hi'.
    simpl in Hi'. simpl.
    set (c := Js.num (count s)) in *.
    set (e := (Z.min (pageSize s * 1) c - 1) / 10 + 1).
    assert (Hee : (Z.min (n * 1) c - 1) / 10 + 1 ≤ e).
    { subst e. apply Z.add_le_mono_r, Z.div_le_mono; lia. }
    assert (He1 : endPortionIndex (set_page (Some 1) s) = Some e).
    { unfold endPortionIndex, endIndex. simpl. by rewrite E0. }
    assert (Hb1 : begPortionIndex (set_page (Some 1) s) = Some 1).
    { unfold begPortionIndex, begIndex. simpl. rewrite E0. simpl.
      by rewrite Z.mul_0_r. }
    pose proof (end_portion_bound (set_page (Some 1) s) e Hc He1).
    change (0 `div` 10) with 0 in Hi'.
    rewrite spread_lookup by lia. apply (Hr 1 e); [done..|lia]. }
  split_and!; [done| |].
  - unfold svc'. simpl. rewrite Hp.
    destruct (listening svc); simpl; [by rewrite app_nil_r | done].
  - intros Hl. unfold svc'. simpl. by rewrite Hl, Hp.
Qed.

End Joins.

(** *** The stream of states *)

Section Stream.
Import Store Browsing.

Lemma step_grows (svc : PlanetsStoreService) (x : Input) :
  state_log svc `prefix_of` state_log (step svc x) ∧
  http svc `prefix_of` http (step svc x) ∧
  (index svc ≤ index (step svc x))%nat.
Proof.
  destruct (step_Step svc x); simpl; split_and!;
    try done; try (by apply prefix_app_r); lia.
Qed.

Lemma once_step (svc : PlanetsStoreService) (x : Input) :
  switching svc →
  (is_Some (boot svc) → ∀ s, (Constructor, s) ∉ state_log svc) →
  NoDup (state_log svc).*1 →
  (is_Some (boot (step svc x)) →
   ∀ s, (Constructor, s) ∉ state_log (step svc x)) ∧
  NoDup (state_log (step svc x)).*1.
Proof.
  intros [Hin Hlog] Hboot Hnd.
  destruct (step_Step svc x); simpl; try done; split;
    try done; try (by intros [? ?]); try (intros _; apply Hboot; by eauto).
  all: try (intros Hb s' [Hs|Hs%list_elem_of_singleton]%elem_of_app;
            [by apply (Hboot Hb s') | done]).
  all: rewrite fmap_app; apply NoDup_app;
    (split_and!; [done| |apply NoDup_singleton]);
    intros o' Ho' ->%list_elem_of_singleton;
    apply list_elem_of_fmap in Ho' as [[o'' s'] [Heq Hs]];
    simpl in Heq; subst o''.
  - destruct (Hlog _ _ Hs). lia.
  - apply (Hboot ltac:(eauto) s'). done.
  - destruct (Hlog _ _ Hs) as [_ Hlt].
    match goal with H : inner _ = Some _ |- _ => specialize (Hlt _ _ H) end.
    lia.
Qed.

(** X10 (the stream of states only grows, one state per origin).  Along
    every run the values of [state$] and the requests sent are only added
    to, never changed or withdrawn; and in a run from the constructor no
    origin publishes twice: there is one initial value, at most one state
    of the constructor's search, and at most one state per event. *)
Theorem stream_grows_once_per_origin (tr tr' : list Input) :
  let svc := run construct tr in
  state_log svc `prefix_of` state_log (run svc tr') ∧
  http svc `prefix_of` http (run svc tr') ∧
  NoDup (state_log svc).*1.
Proof.
  simpl. split_and!.
  - generalize (run construct tr). induction tr' as [|x tr' IH]; intros svc;
      [done|]. rewrite run_cons. etrans; [|apply IH]. apply step_grows.
  - generalize (run construct tr). induction tr' as [|x tr' IH]; intros svc;
      [done|]. rewrite run_cons. etrans; [|apply IH]. apply step_grows.
  - assert (H : switching (run construct tr) ∧
                (is_Some (boot (run construct tr)) →
                 ∀ s, (Constructor, s) ∉ state_log (run construct tr)) ∧
                NoDup (state_log (run construct tr)).*1); [|tauto].
    induction tr as [|x tr IH] using rev_ind.
    + split_and!; [apply switching_construct| |apply NoDup_singleton].
      intros _ s Hs%list_elem_of_singleton. done.
    + rewrite run_snoc. destruct IH as (Hsw & Hb & Hnd).
      split; [by apply switching_step | by apply once_step].
Qed.

(** X11 (dispatching published states keeps the service alive).  When
    every event carries a state that the service has published, every
    published state can be copied and, unless flagged, shows its first
    page; so no projection throws: once the first search is over the
    service listens, and goes on listening. *)
Theorem echoing_keeps_listening (tr : list Input) :
  echoing construct tr →
  let svc := run construct tr in
  (∀ o s, (o, s) ∈ state_log svc → well_kept s) ∧
  (boot svc = None → listening svc = true) ∧
  (∀ ev, event_state ev ∈ (state_log svc).*2 → is_Some (project ev)).
Proof.
  intros Htr.
  assert (H : invariant well_kept keeping (run construct tr) ∧
              settled (run construct tr)).
  { revert Htr. generalize construct_keeping.
    assert (Hs0 : settled construct) by done. revert Hs0.
    generalize construct. induction tr as [|x tr IH];
      intros svc Hs Hinv Htr; [done|].
    destruct Htr as [Hx Htr]. rewrite run_cons.
    assert (Hev : ∀ ev, x = Dispatch ev → well_kept (event_state ev)).
    { intros ev ->. destruct Hinv as (Hlog & _).
      apply list_elem_of_fmap in Hx as [[o s] [-> Hin]]. by apply (Hlog o). }
    apply IH; [| |done].
    - apply settled_step; [|done]. intros ev Hx'. by apply Hev.
    - apply (invariant_step well_kept keeping
               (λ ev, well_kept (event_state ev)) (λ _ _ _, True)); try done.
      + intros ev o reqs. apply project_keeping.
      + intros o i r _. apply respond_keeping.
      + destruct x as [ev|[|k] i r]; simpl; [by apply Hev|done..]. }
  destruct H as [(Hlog & _) Hs]. simpl. split_and!; [done..|].
  intros ev [[o s] [Heq Hin]]%list_elem_of_fmap.
  destruct (Hlog _ _ Hin) as [Hc _]. simpl in Heq. subst s.
  rewrite project_constructed by done. eauto.
Qed.

End Stream.

(** ** Further properties of the first engine *)

Section PortionCache.
Import Legacy Calls.

Lemma serve_cache (svc : PlanetsService) (c : Call) :
  cache_of_last_term svc ∧ ranked svc →
  cache_of_last_term (serve svc c) ∧ ranked (serve svc c).
Proof.
  intros [Hinv Hrk]. destruct c as [pg search|obs]; simpl.
  - split; [by apply legacy_getPlanetsPortion_url|].
    unfold getPlanetsPortion.
    destruct (decide (search = lastSearched svc)) as [->|Hne].
    + destruct (planetsPortionsCache svc !! pg) as [obs|] eqn:Hc; [done|].
      intros pg' obs'. simpl. rewrite lookup_insert, length_app. simpl.
      case_decide; [intros [= <-]; simpl; lia|].
      intros Hl. specialize (Hrk _ _ Hl). lia.
    + simpl. rewrite lookup_empty. intros pg' obs'. simpl.
      rewrite lookup_insert, length_app. simpl.
      case_decide; [intros [= <-]; simpl; lia | by rewrite lookup_empty].
  - split; [by apply legacy_requestFailed_cache|].
    intros pg obs'. simpl. rewrite lookup_delete.
    case_decide; [done | apply Hrk].
Qed.

Lemma served_cache (calls : list Call) :
  cache_of_last_term (served calls) ∧ ranked (served calls).
Proof.
  unfold served. induction calls as [|c calls IH] using rev_ind.
  - split; [apply legacy_cache_new|]. intros pg obs. simpl.
    by rewrite lookup_empty.
  - rewrite foldl_app. simpl. by apply serve_cache.
Qed.

Lemma getPlanetsPortion_cached (svc : PlanetsService) (pg : Z)
    (search : option string) :
  let r := getPlanetsPortion pg search svc in
  planetsPortionsCache r.2 !! pg = Some r.1 ∧
  (created r.2 = created svc ∨ created r.2 = created svc ++ [(pg, search)]).
Proof.
  unfold getPlanetsPortion.
  destruct (decide (search = lastSearched svc)) as [->|Hne].
  - destruct (planetsPortionsCache svc !! pg) as [obs|] eqn:Hc; simpl.
    + by split; [|left].
    + rewrite lookup_insert_eq. by split; [|right].
  - simpl. rewrite lookup_empty. simpl. rewrite lookup_insert_eq.
    by split; [|right].
Qed.

(** X12 (the portion cache of the first service).  After any calls and
    failures, [getPlanetsPortion] returns an observable for the page and
    the term asked for, never one of another term; asking again at once
    returns the same observable and creates nothing; a call creates at
    most one observable; and a call for another term than the last leaves
    that one observable alone in the cache. *)
Theorem portion_cache_serves_the_request (calls : list Call) (pg : Z)
    (search : option string) :
  let svc := served calls in
  let '(obs, svc1) := getPlanetsPortion pg search svc in
  url_page obs = pg ∧ url_search obs = search ∧
  lastSearched svc1 = search ∧
  getPlanetsPortion pg search svc1 = (obs, svc1) ∧
  (created svc1 = created svc ∨
   created svc1 = created svc ++ [(pg, search)]) ∧
  (search ≠ lastSearched svc → planetsPortionsCache svc1 = {[ pg := obs ]}).
Proof.
  simpl. destruct (served_cache calls) as [Hinv _].
  pose proof (legacy_getPlanetsPortion_url (served calls) pg search Hinv)
    as (Hpg & Hs & Hlast & _).
  pose proof (getPlanetsPortion_cached (served calls) pg search)
    as [Hhit Hcr].
  destruct (getPlanetsPortion pg search (served calls)) as [obs svc1] eqn:E.
  simpl in *. split_and!; try done.
  - by apply legacy_cache_hit.
  - intros Hne. rewrite legacy_term_change in E by done.
    by injection E as <- <-.
Qed.

(** X13 (a failed portion is asked for again).  When an observable that
    the service returned fails, the entry of its page is removed from the
    cache and no other; the next call for that page and term creates a new
    observable, which sends a new request.  The entry goes whatever term
    the failed observable asked for. *)
Theorem failed_portion_is_retried (calls : list Call) (pg : Z)
    (search : option string) :
  let svc := served calls in
  let '(obs, svc1) := getPlanetsPortion pg search svc in
  let svc2 := requestFailed obs svc1 in
  planetsPortionsCache svc2 !! pg = None ∧
  (∀ pg', pg' ≠ pg →
     planetsPortionsCache svc2 !! pg' = planetsPortionsCache svc1 !! pg') ∧
  (∃ obs', getPlanetsPortion pg search svc2 =
             (obs', mkPlanetsService search
                      (<[pg := obs']> (planetsPortionsCache svc2))
                      (created svc1 ++ [(pg, search)])) ∧
           (rank obs < rank obs')%nat ∧
           url_page obs' = pg ∧ url_search obs' = search) ∧
  (∀ other, url_page other = pg →
     planetsPortionsCache (requestFailed other svc1) !! pg = None).
Proof.
  simpl. destruct (serve_cache (served calls) (Get pg search)
                     (served_cache calls)) as [Hinv Hrk].
  pose proof (legacy_getPlanetsPortion_url (served calls) pg search
                (proj1 (served_cache calls))) as (Hpg & Hs & Hlast & _).
  pose proof (getPlanetsPortion_cached (served calls) pg search)
    as [Hhit _].
  simpl in Hinv, Hrk.
  destruct (getPlanetsPortion pg search (served calls)) as [obs svc1] eqn:E.
  simpl in *. split_and!.
  - by rewrite Hpg, lookup_delete_eq.
  - intros pg' Hne. rewrite Hpg. by rewrite lookup_delete_ne.
  - eexists. split_and!.
    + unfold getPlanetsPortion. simpl. rewrite decide_True by done.
      simpl. rewrite Hpg, lookup_delete_eq. by rewrite Hlast.
    + simpl. by apply (Hrk pg).
    + done.
    + done.
  - intros other <-. simpl. by rewrite lookup_delete_eq.
Qed.

Lemma getPlanetsPortions_keeps (idxs : list Z) (search : option string)
    (svc : PlanetsService) :
  lastSearched svc = search →
  let r := getPlanetsPortions idxs search svc in
  lastSearched r.2 = search ∧
  (∀ i o, planetsPortionsCache svc !! i = Some o →
          planetsPortionsCache r.2 !! i = Some o) ∧
  Forall2 (λ i o, planetsPortionsCache r.2 !! i = Some o) idxs r.1.
Proof.
  revert svc. induction idxs as [|i idxs IH]; intros svc Hs; simpl.
  { by split_and!. }
  pose proof (getPlanetsPortion_cached svc i search) as [Hhit _].
  assert (Hkeep : lastSearched (getPlanetsPortion i search svc).2 = search ∧
                  ∀ j o, planetsPortionsCache svc !! j = Some o →
                    planetsPortionsCache (getPlanetsPortion i search svc).2
                      !! j = Some o).
  { unfold getPlanetsPortion. rewrite decide_True by done.
    destruct (planetsPortionsCache svc !! i) as [o|] eqn:Hc; simpl; [done|].
    split; [done|]. intros j o Hj. rewrite lookup_insert_ne; [done|].
    intros ->. congruence. }
  destruct Hkeep as [Hs1 Hkeep].
  destruct (getPlanetsPortion i search svc) as [obs svc1]. simpl in *.
  destruct (IH svc1 Hs1) as (Hs2 & Hkeep2 & Hall).
  destruct (getPlanetsPortions idxs search svc1) as [more svc2]. simpl in *.
  split_and!; [done|by eauto|]. constructor; [by apply Hkeep2|done].
Qed.

Lemma getPlanetsPortions_hits (idxs : list Z) (search : option string)
    (svc : PlanetsService) (obs : list PortionObservable) :
  lastSearched svc = search →
  Forall2 (λ i o, planetsPortionsCache svc !! i = Some o) idxs obs →
  getPlanetsPortions idxs search svc = (obs, svc).
Proof.
  intros Hs Hall. induction Hall as [|i o idxs obs Hi Hall IH]; [done|].
  simpl. rewrite (legacy_cache_hit svc i search o) by done. by rewrite IH.
Qed.

Lemma getPlanetsPortions_again (idxs : list Z) (search : option string)
    (svc : PlanetsService) :
  let r := getPlanetsPortions idxs search svc in
  getPlanetsPortions idxs search r.2 = r.
Proof.
  destruct idxs as [|i idxs]; [done|]. simpl.
  pose proof (getPlanetsPortion_cached svc i search) as [Hhit _].
  assert (Hs1 : lastSearched (getPlanetsPortion i search svc).2 = search).
  { unfold getPlanetsPortion. case_decide; repeat case_match; by subst. }
  destruct (getPlanetsPortion i search svc) as [obs svc1]. simpl in *.
  pose proof (getPlanetsPortions_keeps idxs search svc1 Hs1)
    as (Hs2 & Hkeep & Hall).
  destruct (getPlanetsPortions idxs search svc1) as [more svc2]. simpl in *.
  rewrite (legacy_cache_hit svc2 i search obs) by eauto.
  by rewrite (getPlanetsPortions_hits idxs search svc2 more).
Qed.

Lemma getPlanetsPortions_term (idxs : list Z) (search : option string)
    (svc : PlanetsService) :
  cache_of_last_term svc →
  Forall (λ o, url_search o = search) (getPlanetsPortions idxs search svc).1.
Proof.
  revert svc. induction idxs as [|i idxs IH]; intros svc Hinv; simpl; [done|].
  destruct (legacy_getPlanetsPortion_url svc i search Hinv)
    as (_ & Hs & _ & Hinv').
  destruct (getPlanetsPortion i search svc) as [obs svc1]. simpl in *.
  specialize (IH svc1 Hinv').
  destruct (getPlanetsPortions idxs search svc1) as [more svc2]. simpl in *.
  by constructor.
Qed.

(** X19 (turning to a page again creates no observable).  Whatever the
    cache holds, the observables that [makeCompleteNewStateObservable]
    gets from the service for a state are returned again, and none is
    created, when the same is asked once more; so are those of
    [newPageAction] and [changePageSizeAction]. *)
Theorem revisit_creates_no_observable (this : State) (n : Z)
    (svc : PlanetsService) :
  (let r := makeCompleteNewStateObservable this svc in
   makeCompleteNewStateObservable this r.2 = r) ∧
  (let r := newPageAction this n svc in newPageAction this n r.2 = r) ∧
  (let r := changePageSizeAction this n svc in
   changePageSizeAction this n r.2 = r).
Proof.
  assert (H : ∀ s, let r := makeCompleteNewStateObservable s svc in
                   makeCompleteNewStateObservable s r.2 = r).
  { intros s. unfold makeCompleteNewStateObservable. simpl.
    destruct (Js.eq0 (count s)); [done|].
    destruct (begPortionIndex _) as [b|]; [|done].
    destruct (endPortionIndex _) as [e|]; [|done].
    pose proof (getPlanetsPortions_again (seqZ b (e - b + 1)) (searchTerm s)
                  svc) as Hagain. simpl in *.
    destruct (getPlanetsPortions _ _ svc) as [obs svc1]. simpl in *.
    destruct obs; simpl; by rewrite Hagain. }
  split_and!; [apply H| |].
  - simpl. unfold newPageAction. destruct (error this || initial this);
      [done|]. apply H.
  - simpl. unfold changePageSizeAction.
    destruct (error this || initial this); [done|]. apply H.
Qed.

End PortionCache.

(** ** Properties of the components *)

Section Components.
Import Store App.

Local Arguments Store.step : simpl never.

Lemma paged_errState : paged errState.
Proof. rewrite errState_eq. split; [done|]. simpl. done. Qed.

Lemma makeNewStateObservable_paging (base : State) :
  paged base → paging (makeNewStateObservable base).1.
Proof.
  intros Hp. destruct (makeNewStateObservable_cases base)
    as [->|(b & e & _ & _ & _ & ->)]; done.
Qed.

Lemma respond_paging (o : Obs) (i : Z) (r : option PlanetsPortion) :
  counted r → paging o → paging (respond o i r).1.
Proof.
  intros Hr Ho. destruct o as [s|st term|base idxs arrived]; simpl.
  - done.
  - case_decide; [|done]. unfold search_reply.
    destruct r as [portion|]; [|apply paged_errState].
    specialize (Hr portion eq_refl).
    destruct (resetMemoizedPortions _) as [st'|] eqn:Hreset;
      [|apply paged_errState].
    unfold resetMemoizedPortions in Hreset.
    case_match; [|done]. injection Hreset as <-.
    apply makeNewStateObservable_paging.
    split; [by destruct (0 <? portion_count portion)|].
    intros _ _. exists 1, (portion_count portion).
    destruct (0 <? portion_count portion); simpl; split_and!; eauto; lia.
  - case_decide; [|done].
    destruct r as [portion|]; [|apply paged_errState].
    destruct (all_arrived _ _); [|done]. simpl.
    pose proof (store_portions_fields idxs
                  (<[i:=results portion]> arrived) base)
      as (Hps & _ & Hpg & Hc & He & Hi).
    unfold paged, Store.pagesCount in *. simpl in *.
    rewrite Hps, Hpg, Hc, He, Hi. done.
Qed.

Lemma project_paging (ev : Event) (o : Obs) (reqs : list Request) :
  paged (event_state ev) → mannered ev → project ev = Some (o, reqs) →
  paging o.
Proof.
  intros Hp Hm Hproj.
  assert (Hc : constructed (event_state ev)).
  { unfold project in Hproj.
    destruct (copyOf (event_state ev)) as [st|] eqn:Hcp; [|done].
    by apply copyOf_Some in Hcp. }
  rewrite project_constructed in Hproj by done.
  injection Hproj as Hh. destruct Hp as [Hps Hp].
  destruct ev as [term s|pg s|n s]; simpl in *.
  - unfold __search in Hh. injection Hh as <- _. done.
  - unfold __newPage in Hh. simpl in Hh.
    destruct (error s || initial s) eqn:Hf.
    { injection Hh as <- _. apply paged_errState. }
    apply orb_false_elim in Hf as [He Hi].
    destruct (Hp He Hi) as (pg0 & c & Hpg0 & Hc0 & Hc1 & _).
    assert (Ho : o = (makeNewStateObservable
                        (set_page
                           (Some (if Js.gt pg (Store.pagesCount s)
                                  then 1 else pg))
                           (set_memoizedPortions
                              (spread (memoizedPortions s)) s))).1).
    { unfold Store.pagesCount in *. simpl in *. by rewrite Hh. }
    rewrite Ho. apply makeNewStateObservable_paging.
    split; [done|]. intros _ _. eexists _, c. simpl.
    split_and!; [done|done|done|by case_match|].
    unfold Store.pagesCount. simpl.
    destruct (Js.gt pg _) eqn:Hgt; [by right|by left].
  - unfold __changePageSize in Hh. simpl in Hh.
    destruct (error s || initial s) eqn:Hf.
    { injection Hh as <- _. apply paged_errState. }
    apply orb_false_elim in Hf as [He Hi].
    destruct (Hp He Hi) as (pg0 & c & Hpg0 & Hc0 & Hc1 & _).
    assert (Ho : o = (makeNewStateObservable
                        (set_page (Some 1)
                           (set_pageSize n
                              (set_memoizedPortions
                                 (spread (memoizedPortions s)) s)))).1).
    { by rewrite Hh. }
    rewrite Ho. apply makeNewStateObservable_paging.
    split; [done|]. intros _ _. exists 1, c. simpl.
    split_and!; eauto; lia.
Qed.

Lemma slice_length {A} (l : list A) (a b : Z) :
  0 ≤ a ≤ b → Z.of_nat (length (Js.slice l a b)) ≤ b - a.
Proof.
  intros Hab. unfold Js.slice, Js.clamp_index.
  rewrite length_take, length_drop.
  repeat case_match; lia.
Qed.

Lemma pagesCount_Fin (s : State) (c : Z) :
  0 < pageSize s → count s = Some c →
  Store.pagesCount s = Js.Fin (- ((- c) / pageSize s)).
Proof.
  intros Hps Hc. unfold Store.pagesCount, Js.ceil_div. rewrite Hc. simpl.
  destruct (pageSize s =? 0) eqn:E; [lia|done].
Qed.

Lemma planetList_length (s : State) (l : list Planet) :
  paged s → error s = false → initial s = false →
  Store.planetList s = Some l → Z.of_nat (length l) ≤ pageSize s.
Proof.
  intros [Hps Hp] He Hi Hl. destruct (Hp He Hi)
    as (pg & c & Hpg & Hc & Hc0 & Hpg1 & Hin).
  unfold Store.planetList in Hl.
  destruct (Js.eq0 (count s)) eqn:E0.
  { injection Hl as <-. simpl. lia. }
  destruct (eq0_false_indices s E0) as (b & e & bi & ei & Hb & He' & Hbi & Hei).
  rewrite Hb, He', Hbi, Hei in Hl. simpl in Hl.
  destruct (concat_portions _ _) as [l0|]; [|done]. simpl in Hl.
  injection Hl as <-.
  unfold begPortionIndex, begIndex, endIndex in Hb, Hbi, Hei.
  rewrite E0, Hpg, Hc in *. simpl in *.
  injection Hbi as <-. injection Hei as <-. injection Hb as <-.
  assert (c ≠ 0) by (by intros ->).
  assert (Hle : pageSize s * (pg - 1) ≤ Z.min (pageSize s * pg) c).
  { destruct Hin as [Hgt| ->]; [|lia].
    rewrite (pagesCount_Fin s c) in Hgt by done. simpl in Hgt.
    apply Z.ltb_ge in Hgt.
    assert (pageSize s * (pg - 1) < c); [|nia].
    pose proof (Z.div_mod (- c) (pageSize s) ltac:(lia)).
    pose proof (Z.mod_pos_bound (- c) (pageSize s) ltac:(lia)). nia. }
  pose proof (Z.div_mod (pageSize s * (pg - 1)) 10 ltac:(lia)).
  pose proof (Z.mod_pos_bound (pageSize s * (pg - 1)) 10 ltac:(lia)).
  etrans; [apply slice_length|]; [|nia]. lia.
Qed.

Lemma next_ready (s : State) (c : ResultsPage.ResultsComponent) (pg n : Z) :
  error s = false → initial s = false → 0 < pageSize s →
  page s = Some pg → count s = Some n →
  let pc := - ((- n) / pageSize s) in
  let beg := Z.max (pg - 3) 1 in
  let size := Z.min (pg + 3) pc - beg + 1 in
  ResultsPage.next s c =
    l ← Store.planetList s;
    if Js.array_length_ok size then
      Some (ResultsPage.mkResults "ready" (Some s) (Some l)
              (Some (Store.pagesCount s)) (Some (seqZ beg size))
              (Some (if bool_decide (searchTerm s = Some "")
                     then "All results"
                     else if 0 <? n
                          then "Results for: " +:+ default "null" (searchTerm s)
                          else "No results for: " +:+
                               default "null" (searchTerm s))))
    else None.
Proof.
  intros He Hi Hps Hpg Hc. simpl. unfold ResultsPage.next. rewrite He, Hi.
  destruct (Store.planetList s) as [l|]; [|done]. simpl.
  unfold ResultsPage.updatePagesInterval. simpl.
  rewrite (pagesCount_Fin s n), Hpg, Hc by done. simpl.
  case_match; [|done]. do 3 f_equal.
  replace (seqZ (Z.max (pg - 3) 1)) with (seqZ (Z.max (pg - 3) 1 + 0))
    by (f_equal; lia).
  rewrite <- fmap_add_seqZ. apply list_fmap_ext. intros ? ? _. lia.
Qed.

(** The subscriber of the results page, run on a state the service keeps,
    returns, and the page then shows that state. *)
Lemma next_shows (s : State) (c : ResultsPage.ResultsComponent) :
  publishable s → paged s →
  ∃ c', ResultsPage.next s c = Some c' ∧ shows c' s.
Proof.
  intros Hpub Hpaged.
  destruct (error s) eqn:He.
  { unfold ResultsPage.next. rewrite He.
    eexists. split; [done|]. split_and!; simpl; try done. congruence. }
  destruct (initial s) eqn:Hi.
  { unfold ResultsPage.next. rewrite He, Hi.
    eexists. split; [done|]. split_and!; simpl; try done; congruence. }
  destruct Hpub as [?|[?|Hcomplete]]; [congruence..|].
  destruct (planetList_complete s Hcomplete) as [l Hl].
  pose proof (planetList_length s l Hpaged He Hi Hl) as Hlen.
  destruct Hpaged as [Hps Hp].
  destruct (Hp He Hi) as (pg & n & Hpg & Hc & Hc0 & Hpg1 & Hin).
  rewrite (next_ready s c pg n), Hl by done. simpl.
  rewrite (pagesCount_Fin s n) in Hin by done. simpl in Hin.
  set (pc := - (- n / pageSize s)) in *.
  assert (Hpc : 0 ≤ pc).
  { pose proof (Z.div_mod (- n) (pageSize s) ltac:(lia)).
    pose proof (Z.mod_pos_bound (- n) (pageSize s) ltac:(lia)).
    unfold pc. nia. }
  assert (Hsize : 0 ≤ Z.min (pg + 3) pc - Z.max (pg - 3) 1 + 1 ≤ 7).
  { destruct Hin as [Hgt%Z.ltb_ge| ->]; lia. }
  unfold Js.array_length_ok.
  destruct ((0 <=? _) && (_ <? 2 ^ 32)) eqn:Hok.
  2: { apply andb_false_iff in Hok as [?%Z.leb_gt|?%Z.ltb_ge]; lia. }
  eexists. split; [done|]. split_and!; simpl; try done; [congruence|].
  intros _ _. split_and!; try done.
  - eauto.
  - eexists. split; [done|]. rewrite length_seqZ.
    split_and!.
    + lia.
    + intros p Hp'%elem_of_seqZ. split; [lia|].
      rewrite (pagesCount_Fin s n) by done. apply Z.ltb_ge. fold pc. lia.
    + intros pg' Hpg'. rewrite (pagesCount_Fin s n) by done.
      intros Hgt%Z.ltb_ge. fold pc in Hgt.
      assert (pg' = pg) as -> by congruence.
      apply elem_of_seqZ. lia.
Qed.

Lemma deliver_all (ss : list State) (app0 : App) :
  (∀ s, s ∈ ss → kept s) →
  ∃ app', foldl (λ a s, a ≫= deliver s) (Some app0) ss = Some app' ∧
    store app' = store app0 ∧
    (ss = [] → app' = app0) ∧
    (∀ s, last ss = Some s →
       (∀ c, resultsComponent app' = Some c → shows c s) ∧
       (∀ c, settingsComponent app' = Some c →
             SettingsPanel.state c = Some s)).
Proof.
  induction ss as [|s ss IH] using rev_ind; intros Hss.
  { exists app0. by split_and!. }
  destruct IH as (app1 & Hfold & Hstore & _ & _).
  { intros s' Hs'. apply Hss, elem_of_app. by left. }
  rewrite foldl_app, Hfold. simpl. unfold deliver.
  assert (Hs : kept s).
  { apply Hss, elem_of_app. right. by apply list_elem_of_singleton. }
  destruct (resultsComponent app1) as [c|] eqn:Hc; simpl.
  - destruct (next_shows s c) as (c' & -> & Hshows); [apply Hs..|]. simpl.
    eexists. split; [done|]. simpl. split_and!; [done|by destruct ss|].
    intros s'. rewrite last_snoc. intros [= <-]. split.
    + by intros ? [= <-].
    + intros c0. destruct (settingsComponent app1); simpl; [|done].
      by intros [= <-].
  - eexists. split; [done|]. simpl. split_and!; [done|by destruct ss|].
    intros s'. rewrite last_snoc. intros [= <-]. split; [done|].
    intros c0. destruct (settingsComponent app1); simpl; [|done].
    by intros [= <-].
Qed.

Lemma settle_sound (app : App) (svc' : PlanetsStoreService) :
  sound app → state_log (store app) `prefix_of` state_log svc' →
  invariant kept keeps svc' → settled svc' →
  ∃ app', settle app svc' = Some app' ∧ sound app' ∧ store app' = svc'.
Proof.
  intros (_ & _ & Hsome & Hres & Hset) [k Hk] Hinv Hsettled. unfold settle.
  rewrite Hk, drop_app_length.
  destruct (deliver_all (k.*2) (mkApp svc' (resultsComponent app)
                                     (settingsComponent app)))
    as (app' & -> & Hstore & Hnil & Hlast).
  { intros s [[o s'] [-> Hin]]%list_elem_of_fmap.
    destruct Hinv as (Hlog & _). apply (Hlog o). rewrite Hk.
    apply elem_of_app. by right. }
  exists app'. split; [done|]. simpl in Hstore. split; [|done].
  unfold sound. rewrite Hstore. split_and!; [done..| | |].
  - unfold current in *. rewrite Hk, last_app.
    destruct (last k); simpl; eauto.
  - intros c Hc. destruct (last k) as [[o s]|] eqn:Hl.
    + exists s. split.
      * unfold current. rewrite Hk, last_app, Hl. done.
      * apply Hlast; [|done]. by rewrite fmap_last, Hl.
    + apply last_None in Hl. subst k. rewrite Hnil in Hc by done.
      simpl in Hc. destruct (Hres c Hc) as (s & Hcur & Hshows).
      exists s. split; [|done]. unfold current in *.
      by rewrite Hk, app_nil_r.
  - intros c Hc. destruct (last k) as [[o s]|] eqn:Hl.
    + assert (Hcur : current svc' = Some s).
      { unfold current. by rewrite Hk, last_app, Hl. }
      rewrite Hcur. apply Hlast; [|done].
      by rewrite fmap_last, Hl.
    + apply last_None in Hl. subst k. rewrite Hnil in Hc by done.
      simpl in Hc. unfold current in *. rewrite Hk, app_nil_r.
      by apply Hset.
Qed.

Lemma kept_step (svc : PlanetsStoreService) (x : Store.Input) :
  invariant kept keeps svc →
  admissible (λ ev, kept (event_state ev) ∧ mannered ev)
             (λ _ _ r, counted r) svc x →
  invariant kept keeps (Store.step svc x).
Proof.
  apply (invariant_step kept keeps
           (λ ev, kept (event_state ev) ∧ mannered ev) (λ _ _ r, counted r)).
  - by intros s (? & ? & ?).
  - intros ev' o reqs [(Hwk & _ & Hp) Hm'] Hproj. split_and!.
    + by apply (project_keeping ev' o reqs).
    + by apply (project_resolving ev' o reqs).
    + by apply (project_paging ev' o reqs).
  - intros o i r Hr (? & ? & ?). split_and!.
    + by apply respond_keeping.
    + by apply respond_resolving.
    + by apply respond_paging.
Qed.

Lemma current_kept (svc : PlanetsStoreService) (s : State) :
  invariant kept keeps svc → current svc = Some s → kept s.
Proof.
  intros (Hlog & _) Hcur. unfold current in Hcur.
  destruct (last (state_log svc)) as [[o s']|] eqn:Hl; [|done].
  simpl in Hcur. injection Hcur as ->. apply (Hlog o).
  apply last_Some in Hl as [l' ->]. apply elem_of_app. right.
  by apply list_elem_of_singleton.
Qed.

Lemma dispatch_sound (app : App) (ev : Event) :
  sound app → mannered ev →
  current (store app) = Some (event_state ev) →
  ∃ app', emit app (Some ev) = Some app' ∧ sound app' ∧
          store app' = Store.step (store app) (Dispatch ev).
Proof.
  intros Hsound Hm Hcur. pose proof Hsound as (Hinv & Hsettled & _).
  pose proof (current_kept _ _ Hinv Hcur) as Hkept.
  unfold emit. apply settle_sound; [done|apply step_grows| |].
  - by apply kept_step.
  - apply settled_step; [|done]. intros ev' [= <-].
    by destruct Hkept as ([? _] & _).
Qed.

(** What a step of the application does to the service: nothing, or a
    step of the service on an event that carries its current state, or on
    a reply. *)
Lemma step_sound (app : App) (x : App.Input) :
  sound app → polite x →
  ∃ app', App.step app x = Some app' ∧ sound app' ∧
    (store app' = store app ∨
     (∃ ev, mannered ev ∧ current (store app) = Some (event_state ev) ∧
            store app' = Store.step (store app) (Dispatch ev)) ∨
     (∃ sub i r, x = Transport sub i r ∧
                 store app' = Store.step (store app) (Response sub i r))).
Proof.
  intros Hsound Hx.
  pose proof Hsound as (Hinv & Hsettled & [s0 Hcur] & Hres & Hset).
  destruct x as [| | | |value|pg|n|sub i r]; unfold App.step.
  - rewrite Hcur. simpl.
    destruct (next_shows s0 ResultsPage.created) as (c & -> & Hshows);
      [apply (current_kept _ _ Hinv Hcur)..|].
    simpl. eexists. split; [done|]. split; [|by left].
    split_and!; simpl; try done. intros c' [= <-]. eauto.
  - eexists. split; [done|]. split; [|by left]. by split_and!.
  - rewrite Hcur. simpl. eexists. split; [done|]. split; [|by left].
    split_and!; simpl; eauto. by intros c [= <-].
  - eexists. split; [done|]. split; [|by left]. by split_and!.
  - destruct (resultsComponent app) as [c|] eqn:Hc; [|by eauto].
    destruct (Hres c eq_refl) as (s & Hcur' & Hs & _).
    unfold ResultsPage.search. rewrite Hs. simpl.
    destruct (dispatch_sound app (search value s)) as (app' & ? & ? & ?);
      [done..|]. exists app'. split_and!; [done..|]. right. left.
    by exists (search value s).
  - destruct (resultsComponent app) as [c|] eqn:Hc; [|by eauto].
    destruct (Hres c eq_refl) as (s & Hcur' & Hs & _).
    unfold ResultsPage.newPage. rewrite Hs. simpl.
    destruct (dispatch_sound app (newPage pg s)) as (app' & ? & ? & ?);
      [done..|]. exists app'. split_and!; [done..|]. right. left.
    by exists (newPage pg s).
  - destruct (settingsComponent app) as [c|] eqn:Hc; [|by eauto].
    pose proof (Hset c eq_refl) as Hs.
    unfold SettingsPanel.save, SettingsPanel.changePageSize.
    rewrite Hs, Hcur. simpl. case_bool_decide; simpl; [|by eauto].
    destruct (dispatch_sound app (changePageSize n s0))
      as (app' & ? & ? & ?); [done..|].
    exists app'. split_and!; [done..|]. right. left.
    by exists (changePageSize n s0).
  - destruct (settle_sound app (Store.step (store app) (Response sub i r)))
      as (app' & ? & ? & ?); [done|apply step_grows| | |].
    + apply kept_step; [done|]. destruct sub; simpl; intros o _;
        intros portion ->; done.
    + by apply settled_step.
    + exists app'. split_and!; [done..|]. right. right. eauto.
Qed.

Lemma start_sound : sound start.
Proof.
  destruct construct_keeping as (Hk1 & Hk2 & Hk3).
  destruct construct_resolving as (Hr1 & Hr2 & Hr3).
  split_and!; simpl; try done.
  - split_and!.
    + intros o s Hin. split_and!; [by apply (Hk1 o)|by apply (Hr1 o)|].
      apply list_elem_of_singleton in Hin as [= _ ->]. by split.
    + intros o Ho. split_and!; [by apply Hk2|by apply Hr2|].
      by injection Ho as <-.
    + done.
Qed.

Lemma run_sound (tr : list App.Input) :
  Forall polite tr → ∃ app, App.run tr = Some app ∧ sound app.
Proof.
  induction tr as [|x tr IH] using rev_ind; intros Htr.
  { exists start. split; [done|apply start_sound]. }
  apply Forall_app in Htr as [Htr Hx]. rewrite Forall_singleton in Hx.
  destruct (IH Htr) as (app & Hrun & Hsound).
  unfold App.run in *. rewrite foldl_app, Hrun. simpl.
  destruct (step_sound app x) as (app' & ? & ? & _); eauto.
Qed.

(** X14 (what the subscriber of the results page does with a state).
    For a state that is not flagged, with a positive page size, a count
    that is not negative and a page from 1 on, the subscriber throws
    exactly when a portion of the page is not memoized or the page lies
    more than four past the last one; when it returns the page is ready,
    the title tells the term, the interval runs from [max(page - 3, 1)] to
    [min(page + 3, pagesCount)], and for a page in range the list shown is
    the one of the state, of at most [pageSize] planets. *)
Theorem results_page_next (s : State) (c : ResultsPage.ResultsComponent)
    (pg n : Z) :
  error s = false → initial s = false → 0 < pageSize s →
  page s = Some pg → count s = Some n → 0 ≤ n → 1 ≤ pg →
  let pc := - ((- n) / pageSize s) in
  Store.pagesCount s = Js.Fin pc ∧
  (is_Some (ResultsPage.next s c) ↔ complete s ∧ pg ≤ pc + 4) ∧
  (∀ c', ResultsPage.next s c = Some c' →
     ResultsPage.componentState c' = "ready" ∧
     ResultsPage.title c' =
       Some (if bool_decide (searchTerm s = Some "") then "All results"
             else if 0 <? n
                  then "Results for: " +:+ default "null" (searchTerm s)
                  else "No results for: " +:+ default "null" (searchTerm s)) ∧
     ResultsPage.pagesInterval c' =
       Some (seqZ (Z.max (pg - 3) 1)
                  (Z.min (pg + 3) pc - Z.max (pg - 3) 1 + 1)) ∧
     (pg ≤ pc ∨ pg = 1 → shows c' s)).
Proof.
  intros He Hi Hps Hpg Hc Hn Hpg1 pc.
  assert (Hpc : 0 ≤ pc).
  { pose proof (Z.div_mod (- n) (pageSize s) ltac:(lia)).
    pose proof (Z.mod_pos_bound (- n) (pageSize s) ltac:(lia)).
    unfold pc. nia. }
  pose proof (next_ready s c pg n He Hi Hps Hpg Hc) as Hnext.
  simpl in Hnext. fold pc in Hnext.
  split_and!.
  - by apply pagesCount_Fin.
  - rewrite Hnext. split.
    + intros [c' Hc']. destruct (Store.planetList s) as [l|] eqn:Hl; [|done].
      simpl in Hc'. split.
      * intros b e i Hb Hend Hi'. unfold Store.planetList in Hl.
        destruct (Js.eq0 (count s)) eqn:E0.
        { by rewrite eq0_true_indices in Hb. }
        rewrite Hb, Hend in Hl. cbn [mbind option_bind] in Hl.
        destruct (concat_portions _ _) as [l'|] eqn:Hcat; [|done].
        apply (concat_portions_Some _ _ _ Hcat). by apply elem_of_loop_range.
      * unfold Js.array_length_ok in Hc'.
        destruct (0 <=? _) eqn:E; [|done]. apply Z.leb_le in E. lia.
    + intros [Hcomplete Hle].
      destruct (planetList_complete s Hcomplete) as [l ->]. simpl.
      unfold Js.array_length_ok.
      destruct ((0 <=? _) && (_ <? 2 ^ 32)) eqn:Hok; [done|].
      apply andb_false_iff in Hok as [?%Z.leb_gt|?%Z.ltb_ge]; lia.
  - intros c' Hc'. pose proof Hc' as Hc''. rewrite Hnext in Hc'.
    destruct (Store.planetList s) as [l|] eqn:Hl; [|done]. simpl in Hc'.
    case_match; [|done]. injection Hc' as <-. simpl.
    split_and!; try done. intros Hin.
    destruct (next_shows s c) as (c2 & Hc2 & Hshows).
    + right. right. intros b e i Hb Hend Hi'. unfold Store.planetList in Hl.
      destruct (Js.eq0 (count s)) eqn:E0.
      { by rewrite eq0_true_indices in Hb. }
      rewrite Hb, Hend in Hl. cbn [mbind option_bind] in Hl.
      destruct (concat_portions _ _) as [l'|] eqn:Hcat; [|done].
      apply (concat_portions_Some _ _ _ Hcat). by apply elem_of_loop_range.
    + split; [done|]. intros _ _. exists pg, n. split_and!; try done.
      rewrite (pagesCount_Fin s n) by done. simpl. fold pc.
      destruct Hin; [left; apply Z.ltb_ge; lia | by right].
    + rewrite Hc'' in Hc2. by injection Hc2 as <-.
Qed.

(** X15 (the components follow the service).  Components are created and
    destroyed, the user searches, turns pages from 1 on and saves positive
    page sizes through the components on screen, and the transport
    answers with counts that are not negative.  Then no callback throws;
    the service, once its first search is over, listens; every component
    on screen holds the state the service published last, and the results
    page shows it; and saving the page size in force changes nothing. *)
Theorem components_follow_the_service (tr : list App.Input) :
  Forall polite tr →
  ∃ app s, App.run tr = Some app ∧ current (store app) = Some s ∧
    (boot (store app) = None → listening (store app) = true) ∧
    (∀ c, resultsComponent app = Some c → shows c s) ∧
    (∀ c, settingsComponent app = Some c →
          SettingsPanel.state c = Some s) ∧
    (App.step app (Saves (pageSize s)) = Some app).
Proof.
  intros Htr.
  destruct (run_sound tr Htr) as (app & Hrun & Hinv & Hs & [s Hcur] & Hr & Hset).
  exists app, s. split_and!; try done.
  - intros c Hc. destruct (Hr c Hc) as (s' & Hcur' & Hshows). congruence.
  - intros c Hc. rewrite <- Hcur. by apply Hset.
  - unfold App.step. destruct (settingsComponent app) as [c|] eqn:Hc; [|done].
    unfold SettingsPanel.save. rewrite (Hset c eq_refl), Hcur. simpl.
    by rewrite bool_decide_eq_false_2 by (intros ?; done).
Qed.

End Components.

(** ** Properties of the details of a planet *)

Section Details.
Import Items JsString.

Lemma units_append (s1 s2 : string) : units (s1 +:+ s2) = units s1 ++ units s2.
Proof.
  unfold units. induction s1 as [|a s1 IH]; simpl; [done|]. by rewrite IH.
Qed.

Lemma last_index_absent (c : Ascii.ascii) (l : list Ascii.ascii) :
  c ∉ l → last_index c l = -1.
Proof.
  induction l as [|a l IH]; intros Hc; [done|]. simpl.
  rewrite IH by (intros ?; apply Hc; by right). simpl.
  rewrite bool_decide_eq_false_2; [done|]. intros ->. apply Hc. by left.
Qed.

Lemma last_index_bound (c : Ascii.ascii) (l : list Ascii.ascii) :
  -1 ≤ last_index c l < Z.of_nat (length l).
Proof.
  induction l as [|a l IH]; simpl; [lia|].
  destruct (0 <=? last_index c l) eqn:E; [lia|].
  case_bool_decide; lia.
Qed.

Lemma last_index_app (c : Ascii.ascii) (l1 l2 : list Ascii.ascii) :
  c ∉ l2 → last_index c (l1 ++ c :: l2) = Z.of_nat (length l1).
Proof.
  intros Hc. induction l1 as [|a l1 IH]; simpl.
  - rewrite last_index_absent by done. simpl.
    by rewrite bool_decide_eq_true_2.
  - rewrite IH. destruct (0 <=? _) eqn:E; [lia|]. apply Z.leb_gt in E. lia.
Qed.

Lemma substring_units (s : string) (a b : Z) :
  0 ≤ a ≤ b → b ≤ Z.of_nat (length (units s)) →
  units (substring s a b) =
    take (Z.to_nat (b - a)) (drop (Z.to_nat a) (units s)).
Proof.
  intros Hab Hb. unfold substring.
  rewrite String.list_ascii_of_string_of_list_ascii.
  by replace (Z.max 0 (Z.min a _)) with a by lia;
     replace (Z.max 0 (Z.min b _)) with b by lia;
     replace (Z.max a b) with b by lia; replace (Z.min a b) with a by lia.
Qed.

Lemma units_inj (s1 s2 : string) : units s1 = units s2 → s1 = s2.
Proof.
  intros H. rewrite <- (String.string_of_list_ascii_of_string s1),
    <- (String.string_of_list_ascii_of_string s2). unfold units in H.
  by rewrite H.
Qed.

(** X16 (the id of the details page).  [goToDetailsPage] drops the last
    character of the planet's url, whatever it is, and hands the router
    what follows the last slash of the rest: for the url
    [.../planets/<id>/] that is the id, for a url without a final slash
    the id less its last character, and for a url with one slash at most,
    at its end, the whole of it but the last character. *)
Theorem details_id_of_url (pre id : string) (c : Ascii.ascii) :
  slash ∉ units id →
  ResultsPage.goToDetailsPage
    (mkPlanet (pre +:+ String slash id +:+ String c "")) = id ∧
  ResultsPage.goToDetailsPage (mkPlanet (id +:+ String c "")) = id ∧
  ResultsPage.goToDetailsPage (mkPlanet "") = "".
Proof.
  intros Hid. split_and!; [| |done].
  - apply units_inj. unfold ResultsPage.goToDetailsPage. simpl.
    set (u := pre +:+ String slash id +:+ String c "").
    assert (Hu : units u = units pre ++ slash :: units id ++ [c]).
    { unfold u. by rewrite !units_append. }
    assert (Hcut : units (substring u 0 (Z.of_nat (length (units u)) - 1)) =
                   units pre ++ slash :: units id).
    { rewrite substring_units.
      2: { rewrite Hu, length_app. simpl. lia. }
      2: lia.
      rewrite Hu. simpl.
      replace (units pre ++ slash :: units id ++ [c])
        with ((units pre ++ slash :: units id) ++ [c])
        by (by rewrite <- app_assoc).
      change (Z.to_nat 0) with 0%nat. rewrite drop_0.
      apply take_app_length'. rewrite (length_app _ [c]). simpl. lia. }
    unfold substring_from, lastIndexOf. rewrite Hcut.
    rewrite last_index_app by done.
    rewrite substring_units; rewrite ?Hcut.
    2: rewrite length_app; simpl; lia.
    2: lia.
    replace (Z.to_nat (Z.of_nat (length (units pre)) + 1))
      with (length (units pre ++ [slash])) by (rewrite length_app; simpl; lia).
    replace (units pre ++ slash :: units id)
      with ((units pre ++ [slash]) ++ units id)
      by (by rewrite <- app_assoc).
    rewrite drop_app_length. apply take_ge.
    rewrite !length_app. simpl. lia.
  - apply units_inj. unfold ResultsPage.goToDetailsPage. simpl.
    set (u := id +:+ String c "").
    assert (Hu : units u = units id ++ [c]).
    { unfold u. by rewrite units_append. }
    assert (Hcut : units (substring u 0 (Z.of_nat (length (units u)) - 1)) =
                   units id).
    { rewrite substring_units.
      2: { rewrite Hu, length_app. simpl. lia. }
      2: lia.
      rewrite Hu. change (Z.to_nat 0) with 0%nat. rewrite drop_0.
      apply take_app_length'. rewrite length_app. simpl. lia. }
    unfold substring_from, lastIndexOf. rewrite Hcut.
    rewrite last_index_absent by done.
    change (-1 + 1) with 0.
    rewrite substring_units; rewrite ?Hcut; [|lia..].
    change (Z.to_nat 0) with 0%nat. rewrite drop_0. apply take_ge. lia.
Qed.

Lemma serve_own (svc : Items.PlanetsService) (c : Items.Call) :
  own svc → own (Items.serve svc c).
Proof.
  intros Hown. destruct c as [id|o]; simpl.
  - unfold getPlanet.
    destruct (planetsCache svc !! id) as [o|] eqn:Hc; [done|].
    case_bool_decide as Hin; [done|]. simpl.
    intros id' o'. simpl. rewrite lookup_insert, length_app. simpl.
    case_decide as Heq.
    + intros [= <-]. subst id'. simpl. split_and!; try done. lia.
    + intros Hl. destruct (Hown _ _ Hl) as (? & ? & ? & ?).
      split_and!; try done. lia.
  - intros id o'. simpl. rewrite lookup_delete.
    case_decide; [done|apply Hown].
Qed.

Lemma served_own (calls : list Items.Call) : own (Items.served calls).
Proof.
  unfold Items.served. induction calls as [|c calls IH] using rev_ind.
  - intros id o. simpl. by rewrite lookup_empty.
  - rewrite foldl_app. simpl. by apply serve_own.
Qed.

(** X17 (the cache of single planets).  After any calls and failures,
    [getPlanet] of an id that names no inherited property returns an
    observable for the url of that id and leaves the entries of the other
    ids alone; asked again it returns the same observable and creates
    none; once that observable has failed the entry is gone and the next
    call creates a new observable.  For the name of an inherited property
    no observable is ever created: the inherited value is returned. *)
Theorem planet_cache_shares_requests (calls : list Items.Call) (id : string) :
  id ∉ Object_prototype →
  let svc := Items.served calls in
  (∃ o svc1, getPlanet id svc = (Observable o, svc1) ∧
     planet_url o = baseUrl +:+ id ∧
     getPlanet id svc1 = (Observable o, svc1) ∧
     (created svc1 = created svc ∨
      created svc1 = created svc ++ [baseUrl +:+ id]) ∧
     (∀ id', id' ≠ id → planetsCache svc1 !! id' = planetsCache svc !! id') ∧
     let svc2 := Items.requestFailed o svc1 in
     planetsCache svc2 !! id = None ∧
     ∃ o', getPlanet id svc2 =
             (Observable o',
              Items.mkPlanetsService (<[id := o']> (planetsCache svc2))
                                     (created svc1 ++ [baseUrl +:+ id])) ∧
           (planet_rank o < planet_rank o')%nat ∧
           planet_url o' = baseUrl +:+ id) ∧
  (∀ name, name ∈ Object_prototype →
           getPlanet name svc = (Inherited name, svc)).
Proof.
  intros Hid. simpl. pose proof (served_own calls) as Hown. split.
  - pose proof (serve_own _ (Get id) Hown) as Hown1. simpl in Hown1.
    unfold getPlanet in *.
    destruct (planetsCache (Items.served calls) !! id) as [o|] eqn:Hc.
    + destruct (Hown _ _ Hc) as (Hoid & Hurl & Hrk & _).
      exists o, (Items.served calls). rewrite Hc.
      split_and!; try done; [by left|simpl..].
      * by rewrite Hoid, lookup_delete_eq.
      * rewrite Hoid, lookup_delete_eq.
        rewrite bool_decide_eq_false_2 by done.
        eexists. split_and!; [done|simpl; lia|done].
    + rewrite bool_decide_eq_false_2 in * by done. simpl in *.
      eexists _, _. split; [done|]. simpl. rewrite lookup_insert_eq.
      split_and!; try done; [by right| |by rewrite lookup_delete_eq|].
      * intros id' Hne. by rewrite lookup_insert_ne.
      * rewrite lookup_delete_eq.
        eexists. split_and!; [done|simpl|done].
        rewrite length_app. simpl. lia.
  - intros name Hname. unfold getPlanet.
    destruct (planetsCache (Items.served calls) !! name) as [o|] eqn:Hc.
    + by destruct (Hown _ _ Hc) as (_ & _ & _ & ?).
    + by rewrite bool_decide_eq_true_2.
Qed.

End Details.

(** ** What the results page shows of the server *)

Section Shown.
Import Store Results App Served.

Local Arguments Store.step : simpl never.

Variable all : option string → list Planet.

Lemma numbered_errState : numbered all errState.
Proof. rewrite errState_eq. by intros ?. Qed.

Lemma makeNewStateObservable_numbered (base : State) :
  numbered all base → numbered_obs all (makeNewStateObservable base).1.
Proof.
  intros Hn. destruct (makeNewStateObservable_cases base)
    as [->|(b & e & _ & _ & _ & ->)]; done.
Qed.

Lemma respond_numbered (o : Obs) (i : Z) (r : option PlanetsPortion) :
  truthful all o i r → numbered_obs all o →
  numbered_obs all (respond o i r).1.
Proof.
  intros Hr Ho. destruct o as [s|st term|base idxs arrived]; simpl.
  - done.
  - case_decide; [|done]. unfold search_reply.
    destruct r as [portion|]; [|apply numbered_errState].
    destruct (Hr portion eq_refl) as [Hcount _].
    destruct (resetMemoizedPortions _) as [st'|] eqn:Hreset;
      [|apply numbered_errState].
    unfold resetMemoizedPortions in Hreset.
    case_match; [|done]. injection Hreset as <-.
    apply makeNewStateObservable_numbered. intros _ _.
    destruct (0 <? portion_count portion); simpl; by rewrite Hcount.
  - case_decide; [|done].
    destruct r as [portion|]; [|apply numbered_errState].
    destruct (all_arrived _ _); [|done]. simpl.
    pose proof (store_portions_fields idxs
                  (<[i:=results portion]> arrived) base)
      as (_ & Ht & _ & Hc & He & Hi).
    unfold numbered in *. simpl in *. rewrite Ht, Hc, He, Hi. done.
Qed.

Lemma project_numbered (ev : Event) (o : Obs) (reqs : list Request) :
  numbered all (event_state ev) → project ev = Some (o, reqs) →
  numbered_obs all o.
Proof.
  intros Hn Hproj.
  assert (Hc : constructed (event_state ev)).
  { unfold project in Hproj.
    destruct (copyOf (event_state ev)) as [st|] eqn:Hcp; [|done].
    by apply copyOf_Some in Hcp. }
  rewrite project_constructed in Hproj by done.
  injection Hproj as Hh.
  destruct ev as [term s|pg s|n s]; simpl in *.
  - unfold __search in Hh. by injection Hh as <- _.
  - unfold __newPage in Hh. simpl in Hh.
    destruct (error s || initial s) eqn:Hf.
    { injection Hh as <- _. apply numbered_errState. }
    replace o with (o, reqs).1 by done. rewrite <- Hh.
    by apply makeNewStateObservable_numbered.
  - unfold __changePageSize in Hh. simpl in Hh.
    destruct (error s || initial s) eqn:Hf.
    { injection Hh as <- _. apply numbered_errState. }
    replace o with (o, reqs).1 by done. rewrite <- Hh.
    by apply makeNewStateObservable_numbered.
Qed.

Lemma truthful_honest (o : Obs) (i : Z) (r : option PlanetsPortion) :
  truthful all o i r → honest_reply (server_of all) o i r.
Proof.
  intros Hr portion ->. specialize (Hr portion eq_refl).
  destruct o; [done|by destruct Hr|done].
Qed.

Lemma faithful_step (svc : PlanetsStoreService) (x : Store.Input) :
  invariant (faithful all) (faithful_obs all) svc →
  admissible (λ ev, faithful all (event_state ev)) (truthful all) svc x →
  invariant (faithful all) (faithful_obs all) (Store.step svc x).
Proof.
  apply (invariant_step (faithful all) (faithful_obs all)
           (λ ev, faithful all (event_state ev)) (truthful all)).
  - by intros s [? ?].
  - intros ev o reqs [Hco Hn] Hproj. split.
    + by apply (project_coherent (server_of all) ev o reqs).
    + by apply (project_numbered ev o reqs).
  - intros o i r Hr [Hco Hn]. split.
    + apply respond_coherent; [by apply truthful_honest|done].
    + by apply respond_numbered.
Qed.

Lemma current_faithful (svc : PlanetsStoreService) (s : State) :
  invariant (faithful all) (faithful_obs all) svc → current svc = Some s →
  faithful all s.
Proof.
  intros (Hlog & _) Hcur. unfold current in Hcur.
  destruct (last (state_log svc)) as [[o s']|] eqn:Hl; [|done].
  simpl in Hcur. injection Hcur as ->. apply (Hlog o).
  apply last_Some in Hl as [l' ->]. apply elem_of_app. right.
  by apply list_elem_of_singleton.
Qed.

Lemma start_faithful :
  invariant (faithful all) (faithful_obs all) (store start).
Proof.
  destruct (construct_coherent (server_of all)) as (Hc1 & Hc2 & Hc3).
  split_and!; simpl.
  - intros o s Hin. split; [by apply (Hc1 o)|].
    apply list_elem_of_singleton in Hin as [= _ ->]. by intros ?.
  - intros o Ho. split; [by apply Hc2|]. by injection Ho as <-.
  - done.
Qed.

Lemma served_sound (tr : list App.Input) (app : App) :
  sound app → invariant (faithful all) (faithful_obs all) (store app) →
  served_by all app tr →
  ∃ app', foldl (λ a x, a ≫= λ app, App.step app x) (Some app) tr = Some app' ∧
          sound app' ∧
          invariant (faithful all) (faithful_obs all) (store app').
Proof.
  revert app. induction tr as [|x tr IH]; intros app Hsound Hf Htr.
  { by exists app. }
  destruct Htr as [[Hpolite Hx] Htr].
  destruct (step_sound app x Hsound Hpolite) as (app1 & Hstep & Hsound1 & Hst).
  rewrite Hstep in Htr. simpl. rewrite Hstep. apply IH; [done| |done].
  destruct Hst as [->|[(ev & _ & Hcur & ->)|(sub & i & r & -> & ->)]].
  - done.
  - apply faithful_step; [done|]. simpl.
    by apply (current_faithful (store app)).
  - apply faithful_step; [done|]. destruct sub; apply Hx.
Qed.

(** X18 (the results page shows the results of the term).  Let the
    server hold the list [all term] of the results of each term and answer
    with its pages of ten, or fail.  Whatever the components and the user
    do, politely, no callback throws, and whenever the state last
    published is not flagged, the results page on screen shows, for the
    term and the page of that state, the run of [all term] from
    [pageSize * (page - 1)] up to [pageSize * page], or to the end. *)
Theorem results_page_shows_the_results (tr : list App.Input) :
  served_by all start tr →
  ∃ app s, App.run tr = Some app ∧ current (store app) = Some s ∧
    ∀ c, resultsComponent app = Some c →
      ResultsPage.state c = Some s ∧
      (error s = false → initial s = false →
       ∃ pg, page s = Some pg ∧ 1 ≤ pg ∧
         let found := all (searchTerm s) in
         count s = Some (Z.of_nat (length found)) ∧
         ResultsPage.planetList c =
           Some (segment found (pageSize s * (pg - 1))
                         (Z.min (pageSize s * pg)
                                (Z.of_nat (length found))))).
Proof.
  intros Htr.
  destruct (served_sound tr start start_sound start_faithful Htr)
    as (app & Hrun & Hsound & Hf).
  pose proof Hsound as (Hinv & _ & [s Hcur] & Hres & _).
  exists app, s. split_and!; [done..|]. intros c Hc.
  destruct (Hres c Hc) as (s' & Hcur' & Hstate & _ & Hready).
  assert (s' = s) as -> by congruence. split; [done|]. intros He Hi.
  destruct (Hready He Hi) as (_ & _ & (l & Hl & Hshown & _) & _).
  destruct (current_kept _ _ Hinv Hcur) as (_ & Hpub & Hps & Hp).
  destruct (Hp He Hi) as (pg & n & Hpg & Hc' & Hn & Hpg1 & Hin).
  destruct (current_faithful _ _ Hf Hcur) as [Hco Hnum].
  specialize (Hnum He Hi). exists pg. split_and!; [done..|].
  cbv zeta. split; [done|]. rewrite Hshown, <- Hl.
  destruct (all (searchTerm s)) as [|p found] eqn:Hall.
  - unfold Store.planetList. rewrite Hnum. simpl.
    unfold segment. by rewrite drop_nil, take_nil.
  - rewrite <- Hall. apply planetList_segment; try done.
    + by rewrite Hall.
    + by rewrite Hall.
    + rewrite Hnum in Hc'. injection Hc' as <-.
      destruct Hin as [?| ->]; [done|].
      rewrite (pagesCount_Fin s _ Hps Hnum). simpl. apply Z.ltb_ge.
      pose proof (Z.div_mod (- Z.of_nat (length (p :: found))) (pageSize s)
                    ltac:(lia)).
      pose proof (Z.mod_pos_bound (- Z.of_nat (length (p :: found)))
                    (pageSize s) ltac:(lia)).
      simpl length in *. nia.
    + intros b e i Hb Hend Hi'.
      destruct Hpub as [?|[?|Hcomplete]]; [congruence..|].
      destruct (Hcomplete b e i Hb Hend Hi') as [q Hq].
      rewrite Hq. f_equal. by rewrite (Hco i q Hq).
Qed.

End Shown.

(** ** The page of the first engine *)

Section FirstDisplay.
Import Legacy Results.

Lemma legacy_concat_of (all : list Planet) (c : Z) (k : nat) (b : Z) :
  1 ≤ b →
  concat (results <$> ((λ i, mkPortion c (portion_of all i))
                         <$> seqZ b (Z.of_nat k))) =
    take (k * 10) (drop (Z.to_nat (10 * (b - 1))) all).
Proof.
  revert b. induction k as [|k IH]; intros b Hb.
  - by rewrite seqZ_nil.
  - rewrite seqZ_cons by lia. rewrite !fmap_cons. cbn [concat results].
    replace (Z.pred (Z.of_nat (S k))) with (Z.of_nat k) by lia.
    rewrite IH by lia. unfold portion_of.
    replace (Z.to_nat (10 * (Z.succ b - 1)))
      with (Z.to_nat (10 * (b - 1)) + 10)%nat by lia.
    rewrite <- drop_drop.
    replace (S k * 10)%nat with (10 + k * 10)%nat by lia.
    by rewrite take_take_drop.
Qed.

Lemma legacy_indices_of_page (s : State) (c pg : Z) :
  count s = Some c → page s = Some pg →
  0 < c → 0 < pageSize s → 1 ≤ pg → Js.gt pg (pagesCount s) = false →
  let bi := pageSize s * (pg - 1) in
  let ei := Z.min (pageSize s * pg) c in
  Js.eq0 (count s) = false ∧
  begIndex s = Some bi ∧ endIndex s = Some ei ∧
  begPortionIndex s = Some (bi / 10 + 1) ∧
  endPortionIndex s = Some ((ei - 1) / 10 + 1) ∧
  0 ≤ bi < ei ∧ ei ≤ c.
Proof.
  intros Hc Hp Hc0 Hps Hpg Hgt bi ei.
  assert (E0 : Js.eq0 (count s) = false) by (rewrite Hc; by destruct c).
  unfold pagesCount, Js.ceil_div in Hgt. rewrite Hc in Hgt. simpl in Hgt.
  destruct (Z.eqb_spec (pageSize s) 0); [lia|]. simpl in Hgt.
  apply Z.ltb_ge in Hgt.
  pose proof (Z.div_mod (- c) (pageSize s) ltac:(lia)).
  pose proof (Z.mod_pos_bound (- c) (pageSize s) ltac:(lia)).
  unfold begPortionIndex, endPortionIndex, begIndex, endIndex.
  rewrite E0, Hp, Hc. simpl. split_and!; try done; subst bi ei; nia.
Qed.

(** X20 (the page of the first engine).  For a state on a page of
    [1 .. pagesCount()], [count] being the number of results:
    [makeCompleteNewStateObservable] joins the observables of the
    portions [begPortionIndex() .. endPortionIndex()] of the term of the
    state, in order, and when these bring the server-side pages of the
    list of results, the state emitted has for display list the run of
    results from [begIndex()] up to [endIndex()]. *)
Theorem first_engine_shows_the_page (this : State) (all : list Planet)
    (pg : Z) (svc : PlanetsService) :
  cache_of_last_term svc →
  count this = Some (Z.of_nat (length all)) → page this = Some pg →
  all ≠ [] → 0 < pageSize this → 1 ≤ pg →
  Js.gt pg (pagesCount this) = false →
  let bi := pageSize this * (pg - 1) in
  let ei := Z.min (pageSize this * pg) (Z.of_nat (length all)) in
  let lo := bi / 10 + 1 in
  let hi := (ei - 1) / 10 + 1 in
  let cleared := mkState (pageSize this) (searchTerm this) (page this)
                         (Some []) (count this) (error this) (initial this) in
  ∃ obs svc',
    makeCompleteNewStateObservable this svc = (ForkJoin cleared obs, svc') ∧
    url_page <$> obs = seqZ lo (hi - lo + 1) ∧
    Forall (λ o, url_search o = searchTerm this) obs ∧
    joined cleared ((λ i, mkPortion (Z.of_nat (length all)) (portion_of all i))
                      <$> seqZ lo (hi - lo + 1)) =
      Of (mkState (pageSize this) (searchTerm this) (page this)
                  (Some (segment all bi ei)) (count this) (error this)
                  (initial this)).
Proof.
  intros Hinv Hc Hp Hall Hps Hpg Hle bi ei lo hi cleared.
  assert (Hn : 0 < Z.of_nat (length all)) by (destruct all; [done|simpl; lia]).
  destruct (legacy_indices_of_page cleared _ pg Hc Hp Hn Hps Hpg Hle)
    as (E0 & Hbi & Hei & Hb & He & Hlt & Hen).
  simpl in Hbi, Hei, Hb, He, Hlt, Hen.
  fold bi ei in Hbi, Hei, Hb, He, Hlt, Hen. fold lo hi in Hb, He.
  pose proof (Z.div_mod bi 10 ltac:(lia)) as Hd1.
  pose proof (Z.mod_pos_bound bi 10 ltac:(lia)) as Hr1.
  pose proof (Z.div_mod (ei - 1) 10 ltac:(lia)) as Hd2.
  pose proof (Z.mod_pos_bound (ei - 1) 10 ltac:(lia)) as Hr2.
  assert (Hlohi : lo ≤ hi).
  { subst lo hi. apply Z.add_le_mono_r, Z.div_le_mono; lia. }
  pose proof (legacy_asks_interval (seqZ lo (hi - lo + 1)) (searchTerm this)
                svc Hinv) as [Hpages _].
  pose proof (getPlanetsPortions_term (seqZ lo (hi - lo + 1))
                (searchTerm this) svc Hinv) as Hterm.
  unfold makeCompleteNewStateObservable. fold cleared.
  rewrite E0, Hb, He.
  destruct (getPlanetsPortions _ _ svc) as [obs svc'] eqn:Hget.
  simpl in Hpages, Hterm.
  exists obs, svc'. split_and!; [|done|done|].
  - destruct obs as [|o obs]; [|done].
    apply (f_equal length) in Hpages. rewrite length_seqZ in Hpages.
    simpl in Hpages. lia.
  - unfold joined. rewrite Hb, Hbi, Hei. do 3 f_equal.
    replace (hi - lo + 1) with (Z.of_nat (Z.to_nat (hi - lo + 1))) by lia.
    rewrite legacy_concat_of by (subst lo; lia).
    rewrite slice_inside.
    2: subst lo; lia.
    2: { rewrite length_take, length_drop. subst lo hi. lia. }
    unfold segment.
    replace (Z.to_nat (ei - 10 * (lo - 1) - (bi - 10 * (lo - 1))))
      with (Z.to_nat (ei - bi)) by lia.
    replace (Z.to_nat bi)
      with (Z.to_nat (10 * (lo - 1)) + Z.to_nat (bi - 10 * (lo - 1)))%nat
      by (subst lo; lia).
    apply take_drop_window. subst lo hi. lia.
Qed.

(** X21 (the first store relays what the latest observable emits).  The
    store publishes, after its initial state, only states that the
    search of the constructor or an observable handed to [update] has
    emitted; an observable handed over while the first search has not
    emitted is dropped; and once another observable is handed over, the
    one subscribed before, if it had not emitted, never has a state
    published. *)
Theorem first_store_relays_the_latest (tr1 tr2 : list Legacy.Input)
    (k : nat) :
  inner (Legacy.run Legacy.construct tr1) = Some k →
  (∀ s, (From (Updated k), s)
        ∉ state_log (Legacy.run Legacy.construct tr1)) →
  (∀ s, (From (Updated k), s)
        ∉ state_log (Legacy.run Legacy.construct (tr1 ++ Update :: tr2))) ∧
  (∀ tr src s, (From src, s) ∈ state_log (Legacy.run Legacy.construct tr) →
               Emits src s ∈ tr) ∧
  (∀ tr, booting (Legacy.run Legacy.construct tr) = true →
         Legacy.step (Legacy.run Legacy.construct tr) Update =
           Legacy.run Legacy.construct tr).
Proof.
  intros Hk Hfresh. split_and!.
  - by apply legacy_switch_latest.
  - intros tr. induction tr as [|x tr IH] using rev_ind; intros src s.
    + simpl. intros Hin%list_elem_of_singleton. done.
    + unfold Legacy.run. rewrite foldl_app. simpl.
      fold (Legacy.run Legacy.construct tr). intros Hin.
      apply elem_of_app.
      destruct x as [| [|k'] s' | [|k']]; simpl in Hin;
        repeat case_match; simpl in Hin;
        try (left; by apply IH);
        apply elem_of_app in Hin as [Hin|Hin%list_elem_of_singleton];
        try (left; by apply IH); simplify_eq; right;
        by apply list_elem_of_singleton.
  - apply legacy_update_dropped.
Qed.

End FirstDisplay.

(** ** Further scenarios *)

Section FurtherScenarios.
Import Store Scenario Results Browsing.

(** Sixty planets, twenty-five per page: page 2 is the run 25 to 49. *)
Lemma planetList_is_segment_witness :
  planetList second60 = Some (planets 25 "p").
Proof.
  refine (proj1 (planetList_is_segment second60 (planets 60 "p") 2
                   _ _ _ _ _ _ _)); try reflexivity; try done.
  intros b e i Hb He Hi. vm_compute in Hb, He.
  injection Hb as <-. injection He as <-.
  assert (i = 3 ∨ i = 4 ∨ i = 5) as [-> | [-> | ->]] by lia; reflexivity.
Defined.

Lemma pages_tile_the_results_witness :
  ∃ pc, pagesCount first60 = Js.Fin pc ∧ 1 ≤ pc.
Proof.
  destruct (pages_tile_the_results first60 60) as (pc & H1 & H2 & _);
    [reflexivity|lia|simpl; lia|].
  exists pc. split; assumption.
Defined.

(** The first page of sixty needs the portions 2 and 3 besides the first:
    they may come in either order. *)
Lemma join_ignores_arrival_order_witness :
  let base := mkState 25 (Some "") (Some 1) (Some 60) false false
                      {[ 1 := planets 10 "p" ]} in
  let q := mkPortion 60 (planets 10 "p") in
  replies (makeNewStateObservable base).1 (successes [(2, q); (3, q)]) =
  replies (makeNewStateObservable base).1 (successes [(3, q); (2, q)]).
Proof.
  intros base q.
  refine (proj1 (join_ignores_arrival_order base [(2, q); (3, q)]
                   [(3, q); (2, q)] _ _ _)).
  - intros H. vm_compute in H. discriminate H.
  - apply Permutation_swap.
  - vm_compute. reflexivity.
Defined.

Lemma paging_keeps_the_search_witness :
  is_Some (project (changePageSize 10 first60)).
Proof.
  destruct (paging_keeps_the_search first60 10) as [(o & reqs & H & _) _];
    [reflexivity..|].
  rewrite H. eexists. reflexivity.
Defined.

Lemma search_yields_witness :
  ∃ st, project (search "x" errState) =
          Some (AwaitFirst st "x", [(1, Some "x")]).
Proof.
  destruct (search_yields errState "x") as (st & H & _); [reflexivity|].
  exists st. exact H.
Defined.

Lemma smaller_page_size_needs_no_fetch_witness :
  http (step (run construct boot60) (Dispatch (changePageSize 10 first60))) =
    http (run construct boot60).
Proof.
  refine (proj1 (proj2 (smaller_page_size_needs_no_fetch
                          (run construct boot60) first60 10
                          _ _ _ first60_complete _)));
    try reflexivity. simpl. lia.
Defined.

Lemma echoing_app (svc : PlanetsStoreService) (tr1 tr2 : list Input) :
  echoing svc tr1 → echoing (run svc tr1) tr2 → echoing svc (tr1 ++ tr2).
Proof.
  revert svc. induction tr1 as [|x tr1 IH]; intros svc H1 H2; [exact H2|].
  destruct H1 as [Hx H1]. split; [exact Hx|]. apply IH; [exact H1|exact H2].
Defined.

Lemma echoing_replies (svc : PlanetsStoreService) (tr : list Input) :
  Forall (λ x, ∀ ev, x ≠ Dispatch ev) tr → echoing svc tr.
Proof.
  intros Htr. revert svc. induction Htr as [|x tr Hx Htr IH]; intros svc.
  - exact I.
  - split; [|apply IH]. destruct x as [ev|sub i r]; [|exact I].
    destruct (Hx ev eq_refl).
Defined.

Lemma goto2_echoing : echoing construct goto2.
Proof.
  unfold goto2. apply echoing_app.
  - apply echoing_replies. unfold boot60.
    repeat constructor; intros ev; discriminate.
  - split; [|exact I]. cbn [event_state].
    rewrite boot60_publishes_first60. right. left.
Defined.

Lemma echoing_keeps_listening_witness :
  listening (run construct goto2) = true.
Proof.
  refine (proj1 (proj2 (echoing_keeps_listening goto2 goto2_echoing)) _).
  reflexivity.
Defined.

End FurtherScenarios.

Section ComponentScenarios.
Import Store Scenario.

(** Sixty planets by twenty-five: three pages. *)
Lemma results_page_next_witness :
  Store.pagesCount first60 = Js.Fin 3.
Proof.
  refine (proj1 (results_page_next first60 ResultsPage.created 1 60
                   _ _ _ _ _ _ _)); try reflexivity; simpl; lia.
Defined.

(** The results page appears, the first search brings five planets, the
    page size in force is saved, then 10, and page 1 is asked for. *)
Lemma components_follow_the_service_witness :
  is_Some (App.run [App.ShowResults; App.ShowSettings;
                    App.Transport Boot 1 (reply 5 5);
                    App.Saves 25; App.Saves 10; App.Turns 1]).
Proof.
  destruct (components_follow_the_service
              [App.ShowResults; App.ShowSettings;
               App.Transport Boot 1 (reply 5 5);
               App.Saves 25; App.Saves 10; App.Turns 1])
    as (app & s & H & _).
  - repeat constructor; simpl; lia.
  - rewrite H. eexists. reflexivity.
Defined.

Lemma details_id_of_url_witness :
  ResultsPage.goToDetailsPage
    (mkPlanet "http://0.0.0.0:8080/api/planets/12/") = "12".
Proof.
  refine (proj1 (details_id_of_url "http://0.0.0.0:8080/api/planets" "12"
                   JsString.slash _)).
  intros H. vm_compute in H.
  apply elem_of_cons in H as [H|H]; [discriminate H|].
  apply elem_of_cons in H as [H|H]; [discriminate H|].
  by apply elem_of_nil in H.
Defined.

Lemma not_inherited_1 : "1" ∉ Items.Object_prototype.
Proof.
  intros H. unfold Items.Object_prototype in H.
  repeat (apply elem_of_cons in H as [H|H]; [discriminate H|]).
  by apply elem_of_nil in H.
Defined.

(** Planet 1 is asked for, the request fails, and it is asked for
    again. *)
Lemma planet_cache_shares_requests_witness :
  ∃ o svc1,
    Items.getPlanet "1"
      (Items.served [Items.Get "1";
                     Items.Fails (Items.mkPlanetObservable 0 "1"
                                    (Items.baseUrl +:+ "1"))]) =
      (Items.Observable o, svc1) ∧
    Items.planet_rank o = 1%nat.
Proof.
  destruct (planet_cache_shares_requests
              [Items.Get "1";
               Items.Fails (Items.mkPlanetObservable 0 "1"
                              (Items.baseUrl +:+ "1"))] "1" not_inherited_1)
    as [(o & svc1 & H & _) _].
  exists o, svc1. split; [exact H|].
  vm_compute in H. injection H as <- _. reflexivity.
Defined.

Lemma five_served :
  Served.served_by (λ _, planets 5 "p") App.start
    [App.ShowResults; App.Transport Boot 1 (reply 5 5)].
Proof.
  split; [done|]. change (App.step App.start App.ShowResults)
    with (Some (App.mkApp construct
                  (Some (ResultsPage.mkResults "initialLoading"
                           (Some initialState) None None None None))
                  None)).
  split; [|done]. split; [simpl; lia|].
  intros o [= <-] portion [= <-]. split; reflexivity.
Defined.

Lemma results_page_shows_the_results_witness :
  is_Some (App.run [App.ShowResults; App.Transport Boot 1 (reply 5 5)]).
Proof.
  destruct (results_page_shows_the_results (λ _, planets 5 "p")
              [App.ShowResults; App.Transport Boot 1 (reply 5 5)]
              five_served) as (app & s & H & _).
  rewrite H. eexists. reflexivity.
Defined.

Lemma first_engine_shows_the_page_witness :
  ∃ obs,
    (Legacy.makeCompleteNewStateObservable
       (Legacy.mkState 10 (Some "") (Some 1) None (Some 5) false false)
       Legacy.newPlanetsService).1 =
    Legacy.ForkJoin
      (Legacy.mkState 10 (Some "") (Some 1) (Some []) (Some 5) false false)
      obs ∧
    Legacy.url_page <$> obs = [1].
Proof.
  destruct (first_engine_shows_the_page
              (Legacy.mkState 10 (Some "") (Some 1) None (Some 5) false false)
              (planets 5 "p") 1 Legacy.newPlanetsService)
    as (obs & svc' & H & Hpages & _);
    [apply legacy_cache_new|reflexivity|reflexivity|done|simpl; lia|lia
    |reflexivity|].
  exists obs. split; [|exact Hpages]. by rewrite H.
Defined.

(** The first search has emitted, an observable is handed over, then
    another: what the first of them emits afterwards is not published. *)
Lemma first_store_relays_the_latest_witness :
  (Legacy.From (Legacy.Updated 0), Legacy.errorState)
    ∉ Legacy.state_log
        (Legacy.run Legacy.construct
           ([Legacy.Emits Legacy.Constructor Legacy.errorState; Legacy.Update]
            ++ Legacy.Update
               :: [Legacy.Emits (Legacy.Updated 0) Legacy.errorState])).
Proof.
  refine (proj1 (first_store_relays_the_latest
                   [Legacy.Emits Legacy.Constructor Legacy.errorState;
                    Legacy.Update]
                   [Legacy.Emits (Legacy.Updated 0) Legacy.errorState]
                   0 _ _) _).
  - reflexivity.
  - intros s H. vm_compute in H.
    apply elem_of_cons in H as [H|H]; [discriminate H|].
    apply elem_of_cons in H as [H|H]; [discriminate H|].
    by apply elem_of_nil in H.
Defined.

End ComponentScenarios.
